(** * Speculative sampling: a shallow embedding of [sampling.py]

    The development follows the Python module function by function:
    [top_k_top_p_filter], [sample], [autoregressive_sampling], [max_fn],
    [norm_logits] and [speculative_sampling].

    Modelling decisions.
    - Tensors have batch size 1 throughout (the code asserts it), so a
      token tensor of shape (1, L) is a [list nat] and a logit tensor of
      shape (1, L, V) is a list of rows.
    - Floating point numbers are idealised: finite values are exact
      rationals, and the three special values of IEEE arithmetic are kept,
      because the code divides by quantities that may be zero and compares
      against the quotient.  Rounding is not modelled.
    - The exponential behind [F.softmax], the uniform generator behind
      [torch.rand] and the weighted draw behind [torch.multinomial] belong
      to the library; they are parameters of the development.  The global
      generator of torch is an explicit state threaded through every draw.
    - Python exceptions are values of [exn]; [while] loops take fuel and
      answer [Diverge] when it runs out. *)

From Stdlib Require Import List ZArith QArith Qround Lia Lqa Bool Arith.
From Stdlib Require Import Permutation Sorted.
Import ListNotations.

(** ** Numbers *)

Module Float.

Inductive fval : Type :=
| Fin (q : Q)
| PInf
| NInf
| NaN.

Definition Qltb (a b : Q) : bool := negb (Qle_bool b a).

Definition fzero : fval := Fin 0.

Definition fneg (a : fval) : fval :=
  match a with
  | Fin q => Fin (- q)
  | PInf => NInf
  | NInf => PInf
  | NaN => NaN
  end.

Definition fadd (a b : fval) : fval :=
  match a, b with
  | NaN, _ | _, NaN => NaN
  | Fin x, Fin y => Fin (x + y)
  | PInf, NInf | NInf, PInf => NaN
  | PInf, _ | _, PInf => PInf
  | NInf, _ | _, NInf => NInf
  end.

Definition fsub (a b : fval) : fval := fadd a (fneg b).

(** Division.  A finite non-zero number over zero is an infinity and zero
    over zero is [NaN]; nothing is raised.  Every divisor of this program
    is a sum or a quotient of non-negative numbers, or the temperature, so
    the zero met here is the positive one. *)
Definition fdiv (a b : fval) : fval :=
  match a, b with
  | NaN, _ | _, NaN => NaN
  | Fin x, Fin y =>
      if Qeq_bool y 0 then
        if Qeq_bool x 0 then NaN
        else if Qltb 0 x then PInf else NInf
      else Fin (x / y)
  | Fin _, _ => Fin 0
  | PInf, Fin y => if Qltb y 0 then NInf else PInf
  | NInf, Fin y => if Qltb y 0 then PInf else NInf
  | _, _ => NaN
  end.

(** [a > b]: false as soon as one side is [NaN]. *)
Definition fgtb (a b : fval) : bool :=
  match a, b with
  | NaN, _ | _, NaN => false
  | Fin x, Fin y => Qltb y x
  | PInf, PInf => false
  | PInf, _ => true
  | _, PInf => false
  | NInf, _ => false
  | Fin _, NInf => true
  end.

Definition fltb (a b : fval) : bool := fgtb b a.

(** [a <= b], again false on [NaN]. *)
Definition fleb (a b : fval) : bool :=
  match a, b with
  | NaN, _ | _, NaN => false
  | Fin x, Fin y => Qle_bool x y
  | _, PInf => true
  | NInf, _ => true
  | _, _ => false
  end.

(** The order [torch.sort] and [torch.topk] use: [NaN] counts as the
    greatest value. *)
Definition sort_geb (a b : fval) : bool :=
  match a, b with
  | NaN, _ => true
  | _, NaN => false
  | _, _ => negb (fltb a b)
  end.

Definition fsum (l : list fval) : fval := fold_right fadd fzero l.

Definition Qsum (ws : list Q) : Q := fold_right Qplus 0 ws.

(** Equality up to the representation of a rational. *)
Definition feq (a b : fval) : Prop :=
  match a, b with
  | Fin x, Fin y => x == y
  | PInf, PInf | NInf, NInf | NaN, NaN => True
  | _, _ => False
  end.

End Float.
Import Float.

Infix "=f=" := feq (at level 70, no associativity).

(** ** Exceptions, outcomes and the generator state *)

Inductive exn : Type :=
| RuntimeError
| IndexError
| AssertionError
| UnboundLocalError.

Inductive outcome (A : Type) : Type :=
| Ok (a : A)
| Raise (e : exn)
| Diverge.

Arguments Ok {A} a.
Arguments Raise {A} e.
Arguments Diverge {A}.

Definition of_option {A : Type} (e : exn) (o : option A) : outcome A :=
  match o with
  | Some a => Ok a
  | None => Raise e
  end.

Definition obind {A B : Type} (m : outcome A) (k : A -> outcome B) : outcome B :=
  match m with
  | Ok a => k a
  | Raise e => Raise e
  | Diverge => Diverge
  end.

(** ** Indexing as Python does it *)

(** [l[i]]: a negative index counts from the end; out of range is an
    [IndexError] (here [None]). *)
Definition getitem {A : Type} (l : list A) (i : Z) : option A :=
  if (i <? 0)%Z then
    if (i + Z.of_nat (length l) <? 0)%Z then None
    else nth_error l (Z.to_nat (i + Z.of_nat (length l)))
  else nth_error l (Z.to_nat i).

(** [l[..., -1]] *)
Definition last_item {A : Type} (l : list A) : option A := getitem l (-1).

(** [l[i] = v] on a list known to be long enough. *)
Fixpoint set_nth {A : Type} (l : list A) (i : nat) (v : A) : list A :=
  match l, i with
  | [], _ => []
  | _ :: t, O => v :: t
  | h :: t, S i' => h :: set_nth t i' v
  end.

(** A distribution oracle: the logits of every position of a sequence,
    [model(x).logits] with the batch dimension dropped. *)
Definition oracle : Type := list nat -> list (list Q).

(** The oracle that answers the same row at every position. *)
Definition const_oracle (row : list Q) : oracle :=
  fun x => map (fun _ => row) x.

(** ** A concrete generator and exponential, to run the program *)

Module Tape.

(** The generator is a tape of rationals; a draw consumes the head and
    keeps its fractional part, an exhausted tape answers 0. *)
Definition G : Type := list Q.

Definition frac (u : Q) : Q := u - inject_Z (Qfloor u).

Definition rand (g : G) : Q * G :=
  match g with
  | [] => (0, [])
  | u :: t => (frac u, t)
  end.

(** Inversion of the cumulative weights. *)
Fixpoint pick (ws : list Q) (u : Q) (i : nat) : nat :=
  match ws with
  | [] => i
  | w :: t => if Qltb u w then i else pick t (u - w) (S i)
  end.

Definition draw (ws : list Q) (g : G) : nat * G :=
  let (u, g') := rand g in (pick ws (u * Qsum ws) 0, g').

(** A positive, increasing stand-in for the exponential, with value 1 at 0. *)
Definition exp (x : Q) : Q :=
  if Qle_bool 0 x then 1 + x else / (1 - x).

(** An exponential that underflows to zero below -100. *)
Definition exp_underflow (x : Q) : Q :=
  if Qle_bool (-100) x then exp x else 0.

End Tape.

(** Oracles and tapes for the concrete runs at the end. *)

Module Run.

(** A draft oracle that prefers token 2 and a target oracle that prefers
    token 0, over a vocabulary of three tokens. *)
Definition approx : oracle := const_oracle [0; 1; 2].
Definition target : oracle := const_oracle [2; 1; 0].

Definition tape5 : Tape.G := [9#10; 9#10; 1#2; 1#2; 7#10].
Definition tape3 : Tape.G := [1#2; 9#10; 1#2].
Definition tape_reject : Tape.G := [9#10; 1#2; 9#10].

(** A draft oracle whose last logit underflows in the softmax without
    temperature, but not once divided by a temperature of 1000. *)
Definition approx_underflow : oracle := const_oracle [0; 0; -200].
Definition target_flat : oracle := const_oracle [0; 0; 0].

(** An oracle that answers a single row whatever the sequence is. *)
Definition short_oracle : oracle := fun _ => [[0; 1; 2]].

(** An oracle that is not causal: its rows depend on the length of the
    whole sequence. *)
Definition parity_oracle : oracle :=
  fun x => map (fun _ => if Nat.even (length x) then [0; 1; 2; 3]
                         else [3; 2; 1; 0]) x.

End Run.

(** ** The program *)

Section Sampling.

(** The state of torch's global generator, [torch.rand(1)], the weighted
    draw of [torch.multinomial] on weights it has validated, and the
    exponential of [F.softmax]. *)
Variable G : Type.
Variable rand : G -> Q * G.
Variable draw : list Q -> G -> nat * G.
Variable exp : Q -> Q.

Definition M (A : Type) : Type := G -> outcome (A * G).

Definition ret {A : Type} (a : A) : M A := fun g => Ok (a, g).

Definition bind {A B : Type} (m : M A) (k : A -> M B) : M B :=
  fun g =>
    match m g with
    | Ok (a, g') => k a g'
    | Raise e => Raise e
    | Diverge => Diverge
    end.

Definition lift {A : Type} (o : outcome A) : M A :=
  fun g =>
    match o with
    | Ok a => Ok (a, g)
    | Raise e => Raise e
    | Diverge => Diverge
    end.

Definition throw {A : Type} (e : exn) : M A := fun _ => Raise e.

Notation "x <- m ;; k" := (bind m (fun x => k))
  (at level 100, m at next level, right associativity).

(** *** Library operations on tensors *)

Definition fexp (a : fval) : fval :=
  match a with
  | Fin q => Fin (exp q)
  | PInf => PInf
  | NInf => Fin 0
  | NaN => NaN
  end.

(** [F.softmax] along the vocabulary dimension. *)
Definition softmax (l : list fval) : list fval :=
  let es := map fexp l in
  let s := fsum es in
  map (fun e => fdiv e s) es.

Fixpoint insert_desc (a : fval * nat) (l : list (fval * nat)) : list (fval * nat) :=
  match l with
  | [] => [a]
  | b :: t => if sort_geb (fst a) (fst b) then a :: l else b :: insert_desc a t
  end.

(** [torch.sort(logits, descending=True)]: the values paired with the
    index each came from. *)
Definition sort_desc (l : list fval) : list (fval * nat) :=
  fold_right insert_desc [] (combine l (seq 0 (length l))).

Fixpoint cumsum_from (acc : fval) (l : list fval) : list fval :=
  match l with
  | [] => []
  | a :: t => let s := fadd acc a in s :: cumsum_from s t
  end.

Definition cumsum (l : list fval) : list fval := cumsum_from fzero l.

(** [base.scatter(1, index, src)]: [out[index[k]] = src[k]]. *)
Definition scatter (base : list bool) (index : list nat) (src : list bool) : list bool :=
  fold_left (fun acc (ib : nat * bool) => set_nth acc (fst ib) (snd ib)) (combine index src) base.

Definition mask_neg_inf (logits : list fval) (mask : list bool) : list fval :=
  map (fun vb : fval * bool => if snd vb then NInf else fst vb) (combine logits mask).

(** *** [top_k_top_p_filter] *)

(** Lines 18-20: keep the [top_k] greatest entries. *)
Definition top_k_filter (logits : list fval) (top_k : nat) : outcome (list fval) :=
  if (0 <? top_k)%nat then
    obind
      (of_option IndexError
         (last_item (firstn (Nat.min top_k (length logits))
                            (map fst (sort_desc logits)))))
      (fun kth => Ok (map (fun v => if fltb v kth then NInf else v) logits))
  else Ok logits.

(** Lines 21-29: keep the shortest sorted prefix whose cumulative
    probability exceeds [top_p]. *)
Definition top_p_filter (logits : list fval) (top_p : Q) : outcome (list fval) :=
  if Qltb 0 top_p then
    let sorted := sort_desc logits in
    let cumulative_probs := cumsum (softmax (map fst sorted)) in
    let filter := map (fun c => fgtb c (Fin top_p)) cumulative_probs in
    match filter with
    | [] => Raise IndexError
    | _ :: _ =>
        let filter := false :: removelast filter in
        let indices_to_remove := scatter filter (map snd sorted) filter in
        Ok (mask_neg_inf logits indices_to_remove)
    end
  else Ok logits.

Definition top_k_top_p_filter (logits : list fval) (top_k : nat) (top_p : Q)
  : outcome (list fval) :=
  obind (top_k_filter logits top_k) (fun logits => top_p_filter logits top_p).

(** *** [torch.multinomial(probs, num_samples=1)] *)

Definition weight (a : fval) : Q :=
  match a with
  | Fin q => q
  | _ => 0
  end.

(** torch refuses a probability tensor with an infinity, a [NaN] or a
    negative entry, and one whose sum is not positive. *)
Definition valid_probs (probs : list fval) : bool :=
  forallb (fun a => match a with Fin q => Qle_bool 0 q | _ => false end) probs
  && fgtb (fsum probs) fzero.

Definition multinomial (probs : list fval) : M nat :=
  fun g =>
    if valid_probs probs then
      let (k, g') := draw (map weight probs) g in Ok (k, g')
    else Raise RuntimeError.

(** *** [sample] *)

Definition sample (logits : list fval) (temperature : Q) (top_k : nat) (top_p : Q)
  : M nat :=
  let logits := map (fun v => fdiv v (Fin temperature)) logits in
  logits <- lift (top_k_top_p_filter logits top_k top_p) ;;
  let probs := softmax logits in
  idx_next <- multinomial probs ;;
  if (idx_next =? 0)%nat then throw RuntimeError else ret idx_next.

(** [model(x).logits] as a tensor of floats. *)
Definition logits_of (model : oracle) (x : list nat) : list (list fval) :=
  map (map Fin) (model x).

(** *** [autoregressive_sampling] *)

(** [len(x)] of a tensor of shape (1, L) is its first dimension. *)
Definition len_batch (x : list nat) : nat := 1.

Fixpoint ar_loop (fuel : nat) (model : oracle) (temperature : Q) (top_k : nat)
    (top_p : Q) (n T : nat) (x : list nat) : M (list nat) :=
  if (n <? T)%nat then
    match fuel with
    | O => fun _ => Diverge
    | S fuel' =>
        logits <- lift (of_option IndexError (last_item (logits_of model x))) ;;
        idx_next <- sample logits temperature top_k top_p ;;
        ar_loop fuel' model temperature top_k top_p (n + 1) T (x ++ [idx_next])
    end
  else ret x.

Definition autoregressive_sampling (fuel : nat) (x : list nat) (model : oracle)
    (N : nat) (temperature : Q) (top_k : nat) (top_p : Q) : M (list nat) :=
  let n := len_batch x in
  let T := (len_batch x + N)%nat in
  ar_loop fuel model temperature top_k top_p n T x.

(** *** [max_fn] and [norm_logits] *)

Definition max_fn (x : list fval) : list fval :=
  let x_max := map (fun v => if fgtb v fzero then v else fzero) x in
  let x_max_sum := fsum x_max in
  map (fun v => fdiv v x_max_sum) x_max.

Definition norm_logits (p : list (list fval)) : list (list fval) :=
  map softmax p.

(** [a - b] on two rows; rows of different sizes do not broadcast. *)
Definition row_sub (a b : list fval) : outcome (list fval) :=
  if (length a =? length b)%nat then
    Ok (map (fun ab : fval * fval => fsub (fst ab) (snd ab)) (combine a b))
  else Raise RuntimeError.

(** [t[:, pos, j]] *)
Definition entry (t : list (list fval)) (pos : Z) (j : nat) : outcome fval :=
  obind (of_option IndexError (getitem t pos))
        (fun row => of_option IndexError (getitem row (Z.of_nat j))).

(** *** [speculative_sampling] *)

(** The drafting loop [for _ in range(gamma)]; [q] is the logit tensor of
    the last call of the draft model, unbound before the first one. *)
Fixpoint draft_loop (k : nat) (approx_model : oracle) (temperature : Q)
    (top_k : nat) (top_p : Q) (x : list nat) (q : option (list (list fval)))
  : M (list nat * option (list (list fval))) :=
  match k with
  | O => ret (x, q)
  | S k' =>
      let q := logits_of approx_model x in
      row <- lift (of_option IndexError (last_item q)) ;;
      next_tok <- sample row temperature top_k top_p ;;
      draft_loop k' approx_model temperature top_k top_p (x ++ [next_tok]) (Some q)
  end.

(** The test of line 123: the drafted token is rejected when
    [r > p / q]. *)
Definition rejects (r : Q) (pj qj : fval) : bool := fgtb (Fin r) (fdiv pj qj).

(** The acceptance loop [for i in range(gamma)], from index [i] with [k]
    iterations left; it answers the boundary [n]. *)
Fixpoint accept_loop (k : nat) (i : nat) (gamma : nat) (prefix_len : nat)
    (x : list nat) (p q : list (list fval)) : M Z :=
  match k with
  | O => ret (Z.of_nat prefix_len + Z.of_nat gamma - 1)%Z
  | S k' =>
      fun g =>
        let (r, g') := rand g in
        (j <- lift (of_option IndexError (getitem x (Z.of_nat (prefix_len + i)))) ;;
         pj <- lift (entry p (Z.of_nat prefix_len + Z.of_nat i - 1) j) ;;
         qj <- lift (entry q (Z.of_nat prefix_len + Z.of_nat i - 1) j) ;;
         if rejects r pj qj
         then ret (Z.of_nat prefix_len + Z.of_nat i - 1)%Z
         else accept_loop k' (S i) gamma prefix_len x p q) g'
  end.

(** The token appended after the kept part of the draft. *)
Definition next_token (n : Z) (prefix_len gamma : nat) (p q : list (list fval))
    (temperature : Q) (top_k : nat) (top_p : Q) : M nat :=
  if (n <? Z.of_nat prefix_len + Z.of_nat gamma - 1)%Z then
    pn <- lift (of_option IndexError (getitem p n)) ;;
    qn <- lift (of_option IndexError (getitem q n)) ;;
    d <- lift (row_sub pn qn) ;;
    sample (max_fn d) temperature top_k top_p
  else
    if (n =? Z.of_nat (length p) - 1)%Z then
      row <- lift (of_option IndexError (last_item p)) ;;
      sample row temperature top_k top_p
    else throw AssertionError.

(** One iteration of the [while] loop of [speculative_sampling]. *)
Definition spec_round (approx_model target_model : oracle) (gamma : nat)
    (temperature : Q) (top_k : nat) (top_p : Q) (prefix : list nat)
  : M (list nat) :=
  let prefix_len := length prefix in
  xq <- draft_loop gamma approx_model temperature top_k top_p prefix None ;;
  let x := fst xq in
  match snd xq with
  | None => throw UnboundLocalError
  | Some q =>
      let q := norm_logits q in
      let p := norm_logits (logits_of target_model x) in
      n <- accept_loop gamma 0 gamma prefix_len x p q ;;
      if (n <? Z.of_nat prefix_len - 1)%Z then throw AssertionError
      else
        let prefix := firstn (Z.to_nat (n + 1)) x in
        t <- next_token n prefix_len gamma p q temperature top_k top_p ;;
        ret (prefix ++ [t])
  end.

Fixpoint spec_loop (fuel : nat) (approx_model target_model : oracle)
    (gamma : nat) (temperature : Q) (top_k : nat) (top_p : Q) (T : nat)
    (prefix : list nat) : M (list nat) :=
  if (length prefix <? T)%nat then
    match fuel with
    | O => fun _ => Diverge
    | S fuel' =>
        prefix' <- spec_round approx_model target_model gamma
                     temperature top_k top_p prefix ;;
        spec_loop fuel' approx_model target_model gamma temperature top_k top_p
                  T prefix'
    end
  else ret prefix.

Definition speculative_sampling (fuel : nat) (prefix : list nat)
    (approx_model target_model : oracle) (max_len : nat) (gamma : nat)
    (temperature : Q) (top_k : nat) (top_p : Q) : M (list nat) :=
  let seq_len := length prefix in
  let T := (seq_len + max_len)%nat in
  spec_loop fuel approx_model target_model gamma temperature top_k top_p T prefix.


(** ** Vocabulary of the statements *)

(** The generator state after [k] uniform draws, and the [k]-th draw. *)
Fixpoint rand_state (k : nat) (g : G) : G :=
  match k with
  | O => g
  | S k' => rand_state k' (snd (rand g))
  end.

Definition rand_draw (k : nat) (g : G) : Q := fst (rand (rand_state k g)).

(** The ratio compared with the draw at iteration [i]:
    [p[:, prefix_len + i - 1, j] / q[:, prefix_len + i - 1, j]] for the
    drafted token [j = x[:, prefix_len + i]]. *)
Definition ratio_at (p q : list (list fval)) (x : list nat) (prefix_len i : nat)
  : outcome fval :=
  obind (of_option IndexError (getitem x (Z.of_nat (prefix_len + i))))
    (fun j =>
       obind (entry p (Z.of_nat prefix_len + Z.of_nat i - 1) j)
         (fun pj =>
            obind (entry q (Z.of_nat prefix_len + Z.of_nat i - 1) j)
              (fun qj => Ok (fdiv pj qj)))).

(** The acceptance rule in the words of the algorithm: the token drafted at
    offset [prefix_len + i] is accepted on the draw [r] when
    [r <= target / draft]. *)
Definition accepted (p q : list (list fval)) (x : list nat) (prefix_len i : nat)
    (r : Q) : Prop :=
  exists rho, ratio_at p q x prefix_len i = Ok rho /\ fleb (Fin r) rho = true.

Definition rejected (p q : list (list fval)) (x : list nat) (prefix_len i : nat)
    (r : Q) : Prop :=
  exists rho, ratio_at p q x prefix_len i = Ok rho /\ fleb (Fin r) rho = false.

(** The acceptance rule as line 123 applies it: the token is dropped only
    when [r > target / draft] holds, so it is kept when [r <= target / draft]
    and also when the quotient is NaN, which no comparison satisfies. *)
Definition passes (p q : list (list fval)) (x : list nat) (prefix_len i : nat)
    (r : Q) : Prop :=
  exists rho, ratio_at p q x prefix_len i = Ok rho /\
              (fleb (Fin r) rho = true \/ rho = NaN).

Definition fails (p q : list (list fval)) (x : list nat) (prefix_len i : nat)
    (r : Q) : Prop :=
  exists rho, ratio_at p q x prefix_len i = Ok rho /\
              fleb (Fin r) rho = false /\ rho <> NaN.

(** A probability distribution over the vocabulary. *)
Definition distribution (l : list Q) : Prop :=
  (forall a, In a l -> 0 <= a) /\ Qsum l == 1.

(** [max_fn(p - q)] on two rows, as line 135 computes it. *)
Definition residual (p q : list Q) : outcome (list fval) :=
  obind (row_sub (map Fin p) (map Fin q)) (fun d => Ok (max_fn d)).

(** The same computation on rationals: the positive part of a number and
    the entrywise differences of two rows. *)
Definition clampQ (d : Q) : Q := if Qltb 0 d then d else 0.

Fixpoint diffs (p q : list Q) : list Q :=
  match p, q with
  | a :: p', b :: q' => (a + - b) :: diffs p' q'
  | _, _ => []
  end.

(** The residual in the words of the algorithm: subtract the draft
    probabilities from the target probabilities entry by entry, clamp the
    negative differences to zero, then divide by the sum of what is left. *)
Definition clamp (v : fval) : fval := if fgtb v fzero then v else fzero.

Definition residual_row (target_probs draft_probs : list fval) : list fval :=
  let positive :=
    map (fun pq : fval * fval => clamp (fsub (fst pq) (snd pq)))
        (combine target_probs draft_probs) in
  map (fun v => fdiv v (fsum positive)) positive.

(** A computation that never runs out of fuel. *)
Definition total {A : Type} (m : M A) : Prop := forall g, m g <> Diverge.

(** The generator in the words of its contract: [N] times, ask the oracle
    for the distribution at the final position, sample one token, append
    it. *)
Fixpoint ar_steps (N : nat) (model : oracle) (temperature : Q) (top_k : nat)
    (top_p : Q) (x : list nat) : M (list nat) :=
  match N with
  | O => ret x
  | S N' =>
      logits <- lift (of_option IndexError (last_item (logits_of model x))) ;;
      idx_next <- sample logits temperature top_k top_p ;;
      ar_steps N' model temperature top_k top_p (x ++ [idx_next])
  end.

(** An oracle is causal when the logits of a position depend only on the
    tokens up to that position. *)
Definition causal (model : oracle) : Prop :=
  forall x y k, (k < length x)%nat ->
    nth_error (model (x ++ y)) k = nth_error (model x) k.

(** A row that holds [v] at index [m] and [d] everywhere else. *)
Fixpoint spike {A : Type} (d v : A) (n m : nat) : list A :=
  match n with
  | O => []
  | S n' =>
      match m with
      | O => v :: repeat d n'
      | S m' => d :: spike d v n' m'
      end
  end.

(** The probabilities handed to the weighted draw when [top_k = 1] and the
    greatest logit is attained once, at index [m]. *)
Definition one_hot_weights (logits : list Q) (temperature : Q) (m : nat) (M : Q)
  : list Q :=
  let e := exp (M / temperature) in
  let s := Qsum (spike 0 e (length logits) m) in
  spike (0 / s) (e / s) (length logits) m.

(** [l'] is [l] with some of its entries replaced by minus infinity. *)
Definition masked (l l' : list fval) : Prop :=
  Forall2 (fun a b => b = a \/ b = NInf) l l'.

(** The order in which [sort_desc] leaves its pairs. *)
Definition desc (a b : fval * nat) : Prop := sort_geb (fst a) (fst b) = true.

(** How many entries of a row the threshold [kth] of the top-k step
    leaves alone. *)
Definition survivors (kth : fval) (l : list fval) : nat :=
  length (filter (fun v => negb (fltb v kth)) l).

(** Not a finite number. *)
Definition nonfin (a : fval) : Prop :=
  match a with
  | Fin _ => False
  | _ => True
  end.

(** ** Reasoning about outcomes *)

Lemma bind_ok_inv : forall (A B : Type) (m : M A) (k : A -> M B) g r,
  bind m k g = Ok r ->
  exists a g', m g = Ok (a, g') /\ k a g' = Ok r.
Proof.
  intros A B m k g r H. unfold bind in H.
  destruct (m g) as [[a g']| |]; try discriminate.
  exists a, g'. split; [reflexivity | exact H].
Qed.

Lemma bind_ok : forall (A B : Type) (m : M A) (k : A -> M B) g a g',
  m g = Ok (a, g') -> bind m k g = k a g'.
Proof. intros A B m k g a g' H. unfold bind. rewrite H. reflexivity. Qed.

Lemma bind_raise : forall (A B : Type) (m : M A) (k : A -> M B) g e,
  m g = Raise e -> bind m k g = Raise e.
Proof. intros A B m k g e H. unfold bind. rewrite H. reflexivity. Qed.

Lemma lift_ok_inv : forall (A : Type) (o : outcome A) (g : G) a g',
  lift o g = Ok (a, g') -> o = Ok a /\ g' = g.
Proof.
  intros A o g a g' H. unfold lift in H.
  destruct o; try discriminate. inversion H; subst. split; reflexivity.
Qed.

Lemma lift_some : forall (A : Type) (e : exn) (o : option A) (g : G) a,
  o = Some a -> lift (of_option e o) g = Ok (a, g).
Proof. intros A e o g a ->. reflexivity. Qed.

(** Splits a hypothesis [bind m k g = Ok r] into its two steps. *)
Ltac bind_inv H :=
  let a := fresh "a" in
  let g := fresh "g" in
  let Hm := fresh "Hm" in
  apply bind_ok_inv in H; destruct H as (a & g & Hm & H).

(** ** Properties of the program *)

(** *** The sampler and the reserved token *)

Lemma sample_ok_nonzero : forall logits temperature top_k top_p g t g',
  sample logits temperature top_k top_p g = Ok (t, g') -> t <> 0%nat.
Proof.
  intros logits temperature top_k top_p g t g' H.
  unfold sample in H.
  bind_inv H. bind_inv H.
  destruct (Nat.eqb_spec a0 0) as [E|E].
  - discriminate H.
  - unfold ret in H. inversion H; subst. exact E.
Qed.

Lemma sample_zero_raises : forall logits temperature top_k top_p g filtered g',
  top_k_top_p_filter (map (fun v => fdiv v (Fin temperature)) logits) top_k top_p
    = Ok filtered ->
  multinomial (softmax filtered) g = Ok (0%nat, g') ->
  sample logits temperature top_k top_p g = Raise RuntimeError.
Proof.
  intros logits temperature top_k top_p g filtered g' Hf Hm.
  unfold sample, bind, lift. rewrite Hf, Hm. reflexivity.
Qed.

(** *** Indexing and softmax *)

Lemma getitem_In : forall (A : Type) (l : list A) i a,
  getitem l i = Some a -> In a l.
Proof.
  intros A l i a H. unfold getitem in H.
  destruct (i <? 0)%Z.
  - destruct (i + Z.of_nat (length l) <? 0)%Z; [discriminate|].
    eapply nth_error_In; exact H.
  - eapply nth_error_In; exact H.
Qed.

Lemma getitem_nonneg : forall (A : Type) (l : list A) (i : nat),
  getitem l (Z.of_nat i) = nth_error l i.
Proof.
  intros A l i. unfold getitem.
  destruct (Z.ltb_spec (Z.of_nat i) 0); [lia|].
  rewrite Nat2Z.id. reflexivity.
Qed.

Lemma entry_In : forall t pos j v,
  entry t pos j = Ok v -> exists row, In row t /\ In v row.
Proof.
  intros t pos j v H. unfold entry in H.
  destruct (getitem t pos) as [row|] eqn:Hrow; cbn in H; [|discriminate].
  destruct (getitem row (Z.of_nat j)) as [v'|] eqn:Hv; cbn in H; [|discriminate].
  inversion H; subst. exists row.
  split; eapply getitem_In; eassumption.
Qed.

Lemma fsum_fin : forall l, fsum (map Fin l) = Fin (Qsum l).
Proof.
  induction l as [|a l IH]; [reflexivity|].
  cbn [map fsum fold_right]. fold (fsum (map Fin l)). rewrite IH. reflexivity.
Qed.

Lemma map_fexp_fin : forall l, map fexp (map Fin l) = map Fin (map exp l).
Proof. intros l. rewrite !map_map. reflexivity. Qed.

Lemma Qsum_pos : forall l,
  l <> [] -> (forall a, In a l -> 0 < a) -> 0 < Qsum l.
Proof.
  induction l as [|a l IH]; intros Hne Hpos; [congruence|].
  cbn [Qsum fold_right]. fold (Qsum l).
  assert (Ha : 0 < a) by (apply Hpos; left; reflexivity).
  destruct l as [|b l'].
  - cbn. lra.
  - assert (0 < Qsum (b :: l')).
    { apply IH; [discriminate|]. intros c Hc. apply Hpos. right. exact Hc. }
    lra.
Qed.

Lemma Qeq_bool_pos_false : forall s, 0 < s -> Qeq_bool s 0 = false.
Proof.
  intros s Hs. destruct (Qeq_bool s 0) eqn:E; [|reflexivity].
  apply Qeq_bool_eq in E. lra.
Qed.

(** With a positive exponential, the softmax of a row of finite logits
    is a row of positive finite numbers. *)
Lemma softmax_fin : forall l,
  (forall a, 0 < exp a) -> l <> [] ->
  softmax (map Fin l) = map (fun a => Fin (exp a / Qsum (map exp l))) l.
Proof.
  intros l Hexp Hne. unfold softmax.
  rewrite map_fexp_fin, fsum_fin, !map_map.
  apply map_ext. intros a. cbn [fdiv].
  rewrite Qeq_bool_pos_false; [reflexivity|].
  apply Qsum_pos.
  - destruct l; [congruence | discriminate].
  - intros b Hb. apply in_map_iff in Hb. destruct Hb as (c & <- & _). apply Hexp.
Qed.

Lemma softmax_entry_pos : forall l v,
  (forall a, 0 < exp a) ->
  In v (softmax (map Fin l)) -> exists c, v = Fin c /\ 0 < c.
Proof.
  intros l v Hexp Hin.
  destruct l as [|a0 l'] eqn:El; [contradiction Hin|].
  rewrite <- El in *. rewrite softmax_fin in Hin; [|exact Hexp|subst; discriminate].
  apply in_map_iff in Hin. destruct Hin as (a & <- & _).
  eexists. split; [reflexivity|].
  apply Qlt_shift_div_l.
  - apply Qsum_pos; [subst; discriminate|].
    intros b Hb. apply in_map_iff in Hb. destruct Hb as (c & <- & _). apply Hexp.
  - rewrite Qmult_0_l. apply Hexp.
Qed.

Lemma norm_logits_entry_pos : forall (lp : list (list Q)) pos j v,
  (forall a, 0 < exp a) ->
  entry (norm_logits (map (map Fin) lp)) pos j = Ok v ->
  exists c, v = Fin c /\ 0 < c.
Proof.
  intros lp pos j v Hexp H.
  apply entry_In in H. destruct H as (row & Hrow & Hv).
  unfold norm_logits in Hrow. rewrite map_map in Hrow.
  apply in_map_iff in Hrow. destruct Hrow as (l & <- & _).
  eapply softmax_entry_pos; eassumption.
Qed.

(** The code's test [r > ratio] is the negation of [r <= ratio] unless
    the ratio is [NaN]. *)
Lemma fgtb_fleb : forall r rho,
  rho <> NaN -> fgtb (Fin r) rho = negb (fleb (Fin r) rho).
Proof.
  intros r [y| | |] H; cbn; try reflexivity; congruence.
Qed.

(** *** The acceptance scan *)

Lemma rand_state_S : forall k g,
  rand_state (S k) g = snd (rand (rand_state k g)).
Proof.
  induction k as [|k IH]; intros g; [reflexivity|].
  change (rand_state (S (S k)) g) with (rand_state (S k) (snd (rand g))).
  rewrite IH. reflexivity.
Qed.

Lemma accept_loop_step : forall k i gamma prefix_len x p q g,
  accept_loop (S k) i gamma prefix_len x p q g =
  match ratio_at p q x prefix_len i with
  | Ok rho =>
      if fgtb (Fin (fst (rand g))) rho
      then Ok ((Z.of_nat prefix_len + Z.of_nat i - 1)%Z, snd (rand g))
      else accept_loop k (S i) gamma prefix_len x p q (snd (rand g))
  | Raise e => Raise e
  | Diverge => Diverge
  end.
Proof.
  intros k i gamma prefix_len x p q g.
  cbn [accept_loop]. unfold ratio_at, rejects.
  destruct (rand g) as [r g1]. cbn [fst snd].
  unfold bind, lift, ret.
  destruct (getitem x (Z.of_nat (prefix_len + i))) as [j|]; cbn; [|reflexivity].
  destruct (entry p (Z.of_nat prefix_len + Z.of_nat i - 1) j) as [pj|e|]; cbn;
    try reflexivity.
  destruct (entry q (Z.of_nat prefix_len + Z.of_nat i - 1) j) as [qj|e|]; cbn;
    try reflexivity.
  match goal with |- (if ?b then _ else _) _ = _ => destruct b end; reflexivity.
Qed.

(** What the scan answers, in terms of the code's own test [r > ratio]. *)
Lemma accept_loop_char : forall gamma prefix_len x p q k i g n g',
  accept_loop k i gamma prefix_len x p q g = Ok (n, g') ->
  (exists m, (m < k)%nat /\
     (forall m', (m' < m)%nat -> exists rho,
        ratio_at p q x prefix_len (i + m') = Ok rho /\
        fgtb (Fin (rand_draw m' g)) rho = false) /\
     (exists rho, ratio_at p q x prefix_len (i + m) = Ok rho /\
        fgtb (Fin (rand_draw m g)) rho = true) /\
     n = (Z.of_nat prefix_len + Z.of_nat (i + m) - 1)%Z /\
     g' = rand_state (S m) g)
  \/
  ((forall m', (m' < k)%nat -> exists rho,
        ratio_at p q x prefix_len (i + m') = Ok rho /\
        fgtb (Fin (rand_draw m' g)) rho = false) /\
   n = (Z.of_nat prefix_len + Z.of_nat gamma - 1)%Z /\
   g' = rand_state k g).
Proof.
  intros gamma prefix_len x p q k.
  induction k as [|k IH]; intros i g n g' H.
  - right. cbn in H. unfold ret in H. inversion H; subst.
    split; [intros m' Hm'; lia | split; reflexivity].
  - rewrite accept_loop_step in H.
    destruct (ratio_at p q x prefix_len i) as [rho|e|] eqn:Hrho; try discriminate.
    destruct (fgtb (Fin (fst (rand g))) rho) eqn:Hcmp.
    + left. exists 0%nat. inversion H; subst.
      split; [lia|]. split; [intros m' Hm'; lia|].
      split; [exists rho; rewrite Nat.add_0_r; split; [exact Hrho | exact Hcmp]|].
      split; [rewrite Nat.add_0_r; reflexivity | reflexivity].
    + apply IH in H.
      destruct H as [(m & Hm & Hacc & Hrej & Hn & Hg)|(Hacc & Hn & Hg)].
      * left. exists (S m). split; [lia|].
        split.
        { intros [|m'] Hm'.
          - exists rho. rewrite Nat.add_0_r. split; [exact Hrho | exact Hcmp].
          - destruct (Hacc m') as (rho' & H1 & H2); [lia|].
            exists rho'. rewrite Nat.add_succ_r. split; [exact H1 | exact H2]. }
        split.
        { destruct Hrej as (rho' & H1 & H2). exists rho'.
          rewrite Nat.add_succ_r. split; [exact H1 | exact H2]. }
        split; [rewrite Nat.add_succ_r; exact Hn | exact Hg].
      * right. split.
        { intros [|m'] Hm'.
          - exists rho. rewrite Nat.add_0_r. split; [exact Hrho | exact Hcmp].
          - destruct (Hacc m') as (rho' & H1 & H2); [lia|].
            exists rho'. rewrite Nat.add_succ_r. split; [exact H1 | exact H2]. }
        split; [exact Hn | exact Hg].
Qed.

(** The boundary lies between [prefix_len - 1] and [prefix_len + gamma - 1]. *)
Lemma accept_loop_bounds : forall gamma prefix_len x p q k i g n g',
  (i + k = gamma)%nat ->
  accept_loop k i gamma prefix_len x p q g = Ok (n, g') ->
  (Z.of_nat prefix_len + Z.of_nat i - 1 <= n <= Z.of_nat prefix_len + Z.of_nat gamma - 1)%Z.
Proof.
  intros gamma prefix_len x p q k i g n g' Hik H.
  apply accept_loop_char in H.
  destruct H as [(m & Hm & _ & _ & Hn & _)|(_ & Hn & _)]; lia.
Qed.

(** *** One round, step by step *)

Lemma draft_loop_inv : forall approx_model temperature top_k top_p k x q0 g x' q' g',
  draft_loop k approx_model temperature top_k top_p x q0 g = Ok ((x', q'), g') ->
  exists toks,
    x' = x ++ toks /\ length toks = k /\ Forall (fun t => t <> 0%nat) toks /\
    (k = 0%nat -> q' = q0) /\
    ((0 < k)%nat -> q' = Some (logits_of approx_model (removelast x'))).
Proof.
  intros approx_model temperature top_k top_p k.
  induction k as [|k IH]; intros x q0 g x' q' g' H.
  - cbn in H. unfold ret in H. inversion H; subst.
    exists []. rewrite app_nil_r.
    repeat split; try reflexivity; [constructor | lia].
  - cbn [draft_loop] in H.
    bind_inv H. bind_inv H.
    pose proof (sample_ok_nonzero _ _ _ _ _ _ _ Hm0) as Hnz.
    apply IH in H. destruct H as (toks & Hx & Hlen & Hall & Hq0 & Hq).
    exists (a0 :: toks). rewrite <- app_assoc in Hx. cbn in Hx.
    split; [exact Hx|]. split; [cbn; lia|].
    split; [constructor; assumption|].
    split; [lia|]. intros _.
    destruct k as [|k'].
    + destruct toks; [|discriminate]. rewrite Hq0 by reflexivity.
      subst x'. rewrite removelast_last. reflexivity.
    + apply Hq. lia.
Qed.

Lemma spec_round_inv : forall approx_model target_model gamma temperature top_k
    top_p prefix g out g3,
  spec_round approx_model target_model gamma temperature top_k top_p prefix g
    = Ok (out, g3) ->
  exists x lq g1 n g2 t,
    draft_loop gamma approx_model temperature top_k top_p prefix None g
      = Ok ((x, Some lq), g1) /\
    accept_loop gamma 0 gamma (length prefix) x
      (norm_logits (logits_of target_model x)) (norm_logits lq) g1 = Ok (n, g2) /\
    next_token n (length prefix) gamma
      (norm_logits (logits_of target_model x)) (norm_logits lq)
      temperature top_k top_p g2 = Ok (t, g3) /\
    out = firstn (Z.to_nat (n + 1)) x ++ [t].
Proof.
  intros approx_model target_model gamma temperature top_k top_p prefix g out g3 H.
  unfold spec_round in H.
  bind_inv H. destruct a as [x [lq|]]; cbn [fst snd] in H; [|discriminate].
  bind_inv H.
  destruct (a <? Z.of_nat (length prefix) - 1)%Z; [discriminate|].
  bind_inv H. unfold ret in H. inversion H; subst.
  exists x, lq, g0, a, g1, a0.
  repeat split; assumption.
Qed.

(** Conversely, a round whose three steps succeed answers their result. *)
Lemma spec_round_steps : forall approx_model target_model gamma temperature top_k
    top_p prefix g x lq g1 n g2,
  draft_loop gamma approx_model temperature top_k top_p prefix None g
    = Ok ((x, Some lq), g1) ->
  accept_loop gamma 0 gamma (length prefix) x
    (norm_logits (logits_of target_model x)) (norm_logits lq) g1 = Ok (n, g2) ->
  spec_round approx_model target_model gamma temperature top_k top_p prefix g =
  match next_token n (length prefix) gamma
          (norm_logits (logits_of target_model x)) (norm_logits lq)
          temperature top_k top_p g2 with
  | Ok (t, g3) => Ok (firstn (Z.to_nat (n + 1)) x ++ [t], g3)
  | Raise e => Raise e
  | Diverge => Diverge
  end.
Proof.
  intros approx_model target_model gamma temperature top_k top_p prefix g
    x lq g1 n g2 Hd Ha.
  pose proof (accept_loop_bounds _ _ _ _ _ _ _ _ _ _ (Nat.add_0_l gamma) Ha) as Hb.
  unfold spec_round, bind. rewrite Hd. cbn [fst snd]. rewrite Ha.
  destruct (Z.ltb_spec n (Z.of_nat (length prefix) - 1)); [lia|].
  unfold ret.
  destruct (next_token _ _ _ _ _ _ _ _ g2) as [[t g3]| |]; reflexivity.
Qed.

Lemma ratio_at_not_nan : forall (lp lq : list (list Q)) x prefix_len i rho,
  (forall a, 0 < exp a) ->
  ratio_at (norm_logits (map (map Fin) lp)) (norm_logits (map (map Fin) lq))
           x prefix_len i = Ok rho ->
  rho <> NaN.
Proof.
  intros lp lq x prefix_len i rho Hexp H. unfold ratio_at in H.
  destruct (getitem x (Z.of_nat (prefix_len + i))) as [j|]; cbn in H; [|discriminate].
  destruct (entry (norm_logits (map (map Fin) lp)) _ j) as [pj| |] eqn:Hp;
    cbn in H; try discriminate.
  destruct (entry (norm_logits (map (map Fin) lq)) _ j) as [qj| |] eqn:Hq;
    cbn in H; try discriminate.
  apply norm_logits_entry_pos in Hp; [|exact Hexp].
  apply norm_logits_entry_pos in Hq; [|exact Hexp].
  destruct Hp as (a & -> & Ha). destruct Hq as (b & -> & Hb).
  inversion H; subst. cbn [fdiv].
  rewrite Qeq_bool_pos_false by exact Hb. discriminate.
Qed.

(** X19. With a positive exponential no probability is zero and no
    quotient is NaN: in every verification round the scan then accepts the
    token drafted at offset prefix_len + i iff the i-th uniform draw is at
    most target_prob / draft_prob at position prefix_len + i - 1, stops at
    the first rejection with n = prefix_len + i - 1, answers
    n = prefix_len + gamma - 1 when nothing is rejected, and keeps the first
    n + 1 tokens of the extended sequence. *)
Theorem acceptance_with_positive_exponential :
  (forall a, 0 < exp a) ->
  forall approx_model target_model gamma temperature top_k top_p prefix g out g3,
  spec_round approx_model target_model gamma temperature top_k top_p prefix g
    = Ok (out, g3) ->
  exists x lq g1 n g2 t,
    draft_loop gamma approx_model temperature top_k top_p prefix None g
      = Ok ((x, Some lq), g1) /\
    length x = (length prefix + gamma)%nat /\
    ((exists i, (i < gamma)%nat /\
        (forall k, (k < i)%nat ->
           accepted (norm_logits (logits_of target_model x)) (norm_logits lq)
                    x (length prefix) k (rand_draw k g1)) /\
        rejected (norm_logits (logits_of target_model x)) (norm_logits lq)
                 x (length prefix) i (rand_draw i g1) /\
        n = (Z.of_nat (length prefix) + Z.of_nat i - 1)%Z /\
        g2 = rand_state (S i) g1)
     \/
     ((forall k, (k < gamma)%nat ->
           accepted (norm_logits (logits_of target_model x)) (norm_logits lq)
                    x (length prefix) k (rand_draw k g1)) /\
      n = (Z.of_nat (length prefix) + Z.of_nat gamma - 1)%Z /\
      g2 = rand_state gamma g1)) /\
    out = firstn (Z.to_nat (n + 1)) x ++ [t] /\
    Z.of_nat (length (firstn (Z.to_nat (n + 1)) x)) = (n + 1)%Z.
Proof.
  intros Hexp approx_model target_model gamma temperature top_k top_p prefix g
    out g3 H.
  apply spec_round_inv in H.
  destruct H as (x & lq & g1 & n & g2 & t & Hd & Ha & Ht & Hout).
  exists x, lq, g1, n, g2, t.
  pose proof (draft_loop_inv _ _ _ _ _ _ _ _ _ _ _ Hd)
    as (toks & Hx & Hlen & _ & Hq0 & Hq).
  assert (Hg : (0 < gamma)%nat).
  { destruct gamma; [|lia]. specialize (Hq0 eq_refl). discriminate. }
  specialize (Hq Hg). injection Hq as Hlq. clear Hq0.
  assert (Hxlen : length x = (length prefix + gamma)%nat).
  { rewrite Hx, length_app. lia. }
  pose proof (accept_loop_bounds _ _ _ _ _ _ _ _ _ _ (Nat.add_0_l gamma) Ha) as Hb.
  split; [exact Hd|]. split; [exact Hxlen|].
  split; [|split; [exact Hout|]].
  - assert (Hconv : forall k r rho,
      ratio_at (norm_logits (logits_of target_model x)) (norm_logits lq)
               x (length prefix) k = Ok rho ->
      fgtb (Fin r) rho = negb (fleb (Fin r) rho)).
    { intros k r rho Hr. apply fgtb_fleb.
      rewrite Hlq in Hr. unfold logits_of in Hr.
      eapply ratio_at_not_nan; [exact Hexp | exact Hr]. }
    apply accept_loop_char in Ha.
    destruct Ha as [(m & Hm & Hacc & (rho & Hr & Hc) & Hn & Hg2)|(Hacc & Hn & Hg2)].
    + left. exists m. split; [exact Hm|].
      split.
      { intros k Hk. destruct (Hacc k Hk) as (rho' & Hr' & Hc').
        exists rho'. split; [exact Hr'|].
        rewrite (Hconv _ _ _ Hr') in Hc'.
        destruct (fleb (Fin (rand_draw k g1)) rho'); [reflexivity|discriminate]. }
      split.
      { exists rho. split; [exact Hr|].
        rewrite (Hconv _ _ _ Hr) in Hc.
        destruct (fleb (Fin (rand_draw m g1)) rho); [discriminate|reflexivity]. }
      split; [rewrite Hn; f_equal | exact Hg2].
    + right. split.
      { intros k Hk. destruct (Hacc k Hk) as (rho' & Hr' & Hc').
        exists rho'. split; [exact Hr'|].
        rewrite (Hconv _ _ _ Hr') in Hc'.
        destruct (fleb (Fin (rand_draw k g1)) rho'); [reflexivity|discriminate]. }
      split; [exact Hn | exact Hg2].
  - rewrite length_firstn, Hxlen. lia.
Qed.

Lemma fgtb_false_cases : forall r rho,
  fgtb (Fin r) rho = false -> fleb (Fin r) rho = true \/ rho = NaN.
Proof.
  intros r [y| | |] H; cbn in *; try discriminate.
  - left. unfold Qltb in H. apply negb_false_iff in H. exact H.
  - left. reflexivity.
  - right. reflexivity.
Qed.

Lemma fgtb_true_cases : forall r rho,
  fgtb (Fin r) rho = true -> fleb (Fin r) rho = false /\ rho <> NaN.
Proof.
  intros r [y| | |] H; cbn in *; try discriminate.
  - split; [|discriminate]. unfold Qltb in H. apply negb_true_iff in H. exact H.
  - split; [reflexivity | discriminate].
Qed.

(** C1, amended. In every verification round the scan visits
    i = 0, 1, ... in order, keeps the token drafted at offset prefix_len + i
    iff the i-th uniform draw is at most target_prob / draft_prob at
    position prefix_len + i - 1 or that quotient is NaN (the test of the
    code is r > quotient, false on NaN), stops at the first token it does
    not keep with n = prefix_len + i - 1, answers n = prefix_len + gamma - 1
    when it keeps them all, and keeps the first n + 1 tokens of the extended
    sequence. *)
Theorem verification_boundary :
  forall approx_model target_model gamma temperature top_k top_p prefix g out g3,
  spec_round approx_model target_model gamma temperature top_k top_p prefix g
    = Ok (out, g3) ->
  exists x lq g1 n g2 t,
    draft_loop gamma approx_model temperature top_k top_p prefix None g
      = Ok ((x, Some lq), g1) /\
    length x = (length prefix + gamma)%nat /\
    ((exists i, (i < gamma)%nat /\
        (forall k, (k < i)%nat ->
           passes (norm_logits (logits_of target_model x)) (norm_logits lq)
                  x (length prefix) k (rand_draw k g1)) /\
        fails (norm_logits (logits_of target_model x)) (norm_logits lq)
              x (length prefix) i (rand_draw i g1) /\
        n = (Z.of_nat (length prefix) + Z.of_nat i - 1)%Z /\
        g2 = rand_state (S i) g1)
     \/
     ((forall k, (k < gamma)%nat ->
           passes (norm_logits (logits_of target_model x)) (norm_logits lq)
                  x (length prefix) k (rand_draw k g1)) /\
      n = (Z.of_nat (length prefix) + Z.of_nat gamma - 1)%Z /\
      g2 = rand_state gamma g1)) /\
    out = firstn (Z.to_nat (n + 1)) x ++ [t] /\
    Z.of_nat (length (firstn (Z.to_nat (n + 1)) x)) = (n + 1)%Z.
Proof.
  intros approx_model target_model gamma temperature top_k top_p prefix g out g3 H.
  apply spec_round_inv in H.
  destruct H as (x & lq & g1 & n & g2 & t & Hd & Ha & Ht & Hout).
  exists x, lq, g1, n, g2, t.
  pose proof (draft_loop_inv _ _ _ _ _ _ _ _ _ _ _ Hd) as (toks & Hx & Hlen & _).
  assert (Hxlen : length x = (length prefix + gamma)%nat).
  { rewrite Hx, length_app. lia. }
  pose proof (accept_loop_bounds _ _ _ _ _ _ _ _ _ _ (Nat.add_0_l gamma) Ha) as Hb.
  split; [exact Hd|]. split; [exact Hxlen|].
  split; [|split; [exact Hout|]].
  - apply accept_loop_char in Ha.
    destruct Ha as [(m & Hm & Hacc & (rho & Hr & Hc) & Hn & Hg2)|(Hacc & Hn & Hg2)].
    + left. exists m. split; [exact Hm|].
      split.
      { intros k Hk. destruct (Hacc k Hk) as (rho' & Hr' & Hc').
        exists rho'. split; [exact Hr' | apply fgtb_false_cases; exact Hc']. }
      split.
      { exists rho. split; [exact Hr | apply fgtb_true_cases; exact Hc]. }
      split; [exact Hn | exact Hg2].
    + right. split.
      { intros k Hk. destruct (Hacc k Hk) as (rho' & Hr' & Hc').
        exists rho'. split; [exact Hr' | apply fgtb_false_cases; exact Hc']. }
      split; [exact Hn | exact Hg2].
  - rewrite length_firstn, Hxlen. lia.
Qed.

(** *** A draft probability of zero *)

Lemma fgtb_div_zero : forall r a b,
  0 <= a -> b == 0 -> fgtb (Fin r) (fdiv (Fin a) (Fin b)) = false.
Proof.
  intros r a b Ha Hb. cbn [fdiv].
  assert (E : Qeq_bool b 0 = true) by (apply Qeq_bool_iff; exact Hb).
  rewrite E.
  destruct (Qeq_bool a 0) eqn:E0; [reflexivity|].
  destruct (Qltb 0 a) eqn:E1; [reflexivity|].
  unfold Qltb in E1. apply negb_false_iff in E1. apply Qle_bool_iff in E1.
  assert (Ea : a == 0) by lra.
  apply Qeq_bool_iff in Ea. congruence.
Qed.

(** C4, amended. When the draft probability of the drafted token is zero at
    its comparison position the test raises nothing, the quotient being an
    infinity or NaN, and [r > quotient] is false: the token is accepted and
    the scan moves on to the next one. *)
Theorem zero_draft_probability_accepts :
  forall gamma prefix_len x p q k i g j a b,
  getitem x (Z.of_nat (prefix_len + i)) = Some j ->
  entry p (Z.of_nat prefix_len + Z.of_nat i - 1) j = Ok (Fin a) ->
  0 <= a ->
  entry q (Z.of_nat prefix_len + Z.of_nat i - 1) j = Ok (Fin b) ->
  b == 0 ->
  rejects (fst (rand g)) (Fin a) (Fin b) = false /\
  accept_loop (S k) i gamma prefix_len x p q g =
  accept_loop k (S i) gamma prefix_len x p q (snd (rand g)).
Proof.
  intros gamma prefix_len x p q k i g j a b Hj Hp Ha Hq Hb.
  assert (Hrej : fgtb (Fin (fst (rand g))) (fdiv (Fin a) (Fin b)) = false)
    by (apply fgtb_div_zero; assumption).
  split; [exact Hrej|].
  rewrite accept_loop_step. unfold ratio_at.
  rewrite Hj. cbn [of_option obind]. rewrite Hp. cbn [obind].
  rewrite Hq. cbn [obind]. rewrite Hrej. reflexivity.
Qed.

(** *** The residual distribution *)

Lemma row_sub_fin : forall p q,
  length p = length q ->
  row_sub (map Fin p) (map Fin q) = Ok (map Fin (diffs p q)).
Proof.
  intros p q Hlen. unfold row_sub. rewrite !length_map, Hlen, Nat.eqb_refl.
  f_equal. revert q Hlen.
  induction p as [|a p IH]; intros [|b q] Hlen; try discriminate; [reflexivity|].
  cbn. f_equal. apply IH. cbn in Hlen. lia.
Qed.

Lemma clampQ_nonneg : forall d, 0 <= clampQ d.
Proof.
  intros d. unfold clampQ, Qltb.
  destruct (Qle_bool d 0) eqn:E; cbn; [lra|].
  assert (~ d <= 0) by (intros C; apply Qle_bool_iff in C; congruence). lra.
Qed.

Lemma Qsum_nonneg : forall l, (forall a, In a l -> 0 <= a) -> 0 <= Qsum l.
Proof.
  induction l as [|a l IH]; intros H; cbn; [lra|]. fold (Qsum l).
  assert (0 <= a) by (apply H; left; reflexivity).
  assert (0 <= Qsum l) by (apply IH; intros b Hb; apply H; right; exact Hb).
  lra.
Qed.

Lemma Qsum_clamp_nonneg : forall ds, 0 <= Qsum (map clampQ ds).
Proof.
  intros ds. apply Qsum_nonneg. intros a Ha.
  apply in_map_iff in Ha. destruct Ha as (d & <- & _). apply clampQ_nonneg.
Qed.

Lemma Qsum_diffs : forall p q,
  length p = length q -> Qsum (diffs p q) == Qsum p - Qsum q.
Proof.
  induction p as [|a p IH]; intros [|b q] Hlen; try discriminate; cbn; [lra|].
  fold (Qsum (diffs p q)) (Qsum p) (Qsum q).
  rewrite IH by (cbn in Hlen; lia). lra.
Qed.

Lemma clampQ_ge : forall d, d <= clampQ d.
Proof.
  intros d. unfold clampQ, Qltb.
  destruct (Qle_bool d 0) eqn:E; cbn; [|lra].
  apply Qle_bool_iff in E. exact E.
Qed.

Lemma Qsum_le_clamp : forall ds, Qsum ds <= Qsum (map clampQ ds).
Proof.
  induction ds as [|d ds IH]; cbn; [lra|].
  fold (Qsum ds) (Qsum (map clampQ ds)).
  pose proof (clampQ_ge d). lra.
Qed.

(** Differences that sum to zero and are not all zero have a positive
    part. *)
Lemma diffs_clamp_pos : forall p q,
  length p = length q ->
  Qsum (diffs p q) == 0 ->
  ~ Forall2 Qeq p q ->
  0 < Qsum (map clampQ (diffs p q)).
Proof.
  intros p q Hlen Hsum Hne.
  destruct (Qlt_le_dec 0 (Qsum (map clampQ (diffs p q)))) as [Hpos|Hle];
    [exact Hpos|].
  exfalso. apply Hne. clear Hne.
  revert q Hlen Hsum Hle.
  induction p as [|a p IH]; intros [|b q] Hlen Hsum Hle; try discriminate;
    [constructor|].
  cbn in Hsum, Hle. fold (Qsum (diffs p q)) in Hsum.
  fold (Qsum (map clampQ (diffs p q))) in Hle.
  pose proof (clampQ_nonneg (a + - b)) as H1.
  pose proof (Qsum_clamp_nonneg (diffs p q)) as H2.
  assert (Hc : clampQ (a + - b) == 0) by lra.
  assert (Hs : Qsum (map clampQ (diffs p q)) <= 0) by lra.
  assert (Hab : a + - b <= 0).
  { unfold clampQ, Qltb in Hc. destruct (Qle_bool (a + - b) 0) eqn:E; cbn in Hc.
    - apply Qle_bool_iff in E. exact E.
    - lra. }
  pose proof (Qsum_le_clamp (diffs p q)) as Hrest.
  constructor.
  - lra.
  - apply IH; [cbn in Hlen; lia | lra | exact Hs].
Qed.

Lemma Qsum_scale : forall l k, Qsum (map (fun c => c / k) l) == Qsum l / k.
Proof.
  induction l as [|a l IH]; intros k; cbn.
  - unfold Qdiv. ring.
  - fold (Qsum (map (fun c => c / k) l)) (Qsum l). rewrite IH.
    unfold Qdiv. ring.
Qed.

Lemma max_fn_fin : forall ds,
  0 < Qsum (map clampQ ds) ->
  max_fn (map Fin ds) =
  map Fin (map (fun d => clampQ d / Qsum (map clampQ ds)) ds).
Proof.
  intros ds Hpos. unfold max_fn.
  assert (E : map (fun v => if fgtb v fzero then v else fzero) (map Fin ds)
              = map Fin (map clampQ ds)).
  { rewrite !map_map. apply map_ext. intros d. cbn. unfold clampQ.
    destruct (Qltb 0 d); reflexivity. }
  rewrite E, fsum_fin, !map_map. apply map_ext. intros d. cbn [fdiv].
  rewrite Qeq_bool_pos_false by exact Hpos. reflexivity.
Qed.

(** C5, amended. For two distributions over the same vocabulary that are
    not equal, the residual [max_fn(p - q)] is a row of finite numbers, none
    negative, that sum to 1. *)
Theorem residual_distribution :
  forall p q,
  distribution p -> distribution q -> length p = length q ->
  ~ Forall2 Qeq p q ->
  exists res,
    residual p q = Ok (map Fin res) /\ distribution res.
Proof.
  intros p q [Hp Hsp] [Hq Hsq] Hlen Hne.
  assert (Hpos : 0 < Qsum (map clampQ (diffs p q))).
  { apply diffs_clamp_pos; [exact Hlen | | exact Hne].
    rewrite Qsum_diffs by exact Hlen. lra. }
  exists (map (fun d => clampQ d / Qsum (map clampQ (diffs p q))) (diffs p q)).
  split.
  - unfold residual. rewrite row_sub_fin by exact Hlen. cbn [obind].
    rewrite max_fn_fin by exact Hpos. reflexivity.
  - split.
    + intros a Ha. apply in_map_iff in Ha. destruct Ha as (d & <- & _).
      apply Qle_shift_div_l; [exact Hpos|].
      rewrite Qmult_0_l. apply clampQ_nonneg.
    + rewrite <- (map_map clampQ (fun c => c / Qsum (map clampQ (diffs p q)))).
      rewrite Qsum_scale. field. lra.
Qed.

(** *** The token appended by a round *)

Lemma getitem_map : forall (A B : Type) (f : A -> B) (l : list A) i,
  getitem (map f l) i = option_map f (getitem l i).
Proof.
  intros A B f l i. unfold getitem. rewrite length_map.
  destruct (i <? 0)%Z.
  - destruct (i + Z.of_nat (length l) <? 0)%Z; [reflexivity | apply nth_error_map].
  - apply nth_error_map.
Qed.

(** A row of the normalised tensor is the softmax of the row the oracle
    answered at that position. *)
Lemma getitem_norm_logits : forall model x n,
  getitem (norm_logits (logits_of model x)) n =
  option_map (fun row => softmax (map Fin row)) (getitem (model x) n).
Proof.
  intros model x n. unfold norm_logits, logits_of.
  rewrite map_map. apply getitem_map.
Qed.

Lemma max_fn_row_sub : forall pn qn,
  max_fn (map (fun ab : fval * fval => fsub (fst ab) (snd ab)) (combine pn qn))
  = residual_row pn qn.
Proof.
  intros pn qn. unfold max_fn, residual_row, clamp. rewrite !map_map. reflexivity.
Qed.

(** C2, amended. In a round that rejects a drafted token
    (n < prefix_len + gamma - 1) the row handed to [sample], with the
    round's temperature, top_k and top_p, is the residual at position n:
    the softmax of the target logits at n minus the softmax of the draft
    logits at n (those of the draft oracle on the drafted sequence without
    its last token), entry by entry, negatives clamped to zero,
    renormalised; in a round that accepts all gamma drafted tokens it is the
    softmax of the target logits at the last position.  The appended token
    is what [sample] answers on that row taken as logits. *)
Theorem appended_token :
  forall approx_model target_model gamma temperature top_k top_p prefix g out g3,
  spec_round approx_model target_model gamma temperature top_k top_p prefix g
    = Ok (out, g3) ->
  exists x g1 n g2 t,
    draft_loop gamma approx_model temperature top_k top_p prefix None g
      = Ok ((x, Some (logits_of approx_model (removelast x))), g1) /\
    accept_loop gamma 0 gamma (length prefix) x
      (norm_logits (logits_of target_model x))
      (norm_logits (logits_of approx_model (removelast x))) g1 = Ok (n, g2) /\
    out = firstn (Z.to_nat (n + 1)) x ++ [t] /\
    (((n < Z.of_nat (length prefix) + Z.of_nat gamma - 1)%Z /\
      exists target_logits draft_logits,
        getitem (target_model x) n = Some target_logits /\
        getitem (approx_model (removelast x)) n = Some draft_logits /\
        length target_logits = length draft_logits /\
        sample (residual_row (softmax (map Fin target_logits))
                             (softmax (map Fin draft_logits)))
               temperature top_k top_p g2 = Ok (t, g3))
     \/
     (n = (Z.of_nat (length prefix) + Z.of_nat gamma - 1)%Z /\
      length (target_model x) = length x /\
      exists target_logits,
        last_item (target_model x) = Some target_logits /\
        sample (softmax (map Fin target_logits)) temperature top_k top_p g2
          = Ok (t, g3))).
Proof.
  intros approx_model target_model gamma temperature top_k top_p prefix g out g3 H.
  apply spec_round_inv in H.
  destruct H as (x & lq & g1 & n & g2 & t & Hd & Ha & Ht & Hout).
  pose proof (draft_loop_inv _ _ _ _ _ _ _ _ _ _ _ Hd)
    as (toks & Hx & Hlen & _ & Hq0 & Hq).
  assert (Hg : (0 < gamma)%nat).
  { destruct gamma; [|lia]. specialize (Hq0 eq_refl). discriminate. }
  specialize (Hq Hg). injection Hq as Hlq. clear Hq0. subst lq.
  assert (Hxlen : length x = (length prefix + gamma)%nat).
  { rewrite Hx, length_app. lia. }
  exists x, g1, n, g2, t.
  split; [exact Hd|]. split; [exact Ha|]. split; [exact Hout|].
  pose proof (accept_loop_bounds _ _ _ _ _ _ _ _ _ _ (Nat.add_0_l gamma) Ha) as Hb.
  unfold next_token in Ht.
  destruct (Z.ltb_spec n (Z.of_nat (length prefix) + Z.of_nat gamma - 1)) as [Hlt|Hge].
  - left. split; [exact Hlt|].
    unfold bind, lift in Ht. rewrite !getitem_norm_logits in Ht.
    destruct (getitem (target_model x) n) as [lp|]; cbn in Ht; [|discriminate].
    destruct (getitem (approx_model (removelast x)) n) as [lqr|]; cbn in Ht;
      [|discriminate].
    unfold row_sub in Ht.
    destruct (Nat.eqb_spec (length (softmax (map Fin lp)))
                           (length (softmax (map Fin lqr)))) as [El|El];
      [|discriminate].
    rewrite max_fn_row_sub in Ht.
    exists lp, lqr. split; [reflexivity|]. split; [reflexivity|].
    split; [|exact Ht].
    unfold softmax in El. rewrite !length_map in El. exact El.
  - right. split; [lia|].
    destruct (Z.eqb_spec n (Z.of_nat (length (norm_logits (logits_of target_model x))) - 1))
      as [En|En]; [|discriminate].
    split.
    { unfold norm_logits, logits_of in En. rewrite !length_map in En. lia. }
    unfold bind, lift, last_item in Ht. rewrite getitem_norm_logits in Ht.
    fold (last_item (target_model x)) in Ht.
    destruct (last_item (target_model x)) as [lp|]; cbn in Ht; [|discriminate].
    exists lp. split; [reflexivity | exact Ht].
Qed.

(** *** Termination and progress *)

Lemma total_ret : forall (A : Type) (a : A), total (ret a).
Proof. intros A a g. unfold ret. discriminate. Qed.

Lemma total_throw : forall (A : Type) (e : exn), total (@throw A e).
Proof. intros A e g. unfold throw. discriminate. Qed.

Lemma total_lift : forall (A : Type) (o : outcome A),
  o <> Diverge -> total (lift o).
Proof. intros A o H g. unfold lift. destruct o; [discriminate.. | congruence]. Qed.

Lemma total_bind : forall (A B : Type) (m : M A) (k : A -> M B),
  total m -> (forall a, total (k a)) -> total (bind m k).
Proof.
  intros A B m k Hm Hk g. unfold bind.
  specialize (Hm g). destruct (m g) as [[a g']| |]; [apply Hk | discriminate | congruence].
Qed.

Lemma of_option_total : forall (A : Type) (e : exn) (o : option A),
  of_option e o <> Diverge.
Proof. intros A e [a|]; discriminate. Qed.

Lemma obind_total : forall (A B : Type) (o : outcome A) (k : A -> outcome B),
  o <> Diverge -> (forall a, k a <> Diverge) -> obind o k <> Diverge.
Proof. intros A B [a| e|] k Ho Hk; cbn; [apply Hk | discriminate | congruence]. Qed.

Lemma filter_total : forall logits top_k top_p,
  top_k_top_p_filter logits top_k top_p <> Diverge.
Proof.
  intros logits top_k top_p. unfold top_k_top_p_filter, top_k_filter, top_p_filter.
  apply obind_total.
  - destruct (0 <? top_k)%nat; [|discriminate].
    apply obind_total; [apply of_option_total | discriminate].
  - intros l. destruct (Qltb 0 top_p); [|discriminate].
    destruct (map _ _); discriminate.
Qed.



Lemma multinomial_total : forall probs, total (multinomial probs).
Proof.
  intros probs g. unfold multinomial.
  destruct (valid_probs probs); [|discriminate].
  destruct (draw _ g). discriminate.
Qed.

Lemma sample_total : forall logits temperature top_k top_p,
  total (sample logits temperature top_k top_p).
Proof.
  intros logits temperature top_k top_p. unfold sample.
  apply total_bind; [apply total_lift, filter_total|]. intros l.
  apply total_bind; [apply multinomial_total|]. intros idx.
  destruct (idx =? 0)%nat; [apply total_throw | apply total_ret].
Qed.





(** A round adds at least one token and at most [gamma + 1]. *)
Lemma spec_round_length : forall approx_model target_model gamma temperature top_k
    top_p prefix g out g',
  spec_round approx_model target_model gamma temperature top_k top_p prefix g
    = Ok (out, g') ->
  (length prefix + 1 <= length out <= length prefix + gamma + 1)%nat.
Proof.
  intros approx_model target_model gamma temperature top_k top_p prefix g out g' H.
  apply spec_round_inv in H.
  destruct H as (x & lq & g1 & n & g2 & t & Hd & Ha & Ht & Hout).
  pose proof (draft_loop_inv _ _ _ _ _ _ _ _ _ _ _ Hd)
    as (toks & Hx & Hlen & _).
  pose proof (accept_loop_bounds _ _ _ _ _ _ _ _ _ _ (Nat.add_0_l gamma) Ha) as Hb.
  assert (Hxlen : length x = (length prefix + gamma)%nat).
  { rewrite Hx, length_app. lia. }
  rewrite Hout, length_app, length_firstn, Hxlen. cbn [length]. lia.
Qed.




Lemma spec_loop_length : forall approx_model target_model gamma temperature top_k
    top_p T fuel prefix g out g',
  spec_loop fuel approx_model target_model gamma temperature top_k top_p T prefix g
    = Ok (out, g') ->
  (T <= length out)%nat /\ (length out <= Nat.max (length prefix) (T + gamma))%nat.
Proof.
  intros approx_model target_model gamma temperature top_k top_p T fuel.
  induction fuel as [|fuel IH]; intros prefix g out g' H.
  - simpl in H. destruct (Nat.ltb_spec (length prefix) T); [discriminate|].
    unfold ret in H. inversion H; subst. lia.
  - simpl in H. destruct (Nat.ltb_spec (length prefix) T).
    + bind_inv H. apply spec_round_length in Hm. apply IH in H. lia.
    + unfold ret in H. inversion H; subst. lia.
Qed.

(** C10. A completed run of [speculative_sampling] returns at least
    prefix_len + max_len tokens and at most prefix_len + max_len + gamma:
    never fewer than asked for, and up to gamma more. *)
Theorem returned_length :
  forall fuel prefix approx_model target_model max_len gamma temperature top_k
    top_p g out g',
  speculative_sampling fuel prefix approx_model target_model max_len gamma
    temperature top_k top_p g = Ok (out, g') ->
  (length prefix + max_len <= length out <= length prefix + max_len + gamma)%nat.
Proof.
  intros fuel prefix approx_model target_model max_len gamma temperature top_k
    top_p g out g' H.
  unfold speculative_sampling in H. apply spec_loop_length in H. lia.
Qed.

(** *** The autoregressive generator *)

Lemma ar_loop_steps : forall model temperature top_k top_p N fuel n x g,
  (N <= fuel)%nat ->
  ar_loop fuel model temperature top_k top_p n (n + N) x g =
  ar_steps N model temperature top_k top_p x g.
Proof.
  intros model temperature top_k top_p N.
  induction N as [|N IH]; intros fuel n x g Hfuel.
  - rewrite Nat.add_0_r. destruct fuel; simpl; rewrite Nat.ltb_irrefl; reflexivity.
  - destruct fuel as [|fuel]; [lia|]. simpl.
    destruct (Nat.ltb_spec n (n + S N)); [|lia].
    unfold bind.
    destruct (lift (of_option IndexError (last_item (logits_of model x))) g)
      as [[logits g1]| |]; try reflexivity.
    destruct (sample logits temperature top_k top_p g1) as [[tok g2]| |];
      try reflexivity.
    replace (n + S N)%nat with ((n + 1) + N)%nat by lia.
    apply IH. lia.
Qed.

Lemma ar_steps_total : forall model temperature top_k top_p N x,
  total (ar_steps N model temperature top_k top_p x).
Proof.
  intros model temperature top_k top_p N.
  induction N as [|N IH]; intros x; cbn [ar_steps]; [apply total_ret|].
  apply total_bind; [apply total_lift, of_option_total|]. intros row.
  apply total_bind; [apply sample_total|]. intros tok. apply IH.
Qed.

Lemma ar_steps_inv : forall model temperature top_k top_p N x g out g',
  ar_steps N model temperature top_k top_p x g = Ok (out, g') ->
  exists toks,
    out = x ++ toks /\ length toks = N /\ Forall (fun t => t <> 0%nat) toks.
Proof.
  intros model temperature top_k top_p N.
  induction N as [|N IH]; intros x g out g' H.
  - cbn in H. unfold ret in H. inversion H; subst.
    exists []. rewrite app_nil_r. repeat split. constructor.
  - cbn [ar_steps] in H. bind_inv H. bind_inv H.
    pose proof (sample_ok_nonzero _ _ _ _ _ _ _ Hm0) as Hnz.
    apply IH in H. destruct H as (toks & Hx & Hlen & Hall).
    exists (a0 :: toks). rewrite <- app_assoc in Hx.
    split; [exact Hx|]. split; [cbn; lia | constructor; assumption].
Qed.

(** C9. With fuel for N iterations [autoregressive_sampling] never runs
    out of it; it calls the oracle once and the sampler once per appended
    token, on the row of the current final position, and what it returns is
    the input followed by exactly N tokens. *)
Theorem autoregressive_extends :
  forall fuel x model N temperature top_k top_p g,
  (N <= fuel)%nat ->
  autoregressive_sampling fuel x model N temperature top_k top_p g =
    ar_steps N model temperature top_k top_p x g /\
  autoregressive_sampling fuel x model N temperature top_k top_p g <> Diverge /\
  (forall out g',
     autoregressive_sampling fuel x model N temperature top_k top_p g
       = Ok (out, g') ->
     exists toks, out = x ++ toks /\ length toks = N).
Proof.
  intros fuel x model N temperature top_k top_p g Hfuel.
  assert (E : autoregressive_sampling fuel x model N temperature top_k top_p g =
              ar_steps N model temperature top_k top_p x g).
  { unfold autoregressive_sampling. apply ar_loop_steps. exact Hfuel. }
  split; [exact E|]. rewrite E. split.
  - apply ar_steps_total.
  - intros out g' H. apply ar_steps_inv in H.
    destruct H as (toks & Hx & Hlen & _). exists toks. split; assumption.
Qed.

(** *** Propagation of the sampler's error *)

Lemma ar_loop_raise : forall fuel model temperature top_k top_p n T x g row e,
  (n < T)%nat ->
  last_item (logits_of model x) = Some row ->
  sample row temperature top_k top_p g = Raise e ->
  ar_loop (S fuel) model temperature top_k top_p n T x g = Raise e.
Proof.
  intros fuel model temperature top_k top_p n T x g row e Hn Hrow Hs.
  simpl. destruct (Nat.ltb_spec n T); [|lia].
  unfold bind, lift. rewrite Hrow. cbn [of_option]. rewrite Hs. reflexivity.
Qed.

Lemma draft_loop_raise : forall k approx_model temperature top_k top_p x q g row e,
  last_item (logits_of approx_model x) = Some row ->
  sample row temperature top_k top_p g = Raise e ->
  draft_loop (S k) approx_model temperature top_k top_p x q g = Raise e.
Proof.
  intros k approx_model temperature top_k top_p x q g row e Hrow Hs.
  cbn [draft_loop]. unfold bind, lift. rewrite Hrow. cbn [of_option].
  rewrite Hs. reflexivity.
Qed.

Lemma spec_round_draft_raise : forall approx_model target_model gamma temperature
    top_k top_p prefix g e,
  draft_loop gamma approx_model temperature top_k top_p prefix None g = Raise e ->
  spec_round approx_model target_model gamma temperature top_k top_p prefix g
    = Raise e.
Proof.
  intros approx_model target_model gamma temperature top_k top_p prefix g e H.
  unfold spec_round, bind. rewrite H. reflexivity.
Qed.

Lemma spec_round_token_raise : forall approx_model target_model gamma temperature
    top_k top_p prefix g x lq g1 n g2 e,
  draft_loop gamma approx_model temperature top_k top_p prefix None g
    = Ok ((x, Some lq), g1) ->
  accept_loop gamma 0 gamma (length prefix) x
    (norm_logits (logits_of target_model x)) (norm_logits lq) g1 = Ok (n, g2) ->
  next_token n (length prefix) gamma
    (norm_logits (logits_of target_model x)) (norm_logits lq)
    temperature top_k top_p g2 = Raise e ->
  spec_round approx_model target_model gamma temperature top_k top_p prefix g
    = Raise e.
Proof.
  intros approx_model target_model gamma temperature top_k top_p prefix g
    x lq g1 n g2 e Hd Ha Ht.
  rewrite (spec_round_steps _ _ _ _ _ _ _ _ _ _ _ _ _ Hd Ha), Ht. reflexivity.
Qed.

Lemma spec_loop_raise : forall fuel approx_model target_model gamma temperature
    top_k top_p T prefix g e,
  (length prefix < T)%nat ->
  spec_round approx_model target_model gamma temperature top_k top_p prefix g
    = Raise e ->
  spec_loop (S fuel) approx_model target_model gamma temperature top_k top_p
    T prefix g = Raise e.
Proof.
  intros fuel approx_model target_model gamma temperature top_k top_p T prefix g e
    Hlen H.
  simpl. destruct (Nat.ltb_spec (length prefix) T); [|lia].
  unfold bind. rewrite H. reflexivity.
Qed.

Lemma in_firstn : forall (A : Type) (n : nat) (l : list A) a,
  In a (firstn n l) -> In a l.
Proof.
  intros A n l a H. rewrite <- (firstn_skipn n l).
  apply in_or_app. left. exact H.
Qed.

(** Every token a run of the orchestrator adds to its prefix came out of
    [sample], so none of them is 0. *)
Lemma spec_round_nonzero : forall approx_model target_model gamma temperature top_k
    top_p prefix g out g',
  spec_round approx_model target_model gamma temperature top_k top_p prefix g
    = Ok (out, g') ->
  exists toks, out = prefix ++ toks /\ Forall (fun t => t <> 0%nat) toks.
Proof.
  intros approx_model target_model gamma temperature top_k top_p prefix g out g' H.
  apply spec_round_inv in H.
  destruct H as (x & lq & g1 & n & g2 & t & Hd & Ha & Ht & Hout).
  pose proof (draft_loop_inv _ _ _ _ _ _ _ _ _ _ _ Hd)
    as (toks & Hx & Hlen & Hall & _).
  pose proof (accept_loop_bounds _ _ _ _ _ _ _ _ _ _ (Nat.add_0_l gamma) Ha) as Hb.
  assert (Ht0 : t <> 0%nat).
  { unfold next_token in Ht.
    destruct (n <? _)%Z.
    - do 3 bind_inv Ht. eapply sample_ok_nonzero; exact Ht.
    - destruct (n =? _)%Z; [|discriminate].
      bind_inv Ht. eapply sample_ok_nonzero; exact Ht. }
  exists (firstn (Z.to_nat (n + 1) - length prefix) toks ++ [t]).
  split.
  - rewrite Hout, Hx, firstn_app, app_assoc. f_equal. f_equal.
    apply firstn_all2. lia.
  - apply Forall_app. split; [|constructor; [exact Ht0 | constructor]].
    apply Forall_forall. intros a Ha'.
    apply (proj1 (Forall_forall _ _) Hall). eapply in_firstn; exact Ha'.
Qed.

Lemma spec_loop_nonzero : forall approx_model target_model gamma temperature top_k
    top_p T fuel prefix g out g',
  spec_loop fuel approx_model target_model gamma temperature top_k top_p T prefix g
    = Ok (out, g') ->
  exists toks, out = prefix ++ toks /\ Forall (fun t => t <> 0%nat) toks.
Proof.
  intros approx_model target_model gamma temperature top_k top_p T fuel.
  induction fuel as [|fuel IH]; intros prefix g out g' H.
  - simpl in H. destruct (length prefix <? T)%nat; [discriminate|].
    unfold ret in H. inversion H; subst. exists []. rewrite app_nil_r.
    split; [reflexivity | constructor].
  - simpl in H. destruct (length prefix <? T)%nat.
    + bind_inv H. apply spec_round_nonzero in Hm. apply IH in H.
      destruct Hm as (t1 & -> & H1). destruct H as (t2 & -> & H2).
      exists (t1 ++ t2). rewrite app_assoc. split; [reflexivity|].
      apply Forall_app. split; assumption.
    + unfold ret in H. inversion H; subst. exists []. rewrite app_nil_r.
      split; [reflexivity | constructor].
Qed.

Lemma ar_loop_nonzero : forall model temperature top_k top_p fuel n T x g out g',
  ar_loop fuel model temperature top_k top_p n T x g = Ok (out, g') ->
  exists toks, out = x ++ toks /\ Forall (fun t => t <> 0%nat) toks.
Proof.
  intros model temperature top_k top_p fuel.
  induction fuel as [|fuel IH]; intros n T x g out g' H.
  - simpl in H. destruct (n <? T)%nat; [discriminate|].
    unfold ret in H. inversion H; subst. exists []. rewrite app_nil_r.
    split; [reflexivity | constructor].
  - simpl in H. destruct (n <? T)%nat.
    + bind_inv H. bind_inv H.
      pose proof (sample_ok_nonzero _ _ _ _ _ _ _ Hm0) as Hnz.
      apply IH in H. destruct H as (toks & -> & Hall).
      exists (a0 :: toks). rewrite <- app_assoc.
      split; [reflexivity | constructor; assumption].
    + unfold ret in H. inversion H; subst. exists []. rewrite app_nil_r.
      split; [reflexivity | constructor].
Qed.

Lemma next_token_raise : forall n prefix_len gamma p q temperature top_k top_p g e,
  ((n < Z.of_nat prefix_len + Z.of_nat gamma - 1)%Z /\
   exists pn qn d,
     getitem p n = Some pn /\ getitem q n = Some qn /\ row_sub pn qn = Ok d /\
     sample (max_fn d) temperature top_k top_p g = Raise e)
  \/
  (n = (Z.of_nat prefix_len + Z.of_nat gamma - 1)%Z /\
   n = (Z.of_nat (length p) - 1)%Z /\
   exists row,
     last_item p = Some row /\ sample row temperature top_k top_p g = Raise e) ->
  next_token n prefix_len gamma p q temperature top_k top_p g = Raise e.
Proof.
  intros n prefix_len gamma p q temperature top_k top_p g e
    [(Hlt & pn & qn & d & Hp & Hq & Hd & Hs)|(Hn & Hshape & row & Hrow & Hs)];
    unfold next_token.
  - destruct (Z.ltb_spec n (Z.of_nat prefix_len + Z.of_nat gamma - 1)); [|lia].
    unfold bind, lift. rewrite Hp, Hq. cbn [of_option]. rewrite Hd, Hs.
    reflexivity.
  - destruct (Z.ltb_spec n (Z.of_nat prefix_len + Z.of_nat gamma - 1)); [lia|].
    destruct (Z.eqb_spec n (Z.of_nat (length p) - 1)); [|lia].
    unfold bind, lift. rewrite Hrow. cbn [of_option]. rewrite Hs. reflexivity.
Qed.

(** C7. A weighted draw of the reserved id 0 makes [sample] raise, so
    [sample] never returns 0; the error leaves the loop of the
    autoregressive generator, the drafting loop, the choice of the appended
    token, the round and the loop of the orchestrator, which all stop with
    it; and no token either generator adds to its prefix is 0. *)
Theorem reserved_token_error :
  forall model approx_model target_model gamma temperature top_k top_p,
  (forall logits g filtered g',
     top_k_top_p_filter (map (fun v => fdiv v (Fin temperature)) logits)
       top_k top_p = Ok filtered ->
     multinomial (softmax filtered) g = Ok (0%nat, g') ->
     sample logits temperature top_k top_p g = Raise RuntimeError) /\
  (forall logits g t g',
     sample logits temperature top_k top_p g = Ok (t, g') -> t <> 0%nat) /\
  (forall fuel n T x g row e,
     (n < T)%nat ->
     last_item (logits_of model x) = Some row ->
     sample row temperature top_k top_p g = Raise e ->
     ar_loop (S fuel) model temperature top_k top_p n T x g = Raise e) /\
  (forall k x q g row e,
     last_item (logits_of approx_model x) = Some row ->
     sample row temperature top_k top_p g = Raise e ->
     draft_loop (S k) approx_model temperature top_k top_p x q g = Raise e) /\
  (forall prefix g e,
     draft_loop gamma approx_model temperature top_k top_p prefix None g
       = Raise e ->
     spec_round approx_model target_model gamma temperature top_k top_p prefix g
       = Raise e) /\
  (forall n prefix_len p q g e,
     ((n < Z.of_nat prefix_len + Z.of_nat gamma - 1)%Z /\
      exists pn qn d,
        getitem p n = Some pn /\ getitem q n = Some qn /\
        row_sub pn qn = Ok d /\
        sample (max_fn d) temperature top_k top_p g = Raise e)
     \/
     (n = (Z.of_nat prefix_len + Z.of_nat gamma - 1)%Z /\
      n = (Z.of_nat (length p) - 1)%Z /\
      exists row,
        last_item p = Some row /\
        sample row temperature top_k top_p g = Raise e) ->
     next_token n prefix_len gamma p q temperature top_k top_p g = Raise e) /\
  (forall prefix g x lq g1 n g2 e,
     draft_loop gamma approx_model temperature top_k top_p prefix None g
       = Ok ((x, Some lq), g1) ->
     accept_loop gamma 0 gamma (length prefix) x
       (norm_logits (logits_of target_model x)) (norm_logits lq) g1
       = Ok (n, g2) ->
     next_token n (length prefix) gamma
       (norm_logits (logits_of target_model x)) (norm_logits lq)
       temperature top_k top_p g2 = Raise e ->
     spec_round approx_model target_model gamma temperature top_k top_p prefix g
       = Raise e) /\
  (forall fuel T prefix g e,
     (length prefix < T)%nat ->
     spec_round approx_model target_model gamma temperature top_k top_p prefix g
       = Raise e ->
     spec_loop (S fuel) approx_model target_model gamma temperature top_k top_p
       T prefix g = Raise e) /\
  (forall fuel x N g out g',
     autoregressive_sampling fuel x model N temperature top_k top_p g
       = Ok (out, g') ->
     exists toks, out = x ++ toks /\ Forall (fun t => t <> 0%nat) toks) /\
  (forall fuel prefix max_len g out g',
     speculative_sampling fuel prefix approx_model target_model max_len gamma
       temperature top_k top_p g = Ok (out, g') ->
     exists toks, out = prefix ++ toks /\ Forall (fun t => t <> 0%nat) toks).
Proof.
  intros model approx_model target_model gamma temperature top_k top_p.
  split; [intros; eapply sample_zero_raises; eassumption|].
  split; [intros; eapply sample_ok_nonzero; eassumption|].
  split; [intros; eapply ar_loop_raise; eassumption|].
  split; [intros; eapply draft_loop_raise; eassumption|].
  split; [intros; eapply spec_round_draft_raise; eassumption|].
  split; [intros; eapply next_token_raise; eassumption|].
  split; [intros; eapply spec_round_token_raise; eassumption|].
  split; [intros; eapply spec_loop_raise; eassumption|].
  split.
  - intros fuel x N g out g' H. unfold autoregressive_sampling in H.
    eapply ar_loop_nonzero; exact H.
  - intros fuel prefix max_len g out g' H. unfold speculative_sampling in H.
    eapply spec_loop_nonzero; exact H.
Qed.

(** *** The same oracle on both sides *)

Lemma draft_loop_steps : forall model temperature top_k top_p k x q0 g,
  ar_steps k model temperature top_k top_p x g =
  match draft_loop k model temperature top_k top_p x q0 g with
  | Ok ((x', _), g') => Ok (x', g')
  | Raise e => Raise e
  | Diverge => Diverge
  end.
Proof.
  intros model temperature top_k top_p k.
  induction k as [|k IH]; intros x q0 g; [reflexivity|].
  cbn [ar_steps draft_loop]. unfold bind.
  destruct (lift (of_option IndexError (last_item (logits_of model x))) g)
    as [[row g1]| |]; try reflexivity.
  destruct (sample row temperature top_k top_p g1) as [[tok g2]| |];
    try reflexivity.
  apply IH.
Qed.

Lemma fgtb_self_ratio : forall r v,
  r <= 1 -> fgtb (Fin r) (fdiv v v) = false.
Proof.
  intros r [a| | |] Hr; cbn; try reflexivity.
  destruct (Qeq_bool a 0) eqn:E.
  - destruct (Qeq_bool a 0); [reflexivity | discriminate].
  - cbn. unfold Qltb. apply negb_false_iff. apply Qle_bool_iff.
    assert (Ha : ~ a == 0) by (intros C; apply Qeq_bool_iff in C; congruence).
    assert (Hone : a / a == 1) by (field; exact Ha).
    rewrite Hone. exact Hr.
Qed.

Lemma norm_logits_row : forall model x k,
  nth_error (norm_logits (logits_of model x)) k =
  option_map (fun row => softmax (map Fin row)) (nth_error (model x) k).
Proof.
  intros model x k. unfold norm_logits, logits_of.
  rewrite map_map, nth_error_map. reflexivity.
Qed.

Lemma causal_entry : forall model x0 y pos j,
  causal model -> (0 <= pos < Z.of_nat (length x0))%Z ->
  entry (norm_logits (logits_of model (x0 ++ y))) pos j =
  entry (norm_logits (logits_of model x0)) pos j.
Proof.
  intros model x0 y pos j Hc Hpos. unfold entry, getitem.
  destruct (Z.ltb_spec pos 0); [lia|].
  rewrite !norm_logits_row, Hc by lia. reflexivity.
Qed.

Lemma accept_loop_same_oracle : forall model gamma prefix_len x0 tl k i g n g',
  (forall g0, fst (rand g0) <= 1) ->
  causal model ->
  (1 <= prefix_len)%nat ->
  (prefix_len + gamma = length x0 + 1)%nat ->
  (i + k = gamma)%nat ->
  accept_loop k i gamma prefix_len (x0 ++ [tl])
    (norm_logits (logits_of model (x0 ++ [tl])))
    (norm_logits (logits_of model x0)) g = Ok (n, g') ->
  n = (Z.of_nat prefix_len + Z.of_nat gamma - 1)%Z /\ g' = rand_state k g.
Proof.
  intros model gamma prefix_len x0 tl k i g n g' Hrand Hc Hpl Hlen Hik H.
  apply accept_loop_char in H.
  destruct H as [(m & Hm & _ & (rho & Hr & Hcmp) & _)|(_ & Hn & Hg)];
    [exfalso | split; assumption].
  unfold ratio_at in Hr.
  destruct (getitem (x0 ++ [tl]) (Z.of_nat (prefix_len + (i + m)))) as [j|];
    cbn in Hr; [|discriminate].
  rewrite causal_entry in Hr by (assumption || lia).
  destruct (entry (norm_logits (logits_of model x0)) _ j) as [v| |];
    cbn in Hr; try discriminate.
  inversion Hr; subst.
  rewrite fgtb_self_ratio in Hcmp by apply Hrand. discriminate.
Qed.

(** C3, amended. When both oracles are the same causal oracle and the
    prefix is not empty, a round keeps every token it drafted; the drafted
    sequence is what [autoregressive_sampling] with N = gamma answers from
    the same prefix and generator state, and the token appended after it is
    drawn by [sample] from the normalised last row once gamma uniform draws
    have been taken from the generator. *)
Theorem identical_oracles_accept_all :
  (forall g0, fst (rand g0) <= 1) ->
  forall model gamma temperature top_k top_p prefix g out g3,
  causal model ->
  prefix <> [] ->
  spec_round model model gamma temperature top_k top_p prefix g = Ok (out, g3) ->
  exists x g1 t row,
    autoregressive_sampling gamma prefix model gamma temperature top_k top_p g
      = Ok (x, g1) /\
    accept_loop gamma 0 gamma (length prefix) x
      (norm_logits (logits_of model x))
      (norm_logits (logits_of model (removelast x))) g1
      = Ok ((Z.of_nat (length prefix) + Z.of_nat gamma - 1)%Z,
            rand_state gamma g1) /\
    last_item (norm_logits (logits_of model x)) = Some row /\
    sample row temperature top_k top_p (rand_state gamma g1) = Ok (t, g3) /\
    out = x ++ [t].
Proof.
  intros Hrand model gamma temperature top_k top_p prefix g out g3 Hc Hne H.
  apply spec_round_inv in H.
  destruct H as (x & lq & g1 & n & g2 & t & Hd & Ha & Ht & Hout).
  pose proof (draft_loop_inv _ _ _ _ _ _ _ _ _ _ _ Hd)
    as (toks & Hx & Hlen & _ & Hq0 & Hq).
  assert (Hg : (0 < gamma)%nat).
  { destruct gamma; [|lia]. specialize (Hq0 eq_refl). discriminate. }
  specialize (Hq Hg). injection Hq as Hlq. clear Hq0.
  assert (Hxlen : length x = (length prefix + gamma)%nat).
  { rewrite Hx, length_app. lia. }
  assert (Hpl : (1 <= length prefix)%nat).
  { destruct prefix; [congruence | cbn; lia]. }
  assert (Hxne : x <> []).
  { intros C. rewrite C in Hxlen. cbn in Hxlen. lia. }
  destruct (exists_last Hxne) as (x0 & tl & Hx0).
  assert (Hrl : removelast x = x0) by (rewrite Hx0; apply removelast_last).
  rewrite Hrl in Hlq.
  assert (Hx0len : (length prefix + gamma = length x0 + 1)%nat).
  { rewrite <- Hxlen, Hx0, length_app. cbn. lia. }
  assert (Hacc : n = (Z.of_nat (length prefix) + Z.of_nat gamma - 1)%Z /\
                 g2 = rand_state gamma g1).
  { rewrite Hlq, Hx0 in Ha.
    eapply accept_loop_same_oracle; try eassumption. lia. }
  destruct Hacc as [Hn Hg2].
  unfold next_token in Ht.
  destruct (Z.ltb_spec n (Z.of_nat (length prefix) + Z.of_nat gamma - 1)); [lia|].
  destruct (n =? _)%Z; [|discriminate].
  bind_inv Ht. apply lift_ok_inv in Hm. destruct Hm as [Hrow ->].
  destruct (last_item (norm_logits (logits_of model x))) as [row|] eqn:Erow;
    [|discriminate].
  cbn in Hrow. inversion Hrow; subst a.
  exists x, g1, t, row.
  split.
  { unfold autoregressive_sampling.
    rewrite ar_loop_steps by lia.
    rewrite (draft_loop_steps _ _ _ _ _ _ None), Hd. reflexivity. }
  split.
  { rewrite Hrl, <- Hlq, <- Hn, <- Hg2. exact Ha. }
  split; [exact Erow|].
  split; [rewrite <- Hg2; exact Ht|].
  rewrite Hout. f_equal. apply firstn_all2. lia.
Qed.

(** *** Truncation in the sampler *)

Lemma length_spike : forall (A : Type) (d v : A) n m, length (spike d v n m) = n.
Proof.
  intros A d v n. induction n as [|n IH]; intros [|m]; cbn;
    try reflexivity; [rewrite repeat_length | rewrite IH]; reflexivity.
Qed.

Lemma map_spike : forall (A B : Type) (f : A -> B) d v n m,
  map f (spike d v n m) = spike (f d) (f v) n m.
Proof.
  intros A B f d v n. induction n as [|n IH]; intros [|m]; cbn;
    try reflexivity; [rewrite map_repeat | rewrite IH]; reflexivity.
Qed.

Lemma nth_error_spike : forall (A : Type) (d v : A) n m k a,
  nth_error (spike d v n m) k = Some a -> (k = m /\ a = v) \/ a = d.
Proof.
  intros A d v n. induction n as [|n IH]; intros m k a H.
  - destruct k; discriminate.
  - destruct m as [|m]; destruct k as [|k]; cbn in H.
    + inversion H. left. split; reflexivity.
    + right. apply nth_error_In in H. apply repeat_spec in H. exact H.
    + inversion H. right. reflexivity.
    + apply IH in H. destruct H as [[-> ->] | ->]; [left; split; reflexivity | right; reflexivity].
Qed.

Lemma nth_error_spike_at : forall (A : Type) (d v : A) n m,
  (m < n)%nat -> nth_error (spike d v n m) m = Some v.
Proof.
  intros A d v n. induction n as [|n IH]; intros m Hm; [lia|].
  destruct m as [|m]; cbn; [reflexivity | apply IH; lia].
Qed.

Lemma nth_spike_other : forall (A : Type) (d v d0 : A) n m k,
  k <> m -> nth k (spike d v n m) d0 = d \/ nth k (spike d v n m) d0 = d0.
Proof.
  intros A d v d0 n m k Hk.
  destruct (nth_error (spike d v n m) k) as [a|] eqn:E.
  - left. rewrite (nth_error_nth _ _ d0 E).
    apply nth_error_spike in E. destruct E as [[-> _] | ->]; [congruence | reflexivity].
  - right. apply nth_error_None in E. apply nth_overflow. exact E.
Qed.

Lemma Qsum_spike : forall d v n m,
  d == 0 -> (m < n)%nat -> Qsum (spike d v n m) == v.
Proof.
  intros d v n. induction n as [|n IH]; intros m Hd Hm; [lia|].
  destruct m as [|m]; cbn.
  - fold (Qsum (repeat d n)).
    assert (E : Qsum (repeat d n) == 0).
    { clear - Hd. induction n as [|n IH]; cbn; [reflexivity|].
      fold (Qsum (repeat d n)). rewrite IH, Hd. reflexivity. }
    rewrite E. ring.
  - fold (Qsum (spike d v n m)). rewrite IH by (assumption || lia). rewrite Hd. ring.
Qed.

Lemma Qltb_true : forall a b, a < b -> Qltb a b = true.
Proof.
  intros a b H. unfold Qltb. apply negb_true_iff.
  destruct (Qle_bool b a) eqn:E; [|reflexivity].
  apply Qle_bool_iff in E. lra.
Qed.

Lemma Qltb_false : forall a b, b <= a -> Qltb a b = false.
Proof.
  intros a b H. unfold Qltb. apply negb_false_iff. apply Qle_bool_iff. exact H.
Qed.

(** *** Sorting *)

Lemma insert_desc_perm : forall a s, Permutation (insert_desc a s) (a :: s).
Proof.
  intros a s. induction s as [|b t IH]; cbn; [apply Permutation_refl|].
  destruct (sort_geb (fst a) (fst b)); [apply Permutation_refl|].
  eapply Permutation_trans; [apply perm_skip, IH | apply perm_swap].
Qed.

Lemma sort_pairs_perm : forall l, Permutation (fold_right insert_desc [] l) l.
Proof.
  induction l as [|a l IH]; cbn; [constructor|].
  eapply Permutation_trans; [apply insert_desc_perm | apply perm_skip, IH].
Qed.

Lemma sort_geb_total : forall a b, sort_geb a b = false -> sort_geb b a = true.
Proof.
  intros [x| | |] [y| | |]; cbn; try reflexivity; try discriminate.
  unfold Qltb. intros H. apply negb_false_iff, negb_true_iff in H.
  apply negb_true_iff, negb_false_iff. apply Qle_bool_iff.
  assert (~ y <= x) by (intros C; apply Qle_bool_iff in C; congruence). lra.
Qed.

(** An element that dominates every other one comes out first. *)
Lemma sort_head : forall (l : list (fval * nat)) e,
  In e l ->
  (forall e', In e' l -> e' = e \/ sort_geb (fst e') (fst e) = false) ->
  sort_geb (fst e) (fst e) = true ->
  exists t, fold_right insert_desc [] l = e :: t.
Proof.
  induction l as [|a l IH]; intros e Hin Hdom Hrefl; [contradiction|].
  cbn [fold_right].
  destruct (Hdom a (or_introl eq_refl)) as [-> | Ha].
  - destruct (fold_right insert_desc [] l) as [|b t] eqn:Es; [exists []; reflexivity|].
    assert (Hb : In b l).
    { eapply Permutation_in; [apply sort_pairs_perm|]. rewrite Es. left. reflexivity. }
    cbn [insert_desc].
    assert (Hge : sort_geb (fst e) (fst b) = true).
    { destruct (Hdom b (or_intror Hb)) as [-> | Hlt]; [exact Hrefl|].
      apply sort_geb_total. exact Hlt. }
    rewrite Hge. eexists. reflexivity.
  - assert (Hin' : In e l).
    { destruct Hin as [-> | Hin]; [congruence | exact Hin]. }
    destruct (IH e Hin' (fun e' H' => Hdom e' (or_intror H')) Hrefl) as (t & Et).
    rewrite Et. cbn [insert_desc]. rewrite Ha. eexists. reflexivity.
Qed.

Lemma in_combine_seq : forall (A : Type) (l : list A) s a k,
  In (a, k) (combine l (seq s (length l))) <->
  ((s <= k)%nat /\ nth_error l (k - s) = Some a).
Proof.
  intros A l. induction l as [|b l IH]; intros s a k; cbn [length seq combine].
  - split; [contradiction|]. intros [_ H]. destruct (k - s)%nat; discriminate.
  - cbn [In]. rewrite IH. split.
    + intros [H|[Hle H]].
      * inversion H; subst. split; [lia|]. rewrite Nat.sub_diag. reflexivity.
      * split; [lia|]. replace (k - s)%nat with (S (k - S s)) by lia. exact H.
    + intros [Hle H]. destruct (Nat.eq_dec k s) as [-> | Hne].
      * rewrite Nat.sub_diag in H. cbn in H. inversion H. left. reflexivity.
      * right. split; [lia|].
        replace (k - s)%nat with (S (k - S s)) in H by lia. exact H.
Qed.

Lemma map_snd_combine_seq : forall (A : Type) (l : list A) s,
  map snd (combine l (seq s (length l))) = seq s (length l).
Proof.
  intros A l. induction l as [|b l IH]; intros s; cbn; [reflexivity|].
  rewrite IH. reflexivity.
Qed.

Lemma length_sort_desc : forall l, length (sort_desc l) = length l.
Proof.
  intros l. unfold sort_desc.
  rewrite (Permutation_length (sort_pairs_perm _)), length_combine, length_seq.
  apply Nat.min_id.
Qed.

(** The row with a dominating entry at index [m]: sorting puts that entry
    first, and its index occurs nowhere else. *)
Lemma sort_desc_head : forall l m v,
  nth_error l m = Some v ->
  (forall k a, nth_error l k = Some a -> k = m \/ sort_geb a v = false) ->
  sort_geb v v = true ->
  exists t, sort_desc l = (v, m) :: t /\ ~ In m (map snd t).
Proof.
  intros l m v Hm Hdom Hrefl. unfold sort_desc.
  destruct (sort_head (combine l (seq 0 (length l))) (v, m)) as (t & Et).
  - apply in_combine_seq. split; [lia|]. rewrite Nat.sub_0_r. exact Hm.
  - intros [a k] Hin. apply in_combine_seq in Hin. destruct Hin as [_ Hk].
    rewrite Nat.sub_0_r in Hk.
    destruct (Hdom k a Hk) as [-> | Hlt]; [|right; exact Hlt].
    left. rewrite Hm in Hk. inversion Hk. reflexivity.
  - exact Hrefl.
  - exists t. split; [exact Et|].
    assert (Hnd : NoDup (map snd ((v, m) :: t))).
    { rewrite <- Et.
      eapply Permutation_NoDup;
        [apply Permutation_sym, Permutation_map, sort_pairs_perm|].
      rewrite map_snd_combine_seq. apply seq_NoDup. }
    cbn in Hnd. inversion Hnd. assumption.
Qed.

(** *** Scatter and masking *)

Lemma length_set_nth : forall (A : Type) (l : list A) i v,
  length (set_nth l i v) = length l.
Proof.
  intros A l. induction l as [|h t IH]; intros [|i] v; cbn;
    try reflexivity. rewrite IH. reflexivity.
Qed.

Lemma nth_error_set_nth_other : forall (A : Type) (l : list A) i v m,
  i <> m -> nth_error (set_nth l i v) m = nth_error l m.
Proof.
  intros A l. induction l as [|h t IH]; intros [|i] v [|m] Hne; cbn;
    try reflexivity; try congruence.
  apply IH. congruence.
Qed.

Lemma nth_error_set_nth_same : forall (A : Type) (l : list A) i v,
  (i < length l)%nat -> nth_error (set_nth l i v) i = Some v.
Proof.
  intros A l. induction l as [|h t IH]; intros [|i] v Hi; cbn in *; try lia;
    [reflexivity | apply IH; lia].
Qed.

Lemma scatter_pairs_length : forall (pairs : list (nat * bool)) base,
  length (fold_left (fun acc (ib : nat * bool) => set_nth acc (fst ib) (snd ib))
                    pairs base) = length base.
Proof.
  induction pairs as [|ib pairs IH]; intros base; cbn; [reflexivity|].
  rewrite IH. apply length_set_nth.
Qed.

Lemma scatter_pairs_other : forall (pairs : list (nat * bool)) base m,
  (forall ib, In ib pairs -> fst ib <> m) ->
  nth_error (fold_left (fun acc (ib : nat * bool) => set_nth acc (fst ib) (snd ib))
                       pairs base) m = nth_error base m.
Proof.
  induction pairs as [|ib pairs IH]; intros base m H; cbn; [reflexivity|].
  rewrite IH by (intros ib' Hin; apply H; right; exact Hin).
  apply nth_error_set_nth_other. apply H. left. reflexivity.
Qed.

Lemma mask_repeat : forall n mask,
  length mask = n -> mask_neg_inf (repeat NInf n) mask = repeat NInf n.
Proof.
  induction n as [|n IH]; intros [|b mask] Hlen; try discriminate; [reflexivity|].
  unfold mask_neg_inf in *. cbn. rewrite IH by (cbn in Hlen; lia).
  destruct b; reflexivity.
Qed.

Lemma mask_spike : forall n m v mask,
  length mask = n -> nth_error mask m = Some false ->
  mask_neg_inf (spike NInf v n m) mask = spike NInf v n m.
Proof.
  induction n as [|n IH]; intros m v [|b mask] Hlen Hm; try discriminate.
  - destruct m; discriminate.
  - destruct m as [|m]; cbn in Hm.
    + inversion Hm; subst. unfold mask_neg_inf. cbn. f_equal.
      apply mask_repeat. cbn in Hlen. lia.
    + unfold mask_neg_inf in *. cbn. rewrite IH by (cbn in Hlen; lia || assumption).
      destruct b; reflexivity.
Qed.

Lemma length_cumsum_from : forall l acc, length (cumsum_from acc l) = length l.
Proof.
  induction l as [|a l IH]; intros acc; cbn; [reflexivity|]. rewrite IH. reflexivity.
Qed.

Lemma length_softmax : forall l, length (softmax l) = length l.
Proof. intros l. unfold softmax. rewrite !length_map. reflexivity. Qed.

Lemma length_removelast_cons : forall (A : Type) (l : list A) a,
  length (removelast (a :: l)) = length l.
Proof.
  intros A l. induction l as [|b l IH]; intros a; [reflexivity|].
  change (removelast (a :: b :: l)) with (a :: removelast (b :: l)).
  cbn [length]. rewrite IH. reflexivity.
Qed.

Lemma in_spike : forall (A : Type) (d v x : A) n m,
  In x (spike d v n m) -> x = d \/ x = v.
Proof.
  intros A d v x n m H. apply In_nth_error in H. destruct H as (k & Hk).
  apply nth_error_spike in Hk. destruct Hk as [[_ ->] | ->]; [right | left]; reflexivity.
Qed.

(** The top-p step leaves a row with a single finite entry as it is. *)
Lemma top_p_filter_spike : forall n m c top_p,
  (m < n)%nat ->
  top_p_filter (spike NInf (Fin c) n m) top_p = Ok (spike NInf (Fin c) n m).
Proof.
  intros n m c top_p Hm. unfold top_p_filter.
  destruct (Qltb 0 top_p); [|reflexivity].
  destruct (sort_desc_head (spike NInf (Fin c) n m) m (Fin c)) as (t & Es & Hnot).
  - apply nth_error_spike_at. exact Hm.
  - intros k a Hk. apply nth_error_spike in Hk.
    destruct Hk as [[-> _] | ->]; [left | right]; reflexivity.
  - cbn. rewrite Qltb_false by apply Qle_refl. reflexivity.
  - assert (Hn : n = S (length t)).
    { pose proof (length_sort_desc (spike NInf (Fin c) n m)) as Hl.
      rewrite Es, length_spike in Hl. cbn in Hl. lia. }
    rewrite Es.
    remember (map (fun c0 => fgtb c0 (Fin top_p))
                (cumsum (softmax (map fst ((Fin c, m) :: t))))) as filter eqn:Ef.
    assert (Hlen : length filter = n).
    { rewrite Ef. unfold cumsum.
      rewrite length_map, length_cumsum_from, length_softmax, length_map.
      cbn. lia. }
    destruct filter as [|f0 fr]; [cbn in Hlen; lia|].
    f_equal. apply mask_spike.
    + unfold scatter. rewrite scatter_pairs_length. cbn [length].
      rewrite length_removelast_cons. cbn in Hlen. lia.
    + unfold scatter. cbn [map snd combine fold_left fst].
      rewrite scatter_pairs_other.
      * apply nth_error_set_nth_same. cbn [length].
        rewrite length_removelast_cons. cbn in Hlen. lia.
      * intros [i b] Hin. apply in_combine_l in Hin. cbn.
        intros ->. contradiction.
Qed.

Lemma mask_below : forall l M,
  (forall v, In v l -> v < M) ->
  map (fun v => if fltb v (Fin M) then NInf else v) (map Fin l)
  = repeat NInf (length l).
Proof.
  induction l as [|a l IH]; intros M H; [reflexivity|].
  cbn [map length repeat]. rewrite IH by (intros v Hv; apply H; right; exact Hv).
  unfold fltb. cbn [fgtb]. rewrite Qltb_true by (apply H; left; reflexivity).
  reflexivity.
Qed.

Lemma topk_mask_spike : forall l m M,
  nth_error l m = Some M ->
  (forall k v, nth_error l k = Some v -> k <> m -> v < M) ->
  map (fun v => if fltb v (Fin M) then NInf else v) (map Fin l)
  = spike NInf (Fin M) (length l) m.
Proof.
  induction l as [|a l IH]; intros m M Hm Hlt; [destruct m; discriminate|].
  destruct m as [|m]; cbn in Hm.
  - inversion Hm; subst. cbn [map length spike].
    unfold fltb at 1. cbn [fgtb]. rewrite Qltb_false by apply Qle_refl.
    f_equal. apply mask_below. intros v Hv.
    apply In_nth_error in Hv. destruct Hv as (k & Hk).
    apply (Hlt (S k) v); [exact Hk | discriminate].
  - cbn [map length spike].
    unfold fltb at 1. cbn [fgtb].
    rewrite Qltb_true by (apply (Hlt 0%nat a); [reflexivity | discriminate]).
    f_equal. apply IH; [exact Hm|].
    intros k v Hk Hne. apply (Hlt (S k) v); [exact Hk | congruence].
Qed.

(** With [top_k = 1] and a single greatest logit, what is left of the row
    is that logit alone. *)
Lemma top_k_one_spike : forall l m M top_p,
  nth_error l m = Some M ->
  (forall k v, nth_error l k = Some v -> k <> m -> v < M) ->
  top_k_top_p_filter (map Fin l) 1 top_p = Ok (spike NInf (Fin M) (length l) m).
Proof.
  intros l m M top_p Hm Hlt.
  assert (Hmlen : (m < length l)%nat).
  { apply nth_error_Some. rewrite Hm. discriminate. }
  unfold top_k_top_p_filter, top_k_filter. change (0 <? 1)%nat with true. cbn iota.
  destruct (sort_desc_head (map Fin l) m (Fin M)) as (t & Es & _).
  - rewrite nth_error_map, Hm. reflexivity.
  - intros k a Hk. rewrite nth_error_map in Hk.
    destruct (nth_error l k) as [v|] eqn:Ev; [|discriminate].
    cbn in Hk. inversion Hk; subst a.
    destruct (Nat.eq_dec k m) as [->|Hne]; [left; reflexivity|].
    right. cbn. unfold fltb. cbn [fgtb].
    rewrite Qltb_true by (eapply Hlt; eassumption). reflexivity.
  - cbn. rewrite Qltb_false by apply Qle_refl. reflexivity.
  - rewrite Es, length_map.
    destruct (length l) as [|n'] eqn:El; [lia|].
    change (Nat.min 1 (S n')) with 1%nat at 1.
    cbn [map fst firstn]. unfold last_item, getitem. cbn [of_option obind Z.ltb].
    cbn -[top_p_filter spike fltb].
    rewrite (topk_mask_spike l m M Hm Hlt).
    rewrite El. apply top_p_filter_spike. lia.
Qed.

Lemma softmax_spike : forall n m c,
  (forall a, 0 < exp a) -> (m < n)%nat ->
  softmax (spike NInf (Fin c) n m) =
  map Fin (spike (0 / Qsum (spike 0 (exp c) n m))
                 (exp c / Qsum (spike 0 (exp c) n m)) n m).
Proof.
  intros n m c Hexp Hm. unfold softmax.
  rewrite (map_spike _ _ fexp). cbn [fexp].
  rewrite <- (map_spike _ _ Fin 0 (exp c)). rewrite fsum_fin, map_map.
  rewrite <- (map_spike _ _ (fun q => q / Qsum (spike 0 (exp c) n m))).
  rewrite map_map. apply map_ext. intros a. cbn [fdiv].
  rewrite Qeq_bool_pos_false; [reflexivity|].
  rewrite Qsum_spike by (reflexivity || assumption). apply Hexp.
Qed.

Lemma scale_fin : forall logits temperature,
  0 < temperature ->
  map (fun v => fdiv v (Fin temperature)) (map Fin logits)
  = map Fin (map (fun v => v / temperature) logits).
Proof.
  intros logits temperature Ht. rewrite !map_map. apply map_ext. intros a.
  cbn [fdiv]. rewrite Qeq_bool_pos_false by exact Ht. reflexivity.
Qed.

Lemma filter_disabled : forall logits, top_k_top_p_filter logits 0 0 = Ok logits.
Proof. intros logits. reflexivity. Qed.

Lemma top_k_one_probs : forall logits temperature top_p m M,
  (forall a, 0 < exp a) -> 0 < temperature ->
  nth_error logits m = Some M ->
  (forall k v, nth_error logits k = Some v -> k <> m -> v < M) ->
  obind (top_k_top_p_filter
           (map (fun v => fdiv v (Fin temperature)) (map Fin logits)) 1 top_p)
        (fun l => Ok (softmax l))
  = Ok (map Fin (one_hot_weights logits temperature m M)).
Proof.
  intros logits temperature top_p m M Hexp Ht Hm Hlt.
  assert (Hmlen : (m < length logits)%nat).
  { apply nth_error_Some. rewrite Hm. discriminate. }
  rewrite scale_fin by exact Ht.
  rewrite (top_k_one_spike _ m (M / temperature)).
  - cbn [obind]. rewrite length_map.
    rewrite softmax_spike by assumption. reflexivity.
  - rewrite nth_error_map, Hm. reflexivity.
  - intros k v Hk Hne. rewrite nth_error_map in Hk.
    destruct (nth_error logits k) as [v0|] eqn:Ev; [|discriminate].
    cbn in Hk. inversion Hk; subst v.
    unfold Qdiv. apply Qmult_lt_compat_r.
    + apply Qinv_lt_0_compat. exact Ht.
    + eapply Hlt; eassumption.
Qed.

Lemma one_hot_weights_facts : forall logits temperature m M,
  (forall a, 0 < exp a) -> (m < length logits)%nat ->
  nth m (one_hot_weights logits temperature m M) 0 == 1 /\
  (forall k, k <> m -> nth k (one_hot_weights logits temperature m M) 0 == 0) /\
  valid_probs (map Fin (one_hot_weights logits temperature m M)) = true.
Proof.
  intros logits temperature m M Hexp Hm. unfold one_hot_weights.
  set (e := exp (M / temperature)).
  set (s := Qsum (spike 0 e (length logits) m)).
  assert (He : 0 < e) by apply Hexp.
  assert (Hs : s == e) by (apply Qsum_spike; [reflexivity | exact Hm]).
  assert (Hd : 0 / s == 0) by (unfold Qdiv; ring).
  assert (Hv : e / s == 1) by (rewrite Hs; field; lra).
  split; [|split].
  - rewrite (nth_error_nth _ _ 0 (nth_error_spike_at _ (0 / s) (e / s) _ _ Hm)).
    exact Hv.
  - intros k Hk.
    destruct (nth_spike_other _ (0 / s) (e / s) 0 (length logits) m k Hk) as [E|E];
      rewrite E; [exact Hd | reflexivity].
  - unfold valid_probs. apply andb_true_iff. split.
    + apply forallb_forall. intros x Hx. apply in_map_iff in Hx.
      destruct Hx as (w & <- & Hw). apply in_spike in Hw.
      apply Qle_bool_iff. destruct Hw as [-> | ->]; lra.
    + rewrite fsum_fin. cbn [fgtb fzero]. apply Qltb_true.
      rewrite Qsum_spike by assumption. lra.
Qed.

(** C8, amended. With a positive temperature: when [top_k = 1] and the
    greatest logit is attained by one token, that token has probability 1
    in the weighted draw, and [sample] returns it unless it is token 0, in
    which case [sample] raises; when [top_k = 0] and [top_p = 0] nothing is
    truncated and the draw is from the softmax of the scaled logits. *)
Theorem sampler_truncation :
  (forall a, 0 < exp a) ->
  (forall ws g, (forall w, In w ws -> 0 <= w) -> 0 < Qsum ws ->
                0 < nth (fst (draw ws g)) ws 0) ->
  forall temperature, 0 < temperature ->
  (forall logits top_p g m M,
     nth_error logits m = Some M ->
     (forall k v, nth_error logits k = Some v -> k <> m -> v < M) ->
     (exists probs,
        obind (top_k_top_p_filter
                 (map (fun v => fdiv v (Fin temperature)) (map Fin logits)) 1 top_p)
              (fun l => Ok (softmax l)) = Ok (map Fin probs) /\
        nth m probs 0 == 1 /\
        (forall k, k <> m -> nth k probs 0 == 0)) /\
     (exists g',
        sample (map Fin logits) temperature 1 top_p g =
        if (m =? 0)%nat then Raise RuntimeError else Ok (m, g'))) /\
  (forall logits g,
     top_k_top_p_filter (map (fun v => fdiv v (Fin temperature)) logits) 0 0
       = Ok (map (fun v => fdiv v (Fin temperature)) logits) /\
     sample logits temperature 0 0 g =
     bind (multinomial (softmax (map (fun v => fdiv v (Fin temperature)) logits)))
          (fun idx => if (idx =? 0)%nat then throw RuntimeError else ret idx) g).
Proof.
  intros Hexp Hsupp temperature Ht. split.
  - intros logits top_p g m M Hm Hlt.
    assert (Hmlen : (m < length logits)%nat).
    { apply nth_error_Some. rewrite Hm. discriminate. }
    pose proof (top_k_one_probs logits temperature top_p m M Hexp Ht Hm Hlt) as Hp.
    destruct (one_hot_weights_facts logits temperature m M Hexp Hmlen)
      as (H1 & H0 & Hvalid).
    set (ws := one_hot_weights logits temperature m M) in *.
    assert (Hnn : forallb (fun a => match a with Fin q => Qle_bool 0 q | _ => false end)
                    (map Fin ws) = true /\ 0 < Qsum ws).
    { unfold valid_probs in Hvalid. apply andb_true_iff in Hvalid.
      destruct Hvalid as [Ha Hb]. split; [exact Ha|].
      rewrite fsum_fin in Hb. cbn [fgtb fzero] in Hb.
      unfold Qltb in Hb. apply negb_true_iff in Hb.
      destruct (Qlt_le_dec 0 (Qsum ws)) as [Hp'|Hn']; [exact Hp'|].
      apply Qle_bool_iff in Hn'. congruence. }
    destruct Hnn as [Hnn Hsum].
    split; [exists ws; split; [exact Hp | split; assumption]|].
    exists (snd (draw ws g)).
    destruct (top_k_top_p_filter
                (map (fun v => fdiv v (Fin temperature)) (map Fin logits)) 1 top_p)
      as [filtered| |] eqn:Ef; cbn [obind] in Hp; try discriminate.
    inversion Hp as [Hsoft]. clear Hp.
    unfold sample, bind, lift. rewrite Ef. unfold multinomial.
    rewrite Hsoft, Hvalid, map_map. cbn [weight]. rewrite map_id.
    assert (Hk : fst (draw ws g) = m).
    { destruct (Nat.eq_dec (fst (draw ws g)) m) as [E|E]; [exact E|exfalso].
      assert (Hpos : 0 < nth (fst (draw ws g)) ws 0).
      { apply Hsupp.
        - intros w Hw. apply (proj1 (forallb_forall _ _)) with (x := Fin w) in Hnn;
            [apply Qle_bool_iff; exact Hnn | apply in_map; exact Hw].
        - exact Hsum. }
      specialize (H0 _ E). lra. }
    destruct (draw ws g) as [k g'] eqn:Ed. cbn [fst snd] in *. subst k.
    destruct (m =? 0)%nat; reflexivity.
  - intros logits g. split; [reflexivity|].
    unfold sample, bind, lift. rewrite filter_disabled. reflexivity.
Qed.

(** *** The filter only masks *)

Lemma masked_refl : forall l, masked l l.
Proof.
  induction l as [|a l IH]; constructor; [left; reflexivity | exact IH].
Qed.

Lemma masked_trans : forall l1 l2 l3, masked l1 l2 -> masked l2 l3 -> masked l1 l3.
Proof.
  intros l1 l2 l3 H12. revert l3.
  induction H12 as [|a b l1 l2 Hab _ IH]; intros l3 H23; inversion H23; subst.
  - constructor.
  - constructor; [|apply IH; assumption].
    destruct Hab as [-> | ->]; [assumption|].
    match goal with H : _ = NInf \/ _ = NInf |- _ => destruct H as [-> | ->] end;
      right; reflexivity.
Qed.

Lemma masked_threshold : forall kth l,
  masked l (map (fun v => if fltb v kth then NInf else v) l).
Proof.
  intros kth l. induction l as [|a l IH]; cbn [map]; constructor; [|exact IH].
  destruct (fltb a kth); [right | left]; reflexivity.
Qed.

Lemma masked_mask_neg_inf : forall l mask,
  length mask = length l -> masked l (mask_neg_inf l mask).
Proof.
  induction l as [|a l IH]; intros [|b mask] Hlen; try discriminate.
  - constructor.
  - unfold mask_neg_inf in *. cbn. constructor.
    + destruct b; [right | left]; reflexivity.
    + apply IH. cbn in Hlen. lia.
Qed.

Lemma length_scatter_mask : forall l top_p f0 fr,
  map (fun c => fgtb c (Fin top_p)) (cumsum (softmax (map fst (sort_desc l))))
    = f0 :: fr ->
  length (scatter (false :: removelast (f0 :: fr)) (map snd (sort_desc l))
                  (false :: removelast (f0 :: fr))) = length l.
Proof.
  intros l top_p f0 fr Ef.
  unfold scatter. rewrite scatter_pairs_length. cbn [length].
  rewrite length_removelast_cons.
  apply (f_equal (@length bool)) in Ef. unfold cumsum in Ef.
  rewrite length_map, length_cumsum_from, length_softmax, length_map,
    length_sort_desc in Ef.
  cbn in Ef. lia.
Qed.

Lemma top_k_filter_masked : forall l top_k l',
  top_k_filter l top_k = Ok l' -> masked l l'.
Proof.
  intros l top_k l' H. unfold top_k_filter in H.
  destruct (0 <? top_k)%nat.
  - destruct (last_item _) as [kth|]; cbn in H; [|discriminate].
    inversion H; subst. apply masked_threshold.
  - inversion H; subst. apply masked_refl.
Qed.

Lemma top_p_filter_masked : forall l top_p l',
  top_p_filter l top_p = Ok l' -> masked l l'.
Proof.
  intros l top_p l' H. unfold top_p_filter in H.
  destruct (Qltb 0 top_p); [|inversion H; subst; apply masked_refl].
  destruct (map _ (cumsum _)) as [|f0 fr] eqn:Ef; [discriminate|].
  inversion H; subst. apply masked_mask_neg_inf.
  eapply length_scatter_mask. exact Ef.
Qed.

(** X1. Whatever [top_k] and [top_p] are, a row that comes out of
    [top_k_top_p_filter] has the length of the row that went in, and each of
    its entries is the entry that was there or minus infinity. *)
Theorem filter_only_masks :
  forall l top_k top_p l',
  top_k_top_p_filter l top_k top_p = Ok l' ->
  length l' = length l /\
  forall i b, nth_error l' i = Some b ->
    b = NInf \/ nth_error l i = Some b.
Proof.
  intros l top_k top_p l' H. unfold top_k_top_p_filter in H.
  destruct (top_k_filter l top_k) as [l1| |] eqn:E1; cbn in H; try discriminate.
  assert (Hm : masked l l').
  { eapply masked_trans; [eapply top_k_filter_masked; exact E1|].
    eapply top_p_filter_masked; exact H. }
  clear - Hm. unfold masked in Hm.
  induction Hm as [|a b l l' Hab _ IH].
  - split; [reflexivity|]. intros [|i] b H; discriminate.
  - destruct IH as [Hlen Hnth]. split; [cbn; lia|].
    intros [|i] c Hc; cbn in Hc |- *.
    + inversion Hc; subst. destruct Hab as [-> | ->]; [right | left]; reflexivity.
    + apply Hnth. exact Hc.
Qed.

(** *** The sorted row *)

Lemma sort_geb_refl : forall a, sort_geb a a = true.
Proof.
  intros [x| | |]; cbn; try reflexivity.
  rewrite Qltb_false by apply Qle_refl. reflexivity.
Qed.

Lemma sort_geb_fin : forall x y, sort_geb (Fin x) (Fin y) = Qle_bool y x.
Proof. intros x y. cbn. unfold Qltb. apply negb_involutive. Qed.

Lemma sort_geb_trans : forall a b c,
  sort_geb a b = true -> sort_geb b c = true -> sort_geb a c = true.
Proof.
  intros [x| | |] [y| | |] [z| | |] H1 H2;
    try reflexivity; try discriminate.
  rewrite sort_geb_fin in *. apply Qle_bool_iff in H1, H2. apply Qle_bool_iff.
  lra.
Qed.

Lemma insert_desc_sorted : forall a s,
  StronglySorted desc s -> StronglySorted desc (insert_desc a s).
Proof.
  intros a s Hs. induction Hs as [|b t Ht IH Hb]; cbn [insert_desc].
  - constructor; constructor.
  - destruct (sort_geb (fst a) (fst b)) eqn:E.
    + constructor; [constructor; assumption|].
      constructor; [exact E|].
      eapply Forall_impl; [|exact Hb].
      intros c Hc. unfold desc in *. eapply sort_geb_trans; eassumption.
    + constructor; [exact IH|].
      eapply Permutation_Forall; [apply Permutation_sym, insert_desc_perm|].
      constructor; [|exact Hb].
      unfold desc. apply sort_geb_total. exact E.
Qed.

Lemma sort_pairs_sorted : forall l,
  StronglySorted desc (fold_right insert_desc [] l).
Proof.
  induction l as [|a l IH]; cbn; [constructor | apply insert_desc_sorted, IH].
Qed.

(** The values of the sorted row are a rearrangement of the row. *)
Lemma sort_desc_values_perm : forall l, Permutation (map fst (sort_desc l)) l.
Proof.
  intros l. unfold sort_desc.
  eapply Permutation_trans; [apply Permutation_map, sort_pairs_perm|].
  assert (E : forall (l0 : list fval) s,
            map fst (combine l0 (seq s (length l0))) = l0).
  { induction l0 as [|a l0 IH]; intros s; cbn; [reflexivity|].
    rewrite IH. reflexivity. }
  rewrite E. apply Permutation_refl.
Qed.

Lemma sorted_values : forall s,
  StronglySorted desc s ->
  StronglySorted (fun a b => sort_geb a b = true) (map fst s).
Proof.
  intros s Hs. induction Hs as [|a t Ht IH Ha]; cbn; constructor; [exact IH|].
  apply Forall_map. exact Ha.
Qed.

Lemma last_item_app : forall (A : Type) (l : list A) a,
  last_item (l ++ [a]) = Some a.
Proof.
  intros A l a. unfold last_item, getitem.
  change (-1 <? 0)%Z with true. cbn iota.
  rewrite length_app. cbn [length].
  destruct (Z.ltb_spec (-1 + Z.of_nat (length l + 1)) 0); [lia|].
  replace (Z.to_nat (-1 + Z.of_nat (length l + 1))) with (length l) by lia.
  rewrite nth_error_app2 by lia. rewrite Nat.sub_diag. reflexivity.
Qed.

Lemma last_item_inv : forall (A : Type) (l : list A) a,
  last_item l = Some a -> exists l0, l = l0 ++ [a].
Proof.
  intros A l a H. destruct l as [|b l'].
  - discriminate.
  - destruct (@exists_last _ (b :: l')) as (l0 & c & E); [discriminate|].
    rewrite E in H |- *. rewrite last_item_app in H. inversion H; subst.
    exists l0. reflexivity.
Qed.

Lemma sorted_app_last : forall (R : fval -> fval -> Prop) l c,
  StronglySorted R (l ++ [c]) -> Forall (fun a => R a c) l.
Proof.
  intros R l c. induction l as [|a l IH]; intros H; [constructor|].
  cbn in H. apply StronglySorted_inv in H. destruct H as [Hs Ha].
  constructor; [|apply IH; exact Hs].
  apply (proj1 (Forall_forall _ _) Ha). apply in_or_app. right. left. reflexivity.
Qed.

Lemma sort_geb_not_lt : forall v c, sort_geb v c = true -> fltb v c = false.
Proof.
  intros [x| | |] [y| | |] H; cbn in *; try reflexivity; try discriminate;
    apply negb_true_iff in H; exact H.
Qed.

Lemma in_sorted_values : forall l v, In v l -> In v (map fst (sort_desc l)).
Proof.
  intros l v H. eapply Permutation_in; [apply Permutation_sym, sort_desc_values_perm|].
  exact H.
Qed.

Lemma sorted_desc_values : forall l,
  StronglySorted (fun a b => sort_geb a b = true) (map fst (sort_desc l)).
Proof. intros l. apply sorted_values. unfold sort_desc. apply sort_pairs_sorted. Qed.

Lemma sorted_prefix : forall (R : fval -> fval -> Prop) l1 l2,
  StronglySorted R (l1 ++ l2) -> StronglySorted R l1.
Proof.
  intros R l1 l2. induction l1 as [|a l1 IH]; intros H; [constructor|].
  cbn in H. apply StronglySorted_inv in H. destruct H as [Hs Ha].
  constructor; [apply IH; exact Hs|].
  apply Forall_forall. intros b Hb. apply (proj1 (Forall_forall _ _) Ha).
  apply in_or_app. left. exact Hb.
Qed.

(** Everything in a sorted row dominates its last value. *)
Lemma sorted_dominates_last : forall vals c,
  StronglySorted (fun a b => sort_geb a b = true) vals ->
  last_item vals = Some c ->
  forall v, In v vals -> sort_geb v c = true.
Proof.
  intros vals c Hs Hlast v Hv.
  apply last_item_inv in Hlast. destruct Hlast as (l0 & ->).
  apply sorted_app_last in Hs. apply in_app_or in Hv.
  destruct Hv as [Hv|[<-|[]]]; [|apply sort_geb_refl].
  apply (proj1 (Forall_forall _ _) Hs). exact Hv.
Qed.

Lemma filter_all_length : forall (f : fval -> bool) l,
  (forall v, In v l -> f v = true) -> length (filter f l) = length l.
Proof.
  intros f l. induction l as [|a l IH]; intros H; [reflexivity|].
  cbn. rewrite (H a (or_introl eq_refl)). cbn. rewrite IH; [reflexivity|].
  intros v Hv. apply H. right. exact Hv.
Qed.

Lemma perm_filter_length : forall (f : fval -> bool) l l',
  Permutation l l' -> length (filter f l) = length (filter f l').
Proof.
  intros f l l' H. induction H as [|a l l' _ IH|a b l|l1 l2 l3 _ IH1 _ IH2].
  - reflexivity.
  - cbn. destruct (f a); cbn; rewrite IH; reflexivity.
  - cbn. destruct (f a), (f b); reflexivity.
  - rewrite IH1. exact IH2.
Qed.

(** X2. A [top_k] at least as large as the row truncates nothing: on a
    non-empty row the filter answers what it answers with [top_k = 0]. *)
Theorem top_k_at_least_vocabulary :
  forall l top_k top_p,
  l <> [] -> (length l <= top_k)%nat ->
  top_k_top_p_filter l top_k top_p = top_k_top_p_filter l 0 top_p.
Proof.
  intros l top_k top_p Hne Hk.
  assert (Hlen : (0 < length l)%nat) by (destruct l; [congruence | cbn; lia]).
  unfold top_k_top_p_filter. f_equal. unfold top_k_filter.
  change (0 <? 0)%nat with false. cbn iota.
  destruct (Nat.ltb_spec 0 top_k); [|lia].
  rewrite Nat.min_r by exact Hk.
  rewrite firstn_all2 by (rewrite length_map, length_sort_desc; lia).
  destruct (last_item (map fst (sort_desc l))) as [c|] eqn:Hlast.
  - cbn [of_option obind]. f_equal.
    rewrite <- (map_id l) at 2. apply map_ext_in. intros v Hv.
    rewrite sort_geb_not_lt; [reflexivity|].
    eapply sorted_dominates_last;
      [apply sorted_desc_values | exact Hlast | apply in_sorted_values; exact Hv].
  - exfalso.
    destruct (map fst (sort_desc l)) as [|b vals] eqn:Ev.
    + apply (f_equal (@length fval)) in Ev.
      rewrite length_map, length_sort_desc in Ev. cbn in Ev. lia.
    + destruct (@exists_last _ (b :: vals)) as (l0 & c & E); [discriminate|].
      rewrite E, last_item_app in Hlast. discriminate.
Qed.

(** X3. With [top_k > 0] the top-k step masks exactly the entries below a
    threshold that is a value of the row, and at least min(top_k, size)
    entries are not below it: entries tied with the threshold all stay. *)
Theorem top_k_keeps_at_least_k :
  forall l top_k l',
  (0 < top_k)%nat ->
  top_k_top_p_filter l top_k 0 = Ok l' ->
  exists kth,
    In kth l /\
    l' = map (fun v => if fltb v kth then NInf else v) l /\
    (Nat.min top_k (length l) <= survivors kth l)%nat.
Proof.
  intros l top_k l' Hk H.
  unfold top_k_top_p_filter, top_k_filter in H.
  destruct (Nat.ltb_spec 0 top_k); [|lia].
  destruct (last_item (firstn (Nat.min top_k (length l)) (map fst (sort_desc l))))
    as [kth|] eqn:Hlast; cbn in H; [|discriminate].
  inversion H; subst l'. clear H.
  exists kth.
  pose proof (firstn_skipn (Nat.min top_k (length l)) (map fst (sort_desc l))) as Hsplit.
  pose proof (sorted_desc_values l) as Hs. rewrite <- Hsplit in Hs.
  apply sorted_prefix in Hs.
  assert (Hin : In kth (firstn (Nat.min top_k (length l)) (map fst (sort_desc l)))).
  { destruct (last_item_inv _ _ _ Hlast) as (l0 & E).
    rewrite E. apply in_or_app. right. left. reflexivity. }
  split; [|split; [reflexivity|]].
  - eapply Permutation_in; [apply sort_desc_values_perm|].
    eapply in_firstn. exact Hin.
  - unfold survivors.
    rewrite <- (perm_filter_length _ _ _ (sort_desc_values_perm l)).
    rewrite <- Hsplit at 1. rewrite filter_app, length_app.
    rewrite filter_all_length.
    + rewrite length_firstn, length_map, length_sort_desc. lia.
    + intros v Hv. apply negb_true_iff. apply sort_geb_not_lt.
      eapply sorted_dominates_last; [exact Hs | exact Hlast | exact Hv].
Qed.

Lemma mask_neg_inf_unmasked : forall l mask m,
  length mask = length l -> nth_error mask m = Some false ->
  nth_error (mask_neg_inf l mask) m = nth_error l m.
Proof.
  induction l as [|a l IH]; intros [|b mask] m Hlen Hm; try discriminate.
  - destruct m; discriminate.
  - unfold mask_neg_inf in *. destruct m as [|m]; cbn in Hm |- *.
    + inversion Hm; subst. reflexivity.
    + apply IH; [cbn in Hlen; lia | exact Hm].
Qed.

(** The head of the sorted row: a greatest entry, with its index. *)
Lemma sort_desc_greatest : forall l,
  l <> [] ->
  exists v m t,
    sort_desc l = (v, m) :: t /\ nth_error l m = Some v /\
    ~ In m (map snd t) /\ forall a, In a l -> sort_geb v a = true.
Proof.
  intros l Hne.
  destruct (sort_desc l) as [|[v m] t] eqn:Es.
  { apply (f_equal (@length (fval * nat))) in Es.
    rewrite length_sort_desc in Es. destruct l; [congruence | discriminate]. }
  exists v, m, t. split; [reflexivity|].
  assert (Hin : In (v, m) (combine l (seq 0 (length l)))).
  { eapply Permutation_in; [apply sort_pairs_perm|].
    fold (sort_desc l). rewrite Es. left. reflexivity. }
  apply in_combine_seq in Hin. destruct Hin as [_ Hm]. rewrite Nat.sub_0_r in Hm.
  split; [exact Hm|]. split.
  - assert (Hnd : NoDup (map snd ((v, m) :: t))).
    { rewrite <- Es. unfold sort_desc.
      eapply Permutation_NoDup;
        [apply Permutation_sym, Permutation_map, sort_pairs_perm|].
      rewrite map_snd_combine_seq. apply seq_NoDup. }
    cbn in Hnd. inversion Hnd. assumption.
  - intros a Ha. apply in_sorted_values in Ha. rewrite Es in Ha.
    pose proof (sorted_desc_values l) as Hs. rewrite Es in Hs. cbn in Hs, Ha.
    destruct Ha as [<-|Ha]; [apply sort_geb_refl|].
    apply StronglySorted_inv in Hs. destruct Hs as [_ Hall].
    apply (proj1 (Forall_forall _ _) Hall). exact Ha.
Qed.

Lemma top_p_filter_keeps_greatest : forall l top_p l',
  l <> [] ->
  top_p_filter l top_p = Ok l' ->
  exists m v,
    nth_error l m = Some v /\ nth_error l' m = Some v /\
    forall a, In a l -> sort_geb v a = true.
Proof.
  intros l top_p l' Hne H.
  destruct (sort_desc_greatest l Hne) as (v & m & t & Es & Hm & Hnot & Hmax).
  exists m, v. split; [exact Hm|]. split; [|exact Hmax].
  unfold top_p_filter in H.
  destruct (Qltb 0 top_p); [|inversion H; subst; exact Hm].
  destruct (map _ (cumsum _)) as [|f0 fr] eqn:Ef; [discriminate|].
  inversion H; subst l'. clear H.
  pose proof (length_scatter_mask l top_p f0 fr Ef) as Hlen.
  rewrite mask_neg_inf_unmasked; [exact Hm | exact Hlen |].
  assert (Hmlen : (m < length l)%nat).
  { apply nth_error_Some. rewrite Hm. discriminate. }
  apply (f_equal (@length bool)) in Ef. unfold cumsum in Ef.
  rewrite length_map, length_cumsum_from, length_softmax, length_map,
    length_sort_desc in Ef. cbn [length] in Ef.
  rewrite Es. unfold scatter. cbn [map snd combine fold_left fst].
  rewrite scatter_pairs_other.
  - apply nth_error_set_nth_same. cbn [length].
    change (match fr with [] => [] | _ :: _ => f0 :: removelast fr end)
      with (removelast (f0 :: fr)).
    rewrite length_removelast_cons. lia.
  - intros [i b] Hin. apply in_combine_l in Hin. cbn.
    intros ->. contradiction.
Qed.

Lemma sort_geb_ninf : forall b, sort_geb NInf b = true -> b = NInf.
Proof. intros [y| | |] H; cbn in H; try discriminate; reflexivity. Qed.

Lemma fltb_sort_geb : forall a c, fltb a c = true -> sort_geb c a = true.
Proof.
  intros [x| | |] [y| | |] H; cbn in *; try reflexivity; try discriminate.
  unfold Qltb in *. apply negb_true_iff in H. apply negb_true_iff, negb_false_iff.
  apply Qle_bool_iff.
  assert (~ y <= x) by (intros C; apply Qle_bool_iff in C; congruence). lra.
Qed.

(** X4. Neither truncation removes a greatest entry: on a non-empty row,
    some entry that is greatest in the order of [torch.sort] comes out of
    [top_k_top_p_filter] unchanged, whatever [top_k] and [top_p] are. *)
Theorem filter_keeps_greatest :
  forall l top_k top_p l',
  l <> [] ->
  top_k_top_p_filter l top_k top_p = Ok l' ->
  exists m v,
    nth_error l m = Some v /\ nth_error l' m = Some v /\
    forall a, In a l -> sort_geb v a = true.
Proof.
  intros l top_k top_p l' Hne H. unfold top_k_top_p_filter in H.
  destruct (top_k_filter l top_k) as [l1| |] eqn:E1; cbn in H; try discriminate.
  unfold top_k_filter in E1.
  destruct (0 <? top_k)%nat;
    [|inversion E1; subst l1; eapply top_p_filter_keeps_greatest; eassumption].
  destruct (last_item _) as [kth|] eqn:Hlast; cbn in E1; [|discriminate].
  inversion E1; subst l1. clear E1.
  assert (Hkth : In kth l).
  { eapply Permutation_in; [apply sort_desc_values_perm|].
    eapply in_firstn. destruct (last_item_inv _ _ _ Hlast) as (l0 & E).
    rewrite E. apply in_or_app. right. left. reflexivity. }
  assert (Hne1 : map (fun v => if fltb v kth then NInf else v) l <> []).
  { destruct l; [congruence | discriminate]. }
  destruct (top_p_filter_keeps_greatest _ _ _ Hne1 H) as (m & v & Hm & Hm' & Hmax).
  rewrite nth_error_map in Hm.
  destruct (nth_error l m) as [a|] eqn:Ea; [|discriminate].
  cbn in Hm. injection Hm as Hv.
  assert (Hvk : sort_geb v kth = true).
  { apply Hmax. apply in_map_iff. exists kth. split; [|exact Hkth].
    destruct kth as [y| | |]; cbn; try reflexivity.
    rewrite Qltb_false by apply Qle_refl. reflexivity. }
  destruct (fltb a kth) eqn:Elt.
  - exfalso. subst v. apply sort_geb_ninf in Hvk. subst kth.
    destruct a; discriminate.
  - subst v. exists m, a. split; [exact Ea|]. split; [exact Hm'|].
    intros b Hb. destruct (fltb b kth) eqn:Eb.
    + eapply sort_geb_trans; [exact Hvk | apply fltb_sort_geb; exact Eb].
    + apply Hmax. apply in_map_iff. exists b. rewrite Eb. split; [reflexivity | exact Hb].
Qed.

(** *** The sampler at its edges *)

Lemma forallb_false_in : forall (A : Type) (f : A -> bool) l x,
  In x l -> f x = false -> forallb f l = false.
Proof.
  intros A f l x Hin Hf. destruct (forallb f l) eqn:E; [|reflexivity].
  rewrite (proj1 (forallb_forall f l) E x Hin) in Hf. discriminate.
Qed.

Lemma div_by_zero_nonfin : forall v, nonfin (fdiv (Fin v) (Fin 0)).
Proof.
  intros v. cbn. destruct (Qeq_bool v 0); [exact I|].
  destruct (Qltb 0 v); exact I.
Qed.

Lemma masked_nonfin : forall l l',
  masked l l' -> (forall a, In a l -> nonfin a) -> forall b, In b l' -> nonfin b.
Proof.
  intros l l' H. induction H as [|a b l l' Hab _ IH]; intros Hl c Hc; [contradiction|].
  destruct Hc as [<-|Hc].
  - destruct Hab as [-> | ->]; [apply Hl; left; reflexivity | exact I].
  - apply IH; [|exact Hc]. intros a' Ha'. apply Hl. right. exact Ha'.
Qed.

(** The sum of the exponentials of a row without finite entries is zero,
    plus infinity or NaN. *)
Lemma fsum_fexp_nonfin : forall l,
  (forall a, In a l -> nonfin a) ->
  match fsum (map fexp l) with
  | Fin q => q == 0 /\ forall a, In a l -> a = NInf
  | PInf | NaN => True
  | NInf => False
  end.
Proof.
  induction l as [|a l IH]; intros H.
  - cbn. split; [reflexivity | intros a []].
  - assert (Ha : nonfin a) by (apply H; left; reflexivity).
    assert (Hl : forall b, In b l -> nonfin b) by (intros b Hb; apply H; right; exact Hb).
    specialize (IH Hl). cbn [map fsum fold_right]. fold (fsum (map fexp l)).
    destruct a as [x| | |]; [contradiction Ha| | |]; cbn [fexp];
      destruct (fsum (map fexp l)) as [q| | |]; cbn; try exact I; try contradiction.
    destruct IH as [Hq Hall]. split; [rewrite Hq; reflexivity|].
    intros b [<-|Hb]; [reflexivity | apply Hall; exact Hb].
Qed.

Lemma softmax_nonfin_invalid : forall l,
  (forall a, In a l -> nonfin a) -> valid_probs (softmax l) = false.
Proof.
  intros l H. unfold valid_probs.
  destruct l as [|a0 l0] eqn:El; [reflexivity|]. rewrite <- El in *.
  apply andb_false_iff. left.
  pose proof (fsum_fexp_nonfin l H) as Hs.
  unfold softmax.
  destruct (fsum (map fexp l)) as [q| | |] eqn:Es; try contradiction.
  - destruct Hs as [Hq Hall].
    apply forallb_false_in with (x := fdiv (fexp a0) (Fin q)).
    + apply (in_map (fun e => fdiv e (Fin q))), in_map. rewrite El. left. reflexivity.
    + rewrite (Hall a0) by (rewrite El; left; reflexivity). cbn.
      assert (E : Qeq_bool q 0 = true) by (apply Qeq_bool_iff; exact Hq).
      rewrite E. reflexivity.
  - assert (Hex : exists a, In a l /\ (a = PInf \/ a = NaN)).
    { clear - H Es. induction l as [|a l IH]; [discriminate|].
      assert (Ha : nonfin a) by (apply H; left; reflexivity).
      destruct a as [x| | |]; [contradiction | | |].
      - exists PInf. split; [left; reflexivity | left; reflexivity].
      - cbn [map fsum fold_right fexp] in Es. fold (fsum (map fexp l)) in Es.
        destruct (fsum (map fexp l)) as [q| | |] eqn:Es'; cbn in Es; try discriminate.
        destruct IH as (a & Hin & Ha'); [intros b Hb; apply H; right; exact Hb | reflexivity |].
        exists a. split; [right; exact Hin | exact Ha'].
      - exists NaN. split; [left; reflexivity | right; reflexivity]. }
    destruct Hex as (a & Hin & Ha).
    apply forallb_false_in with (x := fdiv (fexp a) PInf).
    + apply (in_map (fun e => fdiv e PInf)), in_map. exact Hin.
    + destruct Ha as [-> | ->]; reflexivity.
  - destruct l as [|a l']; [discriminate|].
    apply forallb_false_in with (x := fdiv (fexp a) NaN).
    + apply (in_map (fun e => fdiv e NaN)), in_map. left. reflexivity.
    + destruct (fexp a); reflexivity.
Qed.

(** X5. A temperature of zero is not greedy decoding: on any row of finite
    logits, with any [top_k] and [top_p], [sample] raises and returns no
    token. *)
Theorem sample_temperature_zero_raises :
  forall logits top_k top_p g,
  exists e, sample (map Fin logits) 0 top_k top_p g = Raise e.
Proof.
  intros logits top_k top_p g. unfold sample, bind, lift.
  destruct (top_k_top_p_filter (map (fun v => fdiv v (Fin 0)) (map Fin logits))
              top_k top_p) as [filtered|e|] eqn:Ef.
  - exists RuntimeError. unfold multinomial.
    rewrite softmax_nonfin_invalid; [reflexivity|].
    unfold top_k_top_p_filter in Ef.
    destruct (top_k_filter _ top_k) as [l1| |] eqn:E1; cbn in Ef; try discriminate.
    eapply masked_nonfin;
      [eapply masked_trans;
         [eapply top_k_filter_masked; exact E1
         | eapply top_p_filter_masked; exact Ef]|].
    intros a Ha. rewrite map_map in Ha. apply in_map_iff in Ha.
    destruct Ha as (v & <- & _). apply div_by_zero_nonfin.
  - exists e. reflexivity.
  - exfalso. eapply filter_total. exact Ef.
Qed.

Lemma valid_probs_weights : forall probs,
  valid_probs probs = true ->
  probs = map Fin (map weight probs) /\
  (forall w, In w (map weight probs) -> 0 <= w) /\
  0 < Qsum (map weight probs).
Proof.
  intros probs H. unfold valid_probs in H. apply andb_true_iff in H.
  destruct H as [Hall Hsum].
  assert (E : probs = map Fin (map weight probs) /\
              forall w, In w (map weight probs) -> 0 <= w).
  { clear Hsum. induction probs as [|a probs IH]; [split; [reflexivity | intros w []]|].
    cbn in Hall. apply andb_true_iff in Hall. destruct Hall as [Ha Hall].
    destruct (IH Hall) as [E1 E2].
    destruct a as [q| | |]; try discriminate. cbn. split.
    - f_equal. exact E1.
    - intros w [<-|Hw]; [apply Qle_bool_iff; exact Ha | apply E2; exact Hw]. }
  destruct E as [E1 E2]. split; [exact E1|]. split; [exact E2|].
  rewrite E1, fsum_fin in Hsum. cbn [fgtb fzero] in Hsum.
  unfold Qltb in Hsum. apply negb_true_iff in Hsum.
  destruct (Qlt_le_dec 0 (Qsum (map weight probs))) as [Hp|Hn]; [exact Hp|].
  apply Qle_bool_iff in Hn. congruence.
Qed.

Lemma weight_masked_zero : forall s, weight (fdiv (fexp NInf) s) == 0.
Proof.
  intros [y| | |]; cbn; try reflexivity.
  destruct (Qeq_bool y 0); cbn; [reflexivity | unfold Qdiv; ring].
Qed.

(** X6. When the weighted draw only lands on positive weights, a token
    returned by [sample] is an index of the row, and the filter has left
    its scaled logit in place: a token removed by top-k or top-p is never
    returned. *)
Theorem sample_respects_truncation :
  (forall ws g, (forall w, In w ws -> 0 <= w) -> 0 < Qsum ws ->
                0 < nth (fst (draw ws g)) ws 0) ->
  forall logits temperature top_k top_p g t g',
  sample logits temperature top_k top_p g = Ok (t, g') ->
  exists filtered a,
    top_k_top_p_filter (map (fun v => fdiv v (Fin temperature)) logits) top_k top_p
      = Ok filtered /\
    (t < length logits)%nat /\
    nth_error filtered t = Some a /\
    a <> NInf /\
    nth_error (map (fun v => fdiv v (Fin temperature)) logits) t = Some a.
Proof.
  intros Hsupp logits temperature top_k top_p g t g' H.
  unfold sample in H. bind_inv H.
  apply lift_ok_inv in Hm. destruct Hm as [Hf ->].
  bind_inv H. rename a into filtered.
  destruct (a0 =? 0)%nat; [discriminate|]. unfold ret in H. inversion H; subst a0 g0.
  unfold multinomial in Hm.
  destruct (valid_probs (softmax filtered)) eqn:Hv; [|discriminate].
  destruct (valid_probs_weights _ Hv) as (Eprobs & Hnn & Hsum).
  pose proof (Hsupp _ g Hnn Hsum) as Hpos.
  destruct (draw (map weight (softmax filtered)) g) as [k gk] eqn:Ed.
  inversion Hm; subst k gk. cbn [fst] in Hpos.
  destruct (filter_only_masks _ _ _ _ Hf) as [Hlen Hnth].
  assert (Htlen : (t < length filtered)%nat).
  { destruct (Nat.lt_ge_cases t (length filtered)) as [Hlt|Hge]; [exact Hlt|].
    rewrite nth_overflow in Hpos; [lra|].
    rewrite length_map, length_softmax. exact Hge. }
  destruct (nth_error filtered t) as [a|] eqn:Ea;
    [|apply nth_error_None in Ea; lia].
  exists filtered, a.
  assert (Hna : a <> NInf).
  { intros ->.
    assert (E : nth t (map weight (softmax filtered)) 0
                = weight (fdiv (fexp NInf) (fsum (map fexp filtered)))).
    { erewrite nth_error_nth; [reflexivity|].
      unfold softmax. rewrite !nth_error_map, Ea. reflexivity. }
    rewrite E in Hpos. pose proof (weight_masked_zero (fsum (map fexp filtered))).
    lra. }
  split; [exact Hf|]. split; [rewrite length_map in Hlen; lia|].
  split; [exact Ea|]. split; [exact Hna|].
  destruct (Hnth t a Ea) as [->|E]; [congruence | exact E].
Qed.

(** *** More on [max_fn] and [norm_logits] *)

Lemma Qsum_ge_member : forall l d,
  (forall a, In a l -> 0 <= a) -> In d l -> d <= Qsum l.
Proof.
  induction l as [|a l IH]; intros d Hnn Hin; [contradiction|].
  cbn. fold (Qsum l).
  assert (0 <= a) by (apply Hnn; left; reflexivity).
  assert (0 <= Qsum l) by (apply Qsum_nonneg; intros b Hb; apply Hnn; right; exact Hb).
  destruct Hin as [<-|Hin]; [lra|].
  assert (d <= Qsum l) by (apply IH; [intros b Hb; apply Hnn; right; exact Hb | exact Hin]).
  lra.
Qed.

Lemma clampQ_pos : forall d, 0 < d -> clampQ d = d.
Proof. intros d H. unfold clampQ. rewrite Qltb_true by exact H. reflexivity. Qed.

Lemma clampQ_nonpos : forall d, d <= 0 -> clampQ d = 0.
Proof. intros d H. unfold clampQ. rewrite Qltb_false by exact H. reflexivity. Qed.

Lemma normalized_clamp_distribution : forall ds,
  0 < Qsum (map clampQ ds) ->
  distribution (map (fun d => clampQ d / Qsum (map clampQ ds)) ds).
Proof.
  intros ds Hpos. split.
  - intros a Ha. apply in_map_iff in Ha. destruct Ha as (d & <- & _).
    apply Qle_shift_div_l; [exact Hpos|].
    rewrite Qmult_0_l. apply clampQ_nonneg.
  - rewrite <- (map_map clampQ (fun c => c / Qsum (map clampQ ds))).
    rewrite Qsum_scale. field. lra.
Qed.

(** X7. On a row of finite numbers with at least one positive entry,
    [max_fn] answers a probability distribution of the same size in which
    every entry that was not positive is zero. *)
Theorem max_fn_distribution :
  forall ds,
  (exists d, In d ds /\ 0 < d) ->
  exists res,
    max_fn (map Fin ds) = map Fin res /\
    distribution res /\
    length res = length ds /\
    (forall i d, nth_error ds i = Some d -> d <= 0 ->
       exists r, nth_error res i = Some r /\ r == 0).
Proof.
  intros ds (d0 & Hin & Hd0).
  assert (Hpos : 0 < Qsum (map clampQ ds)).
  { assert (H : clampQ d0 <= Qsum (map clampQ ds)).
    { apply Qsum_ge_member.
      - intros a Ha. apply in_map_iff in Ha. destruct Ha as (d & <- & _).
        apply clampQ_nonneg.
      - apply in_map. exact Hin. }
    rewrite clampQ_pos in H by exact Hd0. lra. }
  exists (map (fun d => clampQ d / Qsum (map clampQ ds)) ds).
  split; [apply max_fn_fin; exact Hpos|].
  split; [apply normalized_clamp_distribution; exact Hpos|].
  split; [apply length_map|].
  intros i d Hi Hd. rewrite nth_error_map, Hi. cbn.
  eexists. split; [reflexivity|].
  rewrite clampQ_nonpos by exact Hd. unfold Qdiv. ring.
Qed.

(** X8. On a row of finite numbers none of which is positive, [max_fn]
    divides zero by zero: every entry of its answer is NaN. *)
Theorem max_fn_without_positive_entry :
  forall ds,
  (forall d, In d ds -> d <= 0) ->
  max_fn (map Fin ds) = map (fun _ => NaN) ds.
Proof.
  intros ds H. unfold max_fn.
  assert (E : map (fun v => if fgtb v fzero then v else fzero) (map Fin ds)
              = map Fin (map clampQ ds)).
  { rewrite !map_map. apply map_ext. intros d. cbn. unfold clampQ.
    destruct (Qltb 0 d); reflexivity. }
  rewrite E, fsum_fin, !map_map.
  assert (Hs : Qsum (map clampQ ds) == 0).
  { clear E. induction ds as [|d ds IH]; [reflexivity|].
    cbn. fold (Qsum (map clampQ ds)).
    rewrite IH by (intros d' Hd'; apply H; right; exact Hd').
    rewrite clampQ_nonpos by (apply H; left; reflexivity). reflexivity. }
  apply map_ext_in. intros d Hd. cbn [fdiv].
  assert (E1 : Qeq_bool (Qsum (map clampQ ds)) 0 = true)
    by (apply Qeq_bool_iff; exact Hs).
  rewrite E1, clampQ_nonpos by (apply H; exact Hd). reflexivity.
Qed.

Lemma softmax_distribution : forall l,
  (forall a, 0 < exp a) -> l <> [] ->
  exists ws,
    softmax (map Fin l) = map Fin ws /\ distribution ws /\
    forall w, In w ws -> 0 < w.
Proof.
  intros l Hexp Hne.
  assert (Hpos : 0 < Qsum (map exp l)).
  { apply Qsum_pos; [destruct l; [congruence | discriminate]|].
    intros b Hb. apply in_map_iff in Hb. destruct Hb as (c & <- & _). apply Hexp. }
  exists (map (fun a => exp a / Qsum (map exp l)) l).
  split; [rewrite softmax_fin by assumption; rewrite map_map; reflexivity|].
  assert (Hall : forall w, In w (map (fun a => exp a / Qsum (map exp l)) l) -> 0 < w).
  { intros w Hw. apply in_map_iff in Hw. destruct Hw as (a & <- & _).
    apply Qlt_shift_div_l; [exact Hpos|]. rewrite Qmult_0_l. apply Hexp. }
  split; [|exact Hall]. split.
  - intros a Ha. apply Qlt_le_weak. apply Hall. exact Ha.
  - rewrite <- (map_map exp (fun c => c / Qsum (map exp l))).
    rewrite Qsum_scale. field. lra.
Qed.

(** X9. With a positive exponential, every non-empty row of
    [norm_logits] applied to finite logits is a probability distribution
    with no zero entry. *)
Theorem norm_logits_rows_are_distributions :
  (forall a, 0 < exp a) ->
  forall (logits : list (list Q)) row,
  In row (norm_logits (map (map Fin) logits)) ->
  row = [] \/
  exists ws, row = map Fin ws /\ distribution ws /\ forall w, In w ws -> 0 < w.
Proof.
  intros Hexp logits row Hin. unfold norm_logits in Hin. rewrite map_map in Hin.
  apply in_map_iff in Hin. destruct Hin as (l & <- & _).
  destruct l as [|a l]; [left; reflexivity | right].
  apply softmax_distribution; [exact Hexp | discriminate].
Qed.

(** *** The residual inside a round *)

Lemma Forall2_Qeq_nth : forall wp wq j a b,
  Forall2 Qeq wp wq -> nth_error wp j = Some a -> nth_error wq j = Some b -> a == b.
Proof.
  intros wp wq j a b H. revert j.
  induction H as [|x y wp wq Hxy _ IH]; intros [|j] Ha Hb; cbn in *; try discriminate.
  - inversion Ha; inversion Hb; subst. exact Hxy.
  - eapply IH; eassumption.
Qed.

Lemma nth_error_diffs : forall wp wq j a b,
  nth_error wp j = Some a -> nth_error wq j = Some b ->
  nth_error (diffs wp wq) j = Some (a + - b).
Proof.
  induction wp as [|x wp IH]; intros [|y wq] [|j] a b Ha Hb; cbn in *;
    try discriminate.
  - inversion Ha; inversion Hb; subst. reflexivity.
  - apply IH; assumption.
Qed.

Lemma nth_error_map_fin : forall ws j v,
  nth_error (map Fin ws) j = Some v -> exists a, v = Fin a /\ nth_error ws j = Some a.
Proof.
  intros ws j v H. rewrite nth_error_map in H.
  destruct (nth_error ws j) as [a|]; [|discriminate].
  cbn in H. inversion H. exists a. split; reflexivity.
Qed.

(** A row of [norm_logits] that has an entry is a distribution. *)
Lemma norm_logits_row_distribution : forall (logits : list (list Q)) n row j v,
  (forall a, 0 < exp a) ->
  getitem (norm_logits (map (map Fin) logits)) n = Some row ->
  nth_error row j = Some v ->
  exists ws, row = map Fin ws /\ distribution ws /\ forall w, In w ws -> 0 < w.
Proof.
  intros logits n row j v Hexp Hrow Hv.
  apply getitem_In in Hrow. unfold norm_logits in Hrow. rewrite map_map in Hrow.
  apply in_map_iff in Hrow. destruct Hrow as (l & <- & _).
  apply softmax_distribution; [exact Hexp|].
  intros ->. destruct j; discriminate.
Qed.

Lemma ratio_below_one : forall a b r,
  0 < b -> r <= 1 -> fgtb (Fin r) (fdiv (Fin a) (Fin b)) = true -> a < b.
Proof.
  intros a b r Hb Hr H. cbn [fdiv] in H.
  rewrite Qeq_bool_pos_false in H by exact Hb. cbn [fgtb] in H.
  unfold Qltb in H. apply negb_true_iff in H.
  assert (Hlt : a / b < r).
  { destruct (Qlt_le_dec (a / b) r) as [Hl|Hl]; [exact Hl|].
    apply Qle_bool_iff in Hl. congruence. }
  assert (E : a / b * b == a) by (field; lra).
  assert (a / b * b < 1 * b) by (apply Qmult_lt_compat_r; [exact Hb | lra]).
  lra.
Qed.

(** X10. With a positive exponential and uniform draws that do not exceed
    1, the division in [max_fn] is never zero by zero inside the
    orchestrator: in a round that stops at a rejection, the row handed to
    [sample] is a probability distribution, and in it the rejected token
    has probability zero. *)
Theorem rejecting_round_residual :
  (forall a, 0 < exp a) ->
  (forall g0, fst (rand g0) <= 1) ->
  forall approx_model target_model gamma temperature top_k top_p prefix g out g3,
  spec_round approx_model target_model gamma temperature top_k top_p prefix g
    = Ok (out, g3) ->
  exists x lq g1 n g2 t,
    draft_loop gamma approx_model temperature top_k top_p prefix None g
      = Ok ((x, Some lq), g1) /\
    accept_loop gamma 0 gamma (length prefix) x
      (norm_logits (logits_of target_model x)) (norm_logits lq) g1 = Ok (n, g2) /\
    out = firstn (Z.to_nat (n + 1)) x ++ [t] /\
    ((n < Z.of_nat (length prefix) + Z.of_nat gamma - 1)%Z ->
     exists pn qn d res j,
       getitem (norm_logits (logits_of target_model x)) n = Some pn /\
       getitem (norm_logits lq) n = Some qn /\
       row_sub pn qn = Ok d /\
       max_fn d = map Fin res /\
       distribution res /\
       getitem x (n + 1) = Some j /\
       (exists r, nth_error res j = Some r /\ r == 0) /\
       sample (map Fin res) temperature top_k top_p g2 = Ok (t, g3)).
Proof.
  intros Hexp Hrand approx_model target_model gamma temperature top_k top_p
    prefix g out g3 H.
  apply spec_round_inv in H.
  destruct H as (x & lq & g1 & n & g2 & t & Hd & Ha & Ht & Hout).
  exists x, lq, g1, n, g2, t.
  split; [exact Hd|]. split; [exact Ha|]. split; [exact Hout|].
  intros Hlt.
  pose proof (draft_loop_inv _ _ _ _ _ _ _ _ _ _ _ Hd)
    as (toks & Hx & Hlen & _ & Hq0 & Hq).
  assert (Hg : (0 < gamma)%nat).
  { destruct gamma; [|lia]. specialize (Hq0 eq_refl). discriminate. }
  specialize (Hq Hg). injection Hq as Hlq. clear Hq0.
  apply accept_loop_char in Ha.
  destruct Ha as [(m & Hm & _ & (rho & Hr & Hcmp) & Hn & _)|(_ & Hn & _)]; [|lia].
  cbn [Nat.add] in Hr, Hn.
  unfold ratio_at in Hr.
  destruct (getitem x (Z.of_nat (length prefix + m))) as [j|] eqn:Ej;
    cbn in Hr; [|discriminate].
  rewrite <- Hn in Hr.
  unfold entry in Hr.
  destruct (getitem (norm_logits (logits_of target_model x)) n) as [pn|] eqn:Epn;
    cbn in Hr; [|discriminate].
  destruct (getitem pn (Z.of_nat j)) as [pj|] eqn:Epj; cbn in Hr; [|discriminate].
  destruct (getitem (norm_logits lq) n) as [qn|] eqn:Eqn; cbn in Hr; [|discriminate].
  destruct (getitem qn (Z.of_nat j)) as [qj|] eqn:Eqj; cbn in Hr; [|discriminate].
  inversion Hr; subst rho. clear Hr.
  rewrite getitem_nonneg in Epj, Eqj.
  unfold logits_of in Epn. rewrite Hlq in Eqn. unfold logits_of in Eqn.
  destruct (norm_logits_row_distribution _ _ _ _ _ Hexp Epn Epj)
    as (wp & -> & [Hpnn Hpsum] & _).
  destruct (norm_logits_row_distribution _ _ _ _ _ Hexp Eqn Eqj)
    as (wq & -> & [Hqnn Hqsum] & Hqpos).
  apply nth_error_map_fin in Epj. destruct Epj as (a & -> & Ea).
  apply nth_error_map_fin in Eqj. destruct Eqj as (b & -> & Eb).
  assert (Hb : 0 < b) by (apply Hqpos; eapply nth_error_In; exact Eb).
  assert (Hab : a < b) by (eapply ratio_below_one; [exact Hb | apply Hrand | exact Hcmp]).
  unfold next_token in Ht.
  destruct (Z.ltb_spec n (Z.of_nat (length prefix) + Z.of_nat gamma - 1)); [|lia].
  fold (logits_of target_model x) in Epn.
  unfold bind, lift in Ht. rewrite Epn in Ht. cbn [of_option] in Ht.
  rewrite Hlq in Ht. unfold logits_of in Ht. rewrite Eqn in Ht.
  cbn [of_option] in Ht.
  destruct (row_sub (map Fin wp) (map Fin wq)) as [d| |] eqn:Esub; try discriminate.
  assert (Hlenpq : length wp = length wq).
  { unfold row_sub in Esub. rewrite !length_map in Esub.
    destruct (Nat.eqb_spec (length wp) (length wq)); [assumption | discriminate]. }
  rewrite row_sub_fin in Esub by exact Hlenpq. inversion Esub; subst d. clear Esub.
  assert (Hpos : 0 < Qsum (map clampQ (diffs wp wq))).
  { apply diffs_clamp_pos; [exact Hlenpq | |].
    - rewrite Qsum_diffs by exact Hlenpq. lra.
    - intros C. pose proof (Forall2_Qeq_nth _ _ _ _ _ C Ea Eb). lra. }
  exists (map Fin wp), (map Fin wq), (map Fin (diffs wp wq)),
    (map (fun d => clampQ d / Qsum (map clampQ (diffs wp wq))) (diffs wp wq)), j.
  split; [reflexivity|].
  split; [reflexivity|].
  split; [apply row_sub_fin; exact Hlenpq|].
  split; [apply max_fn_fin; exact Hpos|].
  split; [apply normalized_clamp_distribution; exact Hpos|].
  split.
  { replace (n + 1)%Z with (Z.of_nat (length prefix + m)) by lia. exact Ej. }
  split.
  { rewrite nth_error_map, (nth_error_diffs _ _ _ _ _ Ea Eb). cbn.
    eexists. split; [reflexivity|].
    rewrite clampQ_nonpos by lra. unfold Qdiv. ring. }
  rewrite <- max_fn_fin by exact Hpos. exact Ht.
Qed.

(** *** The orchestrator at its edges *)

(** X11. With [gamma = 0] nothing is drafted and [q] is never bound: as
    soon as one token is requested, [speculative_sampling] raises
    [UnboundLocalError] in its first round. *)
Theorem gamma_zero_raises :
  forall fuel prefix approx_model target_model max_len temperature top_k top_p g,
  (1 <= max_len)%nat ->
  speculative_sampling (S fuel) prefix approx_model target_model max_len 0
    temperature top_k top_p g = Raise UnboundLocalError.
Proof.
  intros fuel prefix approx_model target_model max_len temperature top_k top_p g H.
  unfold speculative_sampling. simpl.
  destruct (Nat.ltb_spec (length prefix) (length prefix + max_len)); [|lia].
  reflexivity.
Qed.

(** X12. On an empty prefix, with an oracle that answers no row for no
    token, both generators raise [IndexError] at their first look at the
    last position, as soon as one token is requested. *)
Theorem empty_prefix_raises :
  forall fuel model target_model N gamma temperature top_k top_p g,
  model [] = [] ->
  (1 <= N)%nat ->
  autoregressive_sampling (S fuel) [] model N temperature top_k top_p g
    = Raise IndexError /\
  ((1 <= gamma)%nat ->
   speculative_sampling (S fuel) [] model target_model N gamma
     temperature top_k top_p g = Raise IndexError).
Proof.
  intros fuel model target_model N gamma temperature top_k top_p g Hm HN. split.
  - unfold autoregressive_sampling, len_batch. simpl.
    destruct (Nat.ltb_spec 1 (S N)); [|lia].
    unfold bind, lift, logits_of. rewrite Hm. reflexivity.
  - intros Hg. unfold speculative_sampling. simpl.
    destruct (Nat.ltb_spec 0 N); [|lia].
    destruct gamma as [|gamma]; [lia|].
    unfold bind, spec_round. cbn [draft_loop]. unfold bind, lift, logits_of.
    rewrite Hm. reflexivity.
Qed.

Lemma spec_loop_rounds : forall approx_model target_model gamma temperature top_k
    top_p T fuel prefix g out g',
  spec_loop fuel approx_model target_model gamma temperature top_k top_p T prefix g
    = Ok (out, g') ->
  (T <= length prefix + fuel * (gamma + 1))%nat.
Proof.
  intros approx_model target_model gamma temperature top_k top_p T fuel.
  induction fuel as [|fuel IH]; intros prefix g out g' H.
  - simpl in H. destruct (Nat.ltb_spec (length prefix) T); [discriminate | lia].
  - simpl in H. destruct (Nat.ltb_spec (length prefix) T); [|lia].
    bind_inv H. apply spec_round_length in Hm. apply IH in H. lia.
Qed.

(** X13. A run that has returned within [fuel] rounds was asked for at
    most fuel * (gamma + 1) tokens: the loop needs at least
    max_len / (gamma + 1) rounds. *)
Theorem rounds_lower_bound :
  forall fuel prefix approx_model target_model max_len gamma temperature top_k
    top_p g out g',
  speculative_sampling fuel prefix approx_model target_model max_len gamma
    temperature top_k top_p g = Ok (out, g') ->
  (max_len <= fuel * (gamma + 1))%nat.
Proof.
  intros fuel prefix approx_model target_model max_len gamma temperature top_k
    top_p g out g' H.
  unfold speculative_sampling in H. apply spec_loop_rounds in H. lia.
Qed.

Lemma fgtb_ratio_at_least_one : forall r rho,
  r <= 1 -> fleb (Fin 1) rho = true -> fgtb (Fin r) rho = false.
Proof.
  intros r [y| | |] Hr H; cbn in *; try reflexivity; try discriminate.
  apply Qle_bool_iff in H. apply Qltb_false. lra.
Qed.

Lemma accept_loop_all : forall gamma prefix_len x p q k i g,
  (forall g0, fst (rand g0) <= 1) ->
  (forall m, (m < k)%nat -> exists rho,
     ratio_at p q x prefix_len (i + m) = Ok rho /\ fleb (Fin 1) rho = true) ->
  accept_loop k i gamma prefix_len x p q g =
  Ok ((Z.of_nat prefix_len + Z.of_nat gamma - 1)%Z, rand_state k g).
Proof.
  intros gamma prefix_len x p q k.
  induction k as [|k IH]; intros i g Hrand H; [reflexivity|].
  rewrite accept_loop_step.
  destruct (H 0%nat) as (rho & Hr & Hge); [lia|].
  rewrite Nat.add_0_r in Hr. rewrite Hr.
  rewrite fgtb_ratio_at_least_one by (apply Hrand || exact Hge).
  rewrite IH; [reflexivity | exact Hrand |].
  intros m Hm. destruct (H (S m)) as (rho' & Hr' & Hge'); [lia|].
  exists rho'. rewrite Nat.add_succ_l, <- Nat.add_succ_r. split; assumption.
Qed.

(** X14. When the target probability is at least the draft probability
    for each of the gamma drafted tokens, the scan accepts them all whatever
    the uniform draws are, as long as none exceeds 1: the boundary is
    prefix_len + gamma - 1 and gamma draws have been taken. *)
Theorem full_acceptance :
  (forall g0, fst (rand g0) <= 1) ->
  forall gamma prefix_len x p q g,
  (forall i, (i < gamma)%nat -> exists rho,
     ratio_at p q x prefix_len i = Ok rho /\ fleb (Fin 1) rho = true) ->
  accept_loop gamma 0 gamma prefix_len x p q g =
  Ok ((Z.of_nat prefix_len + Z.of_nat gamma - 1)%Z, rand_state gamma g).
Proof.
  intros Hrand gamma prefix_len x p q g H.
  apply accept_loop_all; [exact Hrand|]. intros m Hm. apply H. exact Hm.
Qed.

(** X15. A drafted token to which the target gives probability zero, and
    the draft a positive one, is rejected on every positive draw, and the
    scan stops there; on a draw of exactly 0 it is accepted and the scan
    goes on. *)
Theorem zero_target_probability :
  forall gamma prefix_len x p q k i g j a b,
  getitem x (Z.of_nat (prefix_len + i)) = Some j ->
  entry p (Z.of_nat prefix_len + Z.of_nat i - 1) j = Ok (Fin a) ->
  a == 0 ->
  entry q (Z.of_nat prefix_len + Z.of_nat i - 1) j = Ok (Fin b) ->
  0 < b ->
  (0 < fst (rand g) ->
   accept_loop (S k) i gamma prefix_len x p q g =
   Ok ((Z.of_nat prefix_len + Z.of_nat i - 1)%Z, snd (rand g))) /\
  (fst (rand g) <= 0 ->
   accept_loop (S k) i gamma prefix_len x p q g =
   accept_loop k (S i) gamma prefix_len x p q (snd (rand g))).
Proof.
  intros gamma prefix_len x p q k i g j a b Hj Hp Ha Hq Hb.
  rewrite accept_loop_step. unfold ratio_at.
  rewrite Hj. cbn [of_option obind]. rewrite Hp. cbn [obind].
  rewrite Hq. cbn [obind fdiv].
  rewrite Qeq_bool_pos_false by exact Hb. cbn [fgtb].
  assert (E : a / b == 0) by (rewrite Ha; unfold Qdiv; ring).
  split; intros Hr.
  - rewrite Qltb_true by lra. reflexivity.
  - rewrite Qltb_false by lra. reflexivity.
Qed.

(** *** Composition *)

Lemma ar_steps_app : forall model temperature top_k top_p N M x g,
  ar_steps (N + M) model temperature top_k top_p x g =
  bind (ar_steps N model temperature top_k top_p x)
       (fun x' => ar_steps M model temperature top_k top_p x') g.
Proof.
  intros model temperature top_k top_p N.
  induction N as [|N IH]; intros M x g; [reflexivity|].
  cbn [Nat.add ar_steps]. unfold bind.
  destruct (lift (of_option IndexError (last_item (logits_of model x))) g)
    as [[row g1]| |]; try reflexivity.
  destruct (sample row temperature top_k top_p g1) as [[tok g2]| |];
    try reflexivity.
  rewrite IH. unfold bind. reflexivity.
Qed.

(** X16. Generating N + M tokens is generating N tokens and then M more
    from the sequence and the generator state the first run has left. *)
Theorem autoregressive_composes :
  forall fuel x model N M temperature top_k top_p g,
  (N + M <= fuel)%nat ->
  autoregressive_sampling fuel x model (N + M) temperature top_k top_p g =
  match autoregressive_sampling fuel x model N temperature top_k top_p g with
  | Ok (x', g') => autoregressive_sampling fuel x' model M temperature top_k top_p g'
  | Raise e => Raise e
  | Diverge => Diverge
  end.
Proof.
  intros fuel x model N M temperature top_k top_p g Hfuel.
  unfold autoregressive_sampling, len_batch.
  rewrite !ar_loop_steps by lia. rewrite ar_steps_app. unfold bind.
  destruct (ar_steps N model temperature top_k top_p x g) as [[x' g']| |];
    try reflexivity.
  rewrite ar_loop_steps by lia. reflexivity.
Qed.

(** X17. The drafting loop of a round is the autoregressive generator on
    the draft oracle with N = gamma: same sequence, same generator state;
    and the logits it keeps are those of the draft oracle on the drafted
    sequence without its last token. *)
Theorem drafting_is_autoregressive :
  forall approx_model gamma temperature top_k top_p prefix g,
  autoregressive_sampling gamma prefix approx_model gamma temperature top_k top_p g =
  match draft_loop gamma approx_model temperature top_k top_p prefix None g with
  | Ok ((x, _), g1) => Ok (x, g1)
  | Raise e => Raise e
  | Diverge => Diverge
  end /\
  (forall x q g1,
     draft_loop gamma approx_model temperature top_k top_p prefix None g
       = Ok ((x, q), g1) ->
     (0 < gamma)%nat ->
     q = Some (logits_of approx_model (removelast x)) /\
     length x = (length prefix + gamma)%nat).
Proof.
  intros approx_model gamma temperature top_k top_p prefix g. split.
  - unfold autoregressive_sampling, len_batch.
    rewrite ar_loop_steps by lia. apply draft_loop_steps.
  - intros x q g1 H Hg.
    destruct (draft_loop_inv _ _ _ _ _ _ _ _ _ _ _ H)
      as (toks & Hx & Hlen & _ & _ & Hq).
    split; [apply Hq; exact Hg|]. rewrite Hx, length_app. lia.
Qed.

(** *** The assertions *)

Lemma lift_of_option_not_assert : forall (A : Type) (o : option A) (g : G),
  lift (of_option IndexError o) g <> Raise AssertionError.
Proof. intros A [a|] g; cbn; discriminate. Qed.

Lemma filter_not_assert : forall l top_k top_p,
  top_k_top_p_filter l top_k top_p <> Raise AssertionError.
Proof.
  intros l top_k top_p. unfold top_k_top_p_filter, top_k_filter, top_p_filter.
  destruct (0 <? top_k)%nat.
  - destruct (last_item _); cbn; [|discriminate].
    destruct (Qltb 0 top_p); [|discriminate]. destruct (map _ (cumsum _)); discriminate.
  - cbn. destruct (Qltb 0 top_p); [|discriminate]. destruct (map _ (cumsum _)); discriminate.
Qed.

Lemma sample_not_assert : forall logits temperature top_k top_p g,
  sample logits temperature top_k top_p g <> Raise AssertionError.
Proof.
  intros logits temperature top_k top_p g. unfold sample, bind, lift.
  pose proof (filter_not_assert
                (map (fun v => fdiv v (Fin temperature)) logits) top_k top_p) as Hf.
  destruct (top_k_top_p_filter _ top_k top_p) as [l|e|]; [|congruence|discriminate].
  unfold multinomial. destruct (valid_probs (softmax l)); [|discriminate].
  destruct (draw _ g) as [k g']. destruct (k =? 0)%nat; discriminate.
Qed.

Lemma draft_loop_not_assert : forall approx_model temperature top_k top_p k x q g,
  draft_loop k approx_model temperature top_k top_p x q g <> Raise AssertionError.
Proof.
  intros approx_model temperature top_k top_p k.
  induction k as [|k IH]; intros x q g; [discriminate|].
  cbn [draft_loop]. unfold bind.
  pose proof (lift_of_option_not_assert _ (last_item (logits_of approx_model x)) g) as H1.
  destruct (lift (of_option IndexError (last_item (logits_of approx_model x))) g)
    as [[row g1]|e|]; [|congruence|discriminate].
  pose proof (sample_not_assert row temperature top_k top_p g1) as H2.
  destruct (sample row temperature top_k top_p g1) as [[tok g2]|e|];
    [apply IH | congruence | discriminate].
Qed.

Lemma ratio_at_not_assert : forall p q x prefix_len i,
  ratio_at p q x prefix_len i <> Raise AssertionError.
Proof.
  intros p q x prefix_len i. unfold ratio_at, entry.
  destruct (getitem x _); cbn; [|discriminate].
  destruct (getitem p _) as [row|]; cbn; [|discriminate].
  destruct (getitem row _); cbn; [|discriminate].
  destruct (getitem q _) as [row'|]; cbn; [|discriminate].
  destruct (getitem row' _); cbn; discriminate.
Qed.

Lemma accept_loop_not_assert : forall gamma prefix_len x p q k i g,
  accept_loop k i gamma prefix_len x p q g <> Raise AssertionError.
Proof.
  intros gamma prefix_len x p q k.
  induction k as [|k IH]; intros i g; [discriminate|].
  rewrite accept_loop_step.
  pose proof (ratio_at_not_assert p q x prefix_len i) as Hr.
  destruct (ratio_at p q x prefix_len i) as [rho|e|]; [|congruence|discriminate].
  destruct (fgtb _ rho); [discriminate | apply IH].
Qed.

(** X18. The assertion of line 129 never fails, and that of line 140
    fails only on a shape the target oracle got wrong: a round raises
    [AssertionError] only after accepting every drafted token, when the
    target oracle has not answered one row per token. *)
Theorem assertion_failure :
  forall approx_model target_model gamma temperature top_k top_p prefix g,
  spec_round approx_model target_model gamma temperature top_k top_p prefix g
    = Raise AssertionError ->
  exists x lq g1 g2,
    draft_loop gamma approx_model temperature top_k top_p prefix None g
      = Ok ((x, Some lq), g1) /\
    accept_loop gamma 0 gamma (length prefix) x
      (norm_logits (logits_of target_model x)) (norm_logits lq) g1
      = Ok ((Z.of_nat (length prefix) + Z.of_nat gamma - 1)%Z, g2) /\
    length x = (length prefix + gamma)%nat /\
    length (target_model x) <> length x.
Proof.
  intros approx_model target_model gamma temperature top_k top_p prefix g H.
  unfold spec_round, bind in H.
  pose proof (draft_loop_not_assert approx_model temperature top_k top_p gamma
                prefix None g) as Hd.
  destruct (draft_loop gamma approx_model temperature top_k top_p prefix None g)
    as [[[x [lq|]] g1]|e|] eqn:Ed; cbn [fst snd] in H;
    try discriminate; [|congruence].
  pose proof (accept_loop_not_assert gamma (length prefix) x
                (norm_logits (logits_of target_model x)) (norm_logits lq)
                gamma 0 g1) as Ha.
  destruct (accept_loop gamma 0 gamma (length prefix) x _ _ g1)
    as [[n g2]|e|] eqn:Ea; [|congruence|discriminate].
  pose proof (accept_loop_bounds _ _ _ _ _ _ _ _ _ _ (Nat.add_0_l gamma) Ea) as Hb.
  destruct (Z.ltb_spec n (Z.of_nat (length prefix) - 1)); [lia|].
  pose proof (draft_loop_inv _ _ _ _ _ _ _ _ _ _ _ Ed) as (toks & Hx & Hlen & _).
  assert (Hxlen : length x = (length prefix + gamma)%nat).
  { rewrite Hx, length_app. lia. }
  unfold next_token in H.
  destruct (Z.ltb_spec n (Z.of_nat (length prefix) + Z.of_nat gamma - 1)).
  - exfalso. unfold bind in H.
    pose proof (lift_of_option_not_assert _
                  (getitem (norm_logits (logits_of target_model x)) n) g2) as Hna1.
    destruct (lift (of_option IndexError
                (getitem (norm_logits (logits_of target_model x)) n)) g2)
      as [[pn g3]|e|]; [|congruence|discriminate].
    pose proof (lift_of_option_not_assert _ (getitem (norm_logits lq) n) g3) as Hna2.
    destruct (lift (of_option IndexError (getitem (norm_logits lq) n)) g3)
      as [[qn g4]|e|]; [|congruence|discriminate].
    unfold lift, row_sub in H.
    destruct (length pn =? length qn)%nat; [|discriminate].
    pose proof (sample_not_assert
                  (max_fn (map (fun ab : fval * fval => fsub (fst ab) (snd ab))
                               (combine pn qn))) temperature top_k top_p g4) as Hna3.
    destruct (sample _ temperature top_k top_p g4) as [[t g5]|e|];
      [discriminate | congruence | discriminate].
  - assert (Hn : n = (Z.of_nat (length prefix) + Z.of_nat gamma - 1)%Z) by lia.
    exists x, lq, g1, g2. rewrite <- Hn.
    split; [first [reflexivity | exact Ed]|].
    split; [first [reflexivity | exact Ea]|]. split; [exact Hxlen|].
    destruct (Z.eqb_spec n (Z.of_nat (length (norm_logits (logits_of target_model x))) - 1))
      as [E|E].
    + exfalso. unfold bind in H.
      pose proof (lift_of_option_not_assert _
                    (last_item (norm_logits (logits_of target_model x))) g2) as Hna1.
      destruct (lift (of_option IndexError
                  (last_item (norm_logits (logits_of target_model x)))) g2)
        as [[row g3]|e|]; [|congruence|discriminate].
      pose proof (sample_not_assert row temperature top_k top_p g3) as Hna3.
      destruct (sample row temperature top_k top_p g3) as [[t g5]|e|];
        [discriminate | congruence | discriminate].
    + unfold norm_logits, logits_of in E. rewrite !length_map in E. lia.
Qed.

End Sampling.

Arguments ret {G A} a _.
Arguments throw {G A} e _.
Arguments lift {G A} o _.
Arguments bind {G A B} m k _.
Arguments multinomial {G} draw probs _.
Arguments sample {G} draw exp logits temperature top_k top_p _.
Arguments ar_loop {G} draw exp fuel model temperature top_k top_p n T x _.
Arguments autoregressive_sampling {G} draw exp fuel x model N temperature top_k top_p _.
Arguments ar_steps {G} draw exp N model temperature top_k top_p x _.
Arguments draft_loop {G} draw exp k approx_model temperature top_k top_p x q _.
Arguments accept_loop {G} rand k i gamma prefix_len x p q _.
Arguments next_token {G} draw exp n prefix_len gamma p q temperature top_k top_p _.
Arguments spec_round {G} rand draw exp approx_model target_model gamma temperature
  top_k top_p prefix _.
Arguments spec_loop {G} rand draw exp fuel approx_model target_model gamma
  temperature top_k top_p T prefix _.
Arguments speculative_sampling {G} rand draw exp fuel prefix approx_model
  target_model max_len gamma temperature top_k top_p _.
Arguments rand_state {G} rand k g.
Arguments rand_draw {G} rand k g.

(** ** The concrete generator meets the assumptions made of the library *)

Lemma tape_exp_pos : forall a, 0 < Tape.exp a.
Proof.
  intros a. unfold Tape.exp.
  destruct (Qle_bool 0 a) eqn:E.
  - apply Qle_bool_iff in E. lra.
  - assert (Ha : ~ 0 <= a) by (intros C; apply Qle_bool_iff in C; congruence).
    apply Qinv_lt_0_compat. lra.
Qed.

Lemma tape_frac_range : forall u, 0 <= Tape.frac u /\ Tape.frac u < 1.
Proof.
  intros u. unfold Tape.frac.
  pose proof (Qfloor_le u) as H1. pose proof (Qlt_floor u) as H2.
  rewrite inject_Z_plus in H2. change (inject_Z 1) with 1 in H2.
  split; lra.
Qed.

Lemma tape_rand_range : forall g, 0 <= fst (Tape.rand g) /\ fst (Tape.rand g) < 1.
Proof.
  intros [|u t]; cbn; [split; lra | apply tape_frac_range].
Qed.

Lemma tape_rand_le_1 : forall g, fst (Tape.rand g) <= 1.
Proof. intros g. destruct (tape_rand_range g). lra. Qed.

Lemma tape_pick_pos : forall ws u i,
  0 <= u -> u < Qsum ws ->
  exists k, Tape.pick ws u i = (i + k)%nat /\ 0 < nth k ws 0.
Proof.
  induction ws as [|w t IH]; intros u i Hu Hlt; cbn in Hlt; [lra|].
  fold (Qsum t) in Hlt. cbn [Tape.pick].
  destruct (Qltb u w) eqn:E.
  - exists 0%nat. split; [lia|]. cbn. unfold Qltb in E. apply negb_true_iff in E.
    assert (~ w <= u) by (intros C; apply Qle_bool_iff in C; congruence). lra.
  - unfold Qltb in E. apply negb_false_iff, Qle_bool_iff in E.
    destruct (IH (u - w) (S i)) as (k & Hk & Hpos); [lra | lra |].
    exists (S k). split; [lia | exact Hpos].
Qed.

Lemma tape_draw_support : forall ws g,
  (forall w, In w ws -> 0 <= w) -> 0 < Qsum ws ->
  0 < nth (fst (Tape.draw ws g)) ws 0.
Proof.
  intros ws g _ Hsum. unfold Tape.draw.
  pose proof (tape_rand_range g) as [H0 H1].
  destruct (Tape.rand g) as [u g']. cbn [fst] in *.
  destruct (tape_pick_pos ws (u * Qsum ws) 0) as (k & Hk & Hpos).
  - apply Qmult_le_0_compat; lra.
  - assert (u * Qsum ws < 1 * Qsum ws)
      by (apply Qmult_lt_compat_r; assumption).
    lra.
  - rewrite Hk. exact Hpos.
Qed.

Lemma const_oracle_causal : forall row, causal (const_oracle row).
Proof.
  intros row x y k Hk. unfold const_oracle.
  rewrite !nth_error_map, nth_error_app1 by exact Hk. reflexivity.
Qed.

(** ** Concrete runs *)

(** A round that rejects its first drafted token. *)
Lemma acceptance_with_positive_exponential_witness :
  let prefix := [1%nat] in
  let out := [1%nat; 1%nat] in
  let g3 := [7#10] in
  spec_round Tape.rand Tape.draw Tape.exp Run.approx Run.target 2 1 0 0 prefix
    Run.tape5 = Ok (out, g3) /\
  exists x lq g1 n g2 t,
    draft_loop Tape.draw Tape.exp 2 Run.approx 1 0 0 prefix None Run.tape5
      = Ok ((x, Some lq), g1) /\
    length x = (length prefix + 2)%nat /\
    ((exists i, (i < 2)%nat /\
        (forall k, (k < i)%nat ->
           accepted (norm_logits Tape.exp (logits_of Run.target x))
                    (norm_logits Tape.exp lq)
                    x (length prefix) k (rand_draw Tape.rand k g1)) /\
        rejected (norm_logits Tape.exp (logits_of Run.target x))
                 (norm_logits Tape.exp lq)
                 x (length prefix) i (rand_draw Tape.rand i g1) /\
        n = (Z.of_nat (length prefix) + Z.of_nat i - 1)%Z /\
        g2 = rand_state Tape.rand (S i) g1)
     \/
     ((forall k, (k < 2)%nat ->
           accepted (norm_logits Tape.exp (logits_of Run.target x))
                    (norm_logits Tape.exp lq)
                    x (length prefix) k (rand_draw Tape.rand k g1)) /\
      n = (Z.of_nat (length prefix) + Z.of_nat 2 - 1)%Z /\
      g2 = rand_state Tape.rand 2 g1)) /\
    out = firstn (Z.to_nat (n + 1)) x ++ [t] /\
    Z.of_nat (length (firstn (Z.to_nat (n + 1)) x)) = (n + 1)%Z.
Proof.
  cbv zeta. split; [vm_compute; reflexivity|].
  apply (acceptance_with_positive_exponential Tape.G Tape.rand Tape.draw Tape.exp tape_exp_pos
           Run.approx Run.target 2 1 0 0 [1%nat] Run.tape5 [1%nat; 1%nat] [7#10]).
  vm_compute. reflexivity.
Defined.

(** A round with one drafted token, which it rejects. *)
Lemma verification_boundary_witness :
  let prefix := [1%nat] in
  let out := [1%nat; 2%nat] in
  spec_round Tape.rand Tape.draw Tape.exp Run.approx Run.target 1 1 0 0 prefix
    Run.tape_reject = Ok (out, []) /\
  exists x lq g1 n g2 t,
    draft_loop Tape.draw Tape.exp 1 Run.approx 1 0 0 prefix None Run.tape_reject
      = Ok ((x, Some lq), g1) /\
    length x = (length prefix + 1)%nat /\
    ((exists i, (i < 1)%nat /\
        (forall k, (k < i)%nat ->
           passes (norm_logits Tape.exp (logits_of Run.target x))
                  (norm_logits Tape.exp lq)
                  x (length prefix) k (rand_draw Tape.rand k g1)) /\
        fails (norm_logits Tape.exp (logits_of Run.target x))
              (norm_logits Tape.exp lq)
              x (length prefix) i (rand_draw Tape.rand i g1) /\
        n = (Z.of_nat (length prefix) + Z.of_nat i - 1)%Z /\
        g2 = rand_state Tape.rand (S i) g1)
     \/
     ((forall k, (k < 1)%nat ->
           passes (norm_logits Tape.exp (logits_of Run.target x))
                  (norm_logits Tape.exp lq)
                  x (length prefix) k (rand_draw Tape.rand k g1)) /\
      n = (Z.of_nat (length prefix) + Z.of_nat 1 - 1)%Z /\
      g2 = rand_state Tape.rand 1 g1)) /\
    out = firstn (Z.to_nat (n + 1)) x ++ [t] /\
    Z.of_nat (length (firstn (Z.to_nat (n + 1)) x)) = (n + 1)%Z.
Proof.
  cbv zeta.
  assert (H : spec_round Tape.rand Tape.draw Tape.exp Run.approx Run.target
                1 1 0 0 [1%nat] Run.tape_reject = Ok ([1%nat; 2%nat], []))
    by (vm_compute; reflexivity).
  split; [exact H|].
  exact (verification_boundary Tape.G Tape.rand Tape.draw Tape.exp
           Run.approx Run.target 1 1 0 0 [1%nat] Run.tape_reject _ _ H).
Defined.

(** The same round: the row handed to [sample] is the residual. *)
Lemma appended_token_witness :
  let prefix := [1%nat] in
  let out := [1%nat; 2%nat] in
  spec_round Tape.rand Tape.draw Tape.exp Run.approx Run.target 1 1 0 0 prefix
    Run.tape_reject = Ok (out, []) /\
  exists x g1 n g2 t,
    draft_loop Tape.draw Tape.exp 1 Run.approx 1 0 0 prefix None Run.tape_reject
      = Ok ((x, Some (logits_of Run.approx (removelast x))), g1) /\
    accept_loop Tape.rand 1 0 1 (length prefix) x
      (norm_logits Tape.exp (logits_of Run.target x))
      (norm_logits Tape.exp (logits_of Run.approx (removelast x))) g1
      = Ok (n, g2) /\
    out = firstn (Z.to_nat (n + 1)) x ++ [t] /\
    (((n < Z.of_nat (length prefix) + Z.of_nat 1 - 1)%Z /\
      exists target_logits draft_logits,
        getitem (Run.target x) n = Some target_logits /\
        getitem (Run.approx (removelast x)) n = Some draft_logits /\
        length target_logits = length draft_logits /\
        sample Tape.draw Tape.exp
               (residual_row (softmax Tape.exp (map Fin target_logits))
                             (softmax Tape.exp (map Fin draft_logits)))
               1 0 0 g2 = Ok (t, []))
     \/
     (n = (Z.of_nat (length prefix) + Z.of_nat 1 - 1)%Z /\
      length (Run.target x) = length x /\
      exists target_logits,
        last_item (Run.target x) = Some target_logits /\
        sample Tape.draw Tape.exp (softmax Tape.exp (map Fin target_logits)) 1 0 0 g2
          = Ok (t, []))).
Proof.
  cbv zeta.
  assert (H : spec_round Tape.rand Tape.draw Tape.exp Run.approx Run.target
                1 1 0 0 [1%nat] Run.tape_reject = Ok ([1%nat; 2%nat], []))
    by (vm_compute; reflexivity).
  split; [exact H|].
  exact (appended_token Tape.G Tape.rand Tape.draw Tape.exp
           Run.approx Run.target 1 1 0 0 [1%nat] Run.tape_reject _ _ H).
Defined.

(** One round with the same oracle on both sides. *)
Lemma identical_oracles_accept_all_witness :
  let prefix := [1%nat] in
  let out := [1%nat; 2%nat; 1%nat] in
  (forall g0, fst (Tape.rand g0) <= 1) /\
  causal Run.approx /\
  prefix <> [] /\
  spec_round Tape.rand Tape.draw Tape.exp Run.approx Run.approx 1 1 0 0 prefix
    Run.tape3 = Ok (out, []) /\
  exists x g1 t row,
    autoregressive_sampling Tape.draw Tape.exp 1 prefix Run.approx 1 1 0 0 Run.tape3
      = Ok (x, g1) /\
    accept_loop Tape.rand 1 0 1 (length prefix) x
      (norm_logits Tape.exp (logits_of Run.approx x))
      (norm_logits Tape.exp (logits_of Run.approx (removelast x))) g1
      = Ok ((Z.of_nat (length prefix) + Z.of_nat 1 - 1)%Z,
            rand_state Tape.rand 1 g1) /\
    last_item (norm_logits Tape.exp (logits_of Run.approx x)) = Some row /\
    sample Tape.draw Tape.exp row 1 0 0 (rand_state Tape.rand 1 g1) = Ok (t, []) /\
    out = x ++ [t].
Proof.
  cbv zeta.
  assert (Hne : [1%nat] <> []) by discriminate.
  assert (Hrun : spec_round Tape.rand Tape.draw Tape.exp Run.approx Run.approx
                   1 1 0 0 [1%nat] Run.tape3 = Ok ([1%nat; 2%nat; 1%nat], []))
    by (vm_compute; reflexivity).
  split; [exact tape_rand_le_1|].
  split; [apply const_oracle_causal|].
  split; [exact Hne|].
  split; [exact Hrun|].
  exact (identical_oracles_accept_all Tape.G Tape.rand Tape.draw Tape.exp tape_rand_le_1
           Run.approx 1 1 0 0 [1%nat] Run.tape3 [1%nat; 2%nat; 1%nat] []
           (const_oracle_causal [0; 1; 2]) Hne Hrun).
Defined.

(** A scan over one drafted token whose draft probability is zero. *)
Lemma zero_draft_probability_accepts_witness :
  let x := [1%nat; 1%nat] in
  let p := [[Fin (1#2); Fin (1#2)]] in
  let q := [[Fin 1; Fin 0]] in
  let g := [1#2] in
  getitem x (Z.of_nat (1 + 0)) = Some 1%nat /\
  entry p (Z.of_nat 1 + Z.of_nat 0 - 1) 1 = Ok (Fin (1#2)) /\
  0 <= 1#2 /\
  entry q (Z.of_nat 1 + Z.of_nat 0 - 1) 1 = Ok (Fin 0) /\
  0 == 0 /\
  rejects (fst (Tape.rand g)) (Fin (1#2)) (Fin 0) = false /\
  accept_loop Tape.rand 1 0 1 1 x p q g =
  accept_loop Tape.rand 0 1 1 1 x p q (snd (Tape.rand g)).
Proof.
  cbv zeta.
  assert (H0 : 0 <= 1#2) by lra.
  assert (H1 : 0 == 0) by reflexivity.
  split; [reflexivity|]. split; [reflexivity|]. split; [exact H0|].
  split; [reflexivity|]. split; [exact H1|].
  exact (zero_draft_probability_accepts Tape.G Tape.rand 1 1 [1%nat; 1%nat]
           [[Fin (1#2); Fin (1#2)]] [[Fin 1; Fin 0]] 0 0 [1#2] 1 (1#2) 0
           eq_refl eq_refl H0 eq_refl H1).
Defined.

Lemma half_half_distribution : distribution [1#2; 1#2].
Proof.
  split; [|reflexivity].
  intros a [<-|[<-|[]]]; lra.
Qed.

Lemma quarter_distribution : distribution [1#4; 3#4].
Proof.
  split; [|reflexivity].
  intros a [<-|[<-|[]]]; lra.
Qed.

(** The residual of two different distributions over two tokens. *)
Lemma residual_distribution_witness :
  distribution [1#2; 1#2] /\ distribution [1#4; 3#4] /\
  length [1#2; 1#2] = length [1#4; 3#4] /\
  ~ Forall2 Qeq [1#2; 1#2] [1#4; 3#4] /\
  exists res,
    residual [1#2; 1#2] [1#4; 3#4] = Ok (map Fin res) /\ distribution res.
Proof.
  assert (Hne : ~ Forall2 Qeq [1#2; 1#2] [1#4; 3#4]).
  { intros C. inversion C as [|a b l l' Hab _]. discriminate Hab. }
  split; [exact half_half_distribution|].
  split; [exact quarter_distribution|].
  split; [reflexivity|]. split; [exact Hne|].
  exact (residual_distribution [1#2; 1#2] [1#4; 3#4]
           half_half_distribution quarter_distribution eq_refl Hne).
Defined.


(** A completed run asked for two tokens. *)
Lemma returned_length_witness :
  let out := [1%nat; 1%nat; 1%nat] in
  speculative_sampling Tape.rand Tape.draw Tape.exp 2 [1%nat] Run.approx Run.target
    2 2 1 0 0 [9#10; 9#10; 1#2; 1#2; 7#10; 9#10; 1#2; 1#2] = Ok (out, []) /\
  (length [1%nat] + 2 <= length out <= length [1%nat] + 2 + 2)%nat.
Proof.
  cbv zeta.
  assert (Hrun : speculative_sampling Tape.rand Tape.draw Tape.exp 2 [1%nat]
                   Run.approx Run.target 2 2 1 0 0
                   [9#10; 9#10; 1#2; 1#2; 7#10; 9#10; 1#2; 1#2]
                 = Ok ([1%nat; 1%nat; 1%nat], []))
    by (vm_compute; reflexivity).
  split; [exact Hrun|].
  exact (returned_length Tape.G Tape.rand Tape.draw Tape.exp 2 [1%nat] Run.approx
           Run.target 2 2 1 0 0 _ _ _ Hrun).
Defined.

(** The generator asked for two tokens, with a unit of fuel to spare. *)
Lemma autoregressive_extends_witness :
  (2 <= 3)%nat /\
  autoregressive_sampling Tape.draw Tape.exp 3 [1%nat] Run.approx 2 1 0 0 Run.tape3 =
    ar_steps Tape.draw Tape.exp 2 Run.approx 1 0 0 [1%nat] Run.tape3 /\
  autoregressive_sampling Tape.draw Tape.exp 3 [1%nat] Run.approx 2 1 0 0 Run.tape3
    <> Diverge /\
  (forall out g',
     autoregressive_sampling Tape.draw Tape.exp 3 [1%nat] Run.approx 2 1 0 0 Run.tape3
       = Ok (out, g') ->
     exists toks, out = [1%nat] ++ toks /\ length toks = 2%nat).
Proof.
  assert (H : (2 <= 3)%nat) by lia.
  split; [exact H|].
  exact (autoregressive_extends Tape.G Tape.draw Tape.exp 3 [1%nat] Run.approx
           2 1 0 0 Run.tape3 H).
Defined.

(** The weighted draw lands on token 0, the only token left by top_k = 1. *)
Lemma reserved_token_error_witness :
  let logits := [Fin 5; Fin 1; Fin 2] in
  let filtered := [Fin 5; NInf; NInf] in
  top_k_top_p_filter Tape.exp (map (fun v => fdiv v (Fin 1)) logits) 1 0
    = Ok filtered /\
  multinomial Tape.draw (softmax Tape.exp filtered) [1#2] = Ok (0%nat, []) /\
  sample Tape.draw Tape.exp logits 1 1 0 [1#2] = Raise RuntimeError.
Proof.
  cbv zeta.
  assert (Hf : top_k_top_p_filter Tape.exp
                 (map (fun v => fdiv v (Fin 1)) [Fin 5; Fin 1; Fin 2]) 1 0
               = Ok [Fin 5; NInf; NInf]) by (vm_compute; reflexivity).
  assert (Hm : multinomial Tape.draw (softmax Tape.exp [Fin 5; NInf; NInf]) [1#2]
               = Ok (0%nat, [])) by (vm_compute; reflexivity).
  split; [exact Hf|]. split; [exact Hm|].
  exact (proj1 (reserved_token_error Tape.G Tape.rand Tape.draw Tape.exp
                  Run.approx Run.approx Run.target 2 1 1 0)
           [Fin 5; Fin 1; Fin 2] [1#2] [Fin 5; NInf; NInf] [] Hf Hm).
Defined.

(** Three logits with the greatest at token 1, top_k = 1 and top_p = 1/2. *)
Lemma sampler_truncation_witness :
  (forall a, 0 < Tape.exp a) /\
  (forall ws g, (forall w, In w ws -> 0 <= w) -> 0 < Qsum ws ->
                0 < nth (fst (Tape.draw ws g)) ws 0) /\
  0 < 1 /\
  nth_error [1; 5; 2] 1 = Some 5 /\
  (forall k v, nth_error [1; 5; 2] k = Some v -> k <> 1%nat -> v < 5) /\
  exists g',
    sample Tape.draw Tape.exp (map Fin [1; 5; 2]) 1 1 (1#2) [3#10] =
    if (1 =? 0)%nat then Raise RuntimeError else Ok (1%nat, g').
Proof.
  assert (Ht : 0 < 1) by lra.
  assert (Hlt : forall k v, nth_error [1; 5; 2] k = Some v -> k <> 1%nat -> v < 5).
  { intros [|[|[|k]]] v Hk Hne; cbn in Hk; try congruence;
      try (inversion Hk; subst; lra).
    destruct k; discriminate. }
  split; [exact tape_exp_pos|]. split; [exact tape_draw_support|].
  split; [exact Ht|]. split; [reflexivity|]. split; [exact Hlt|].
  exact (proj2 (proj1 (sampler_truncation Tape.G Tape.draw Tape.exp tape_exp_pos
                         tape_draw_support 1 Ht)
                  [1; 5; 2] (1#2) [3#10] 1%nat 5 eq_refl Hlt)).
Defined.

(** ** Where the code departs from the description *)

(** C1. Draft and target are the same oracle, whose last logit underflows
    in the softmax: the token drafted at temperature 1000 has probability
    zero on both sides, the quotient is NaN, [r <= quotient] is false, and
    the scan keeps the token all the same. *)
Lemma nan_quotient_is_accepted :
  draft_loop Tape.draw Tape.exp_underflow 1 Run.approx_underflow 1000 0 0
    [1%nat] None [9#10; 1#2; 1#2]
    = Ok (([1%nat; 2%nat], Some (logits_of Run.approx_underflow [1%nat])),
          [1#2; 1#2]) /\
  ratio_at
    (norm_logits Tape.exp_underflow (logits_of Run.approx_underflow [1%nat; 2%nat]))
    (norm_logits Tape.exp_underflow (logits_of Run.approx_underflow [1%nat]))
    [1%nat; 2%nat] 1 0 = Ok NaN /\
  ~ accepted
      (norm_logits Tape.exp_underflow (logits_of Run.approx_underflow [1%nat; 2%nat]))
      (norm_logits Tape.exp_underflow (logits_of Run.approx_underflow [1%nat]))
      [1%nat; 2%nat] 1 0 (1#2) /\
  accept_loop Tape.rand 1 0 1 1 [1%nat; 2%nat]
    (norm_logits Tape.exp_underflow (logits_of Run.approx_underflow [1%nat; 2%nat]))
    (norm_logits Tape.exp_underflow (logits_of Run.approx_underflow [1%nat]))
    [1#2; 1#2] = Ok (1%Z, [1#2]) /\
  spec_round Tape.rand Tape.draw Tape.exp_underflow Run.approx_underflow
    Run.approx_underflow 1 1000 0 0 [1%nat] [9#10; 1#2; 1#2]
    = Ok ([1%nat; 2%nat; 1%nat], []).
Proof.
  assert (Hr : ratio_at
    (norm_logits Tape.exp_underflow (logits_of Run.approx_underflow [1%nat; 2%nat]))
    (norm_logits Tape.exp_underflow (logits_of Run.approx_underflow [1%nat]))
    [1%nat; 2%nat] 1 0 = Ok NaN) by (vm_compute; reflexivity).
  split; [vm_compute; reflexivity|]. split; [exact Hr|].
  split.
  - intros (rho & Hrho & Hle). rewrite Hr in Hrho. inversion Hrho; subst rho.
    discriminate Hle.
  - split; vm_compute; reflexivity.
Qed.

(** C2. A round drafts token 2 and rejects it; the residual gives token 2
    probability zero, yet [sample], which takes the residual for logits and
    applies softmax to it, answers token 2 and the round appends it: the
    appended token is not drawn from the residual. *)
Lemma rejected_token_appended_again :
  draft_loop Tape.draw Tape.exp 1 Run.approx 1 0 0 [1%nat] None Run.tape_reject
    = Ok (([1%nat; 2%nat], Some (logits_of Run.approx [1%nat])), [1#2; 9#10]) /\
  accept_loop Tape.rand 1 0 1 1 [1%nat; 2%nat]
    (norm_logits Tape.exp (logits_of Run.target [1%nat; 2%nat]))
    (norm_logits Tape.exp (logits_of Run.approx [1%nat]))
    [1#2; 9#10] = Ok (0%Z, [9#10]) /\
  residual_row (softmax Tape.exp (map Fin [2; 1; 0]))
               (softmax Tape.exp (map Fin [0; 1; 2]))
    = [Fin (432#432); Fin (0#12); Fin (0#12)] /\
  sample Tape.draw Tape.exp [Fin (432#432); Fin (0#12); Fin (0#12)] 1 0 0 [9#10]
    = Ok (2%nat, []) /\
  spec_round Tape.rand Tape.draw Tape.exp Run.approx Run.target 1 1 0 0 [1%nat]
    Run.tape_reject = Ok ([1%nat; 2%nat], []).
Proof.
  repeat split; vm_compute; reflexivity.
Qed.

(** C3. With the same oracle on both sides and the same tape, the
    orchestrator and the autoregressive generator return different
    sequences: the third token is drawn after the uniform draw of the
    acceptance test, and from the normalised row. *)
Lemma identical_oracles_output_differs :
  speculative_sampling Tape.rand Tape.draw Tape.exp 2 [1%nat] Run.approx Run.approx
    2 1 1 0 0 [1#2; 9#10; 1#2; 1#2] = Ok ([1%nat; 2%nat; 1%nat], [1#2]) /\
  autoregressive_sampling Tape.draw Tape.exp 2 [1%nat] Run.approx
    2 1 0 0 [1#2; 9#10; 1#2; 1#2] = Ok ([1%nat; 2%nat; 2%nat], [1#2; 1#2]) /\
  [1%nat; 2%nat; 1%nat] <> [1%nat; 2%nat; 2%nat].
Proof.
  split; [vm_compute; reflexivity|].
  split; [vm_compute; reflexivity | discriminate].
Qed.

(** Why the amended statement asks for a causal oracle: with the same
    oracle on both sides, but one whose rows change with the length of the
    sequence, the drafted token 1 is rejected and replaced. *)
Lemma noncausal_identical_oracles_reject :
  draft_loop Tape.draw Tape.exp 1 Run.parity_oracle 1 0 0 [1%nat] None Run.tape3
    = Ok (([1%nat; 1%nat], Some (logits_of Run.parity_oracle [1%nat])),
          [9#10; 1#2]) /\
  accept_loop Tape.rand 1 0 1 1 [1%nat; 1%nat]
    (norm_logits Tape.exp (logits_of Run.parity_oracle [1%nat; 1%nat]))
    (norm_logits Tape.exp (logits_of Run.parity_oracle [1%nat]))
    [9#10; 1#2] = Ok (0%Z, [1#2]) /\
  spec_round Tape.rand Tape.draw Tape.exp Run.parity_oracle Run.parity_oracle
    1 1 0 0 [1%nat] Run.tape3 = Ok ([1%nat; 2%nat], []).
Proof.
  repeat split; vm_compute; reflexivity.
Qed.

(** C4. Token 2 is drafted at temperature 1000 although its draft
    probability without temperature is zero; the test raises nothing and
    the round keeps the token instead of rejecting it. *)
Lemma zero_draft_probability_is_accepted :
  draft_loop Tape.draw Tape.exp_underflow 1 Run.approx_underflow 1000 0 0
    [1%nat] None [9#10; 1#2; 1#2]
    = Ok (([1%nat; 2%nat], Some (logits_of Run.approx_underflow [1%nat])),
          [1#2; 1#2]) /\
  entry (norm_logits Tape.exp_underflow (logits_of Run.approx_underflow [1%nat]))
        0 2 = Ok (Fin (0#2)) /\
  accept_loop Tape.rand 1 0 1 1 [1%nat; 2%nat]
    (norm_logits Tape.exp_underflow (logits_of Run.target_flat [1%nat; 2%nat]))
    (norm_logits Tape.exp_underflow (logits_of Run.approx_underflow [1%nat]))
    [1#2; 1#2] = Ok (1%Z, [1#2]) /\
  spec_round Tape.rand Tape.draw Tape.exp_underflow Run.approx_underflow
    Run.target_flat 1 1000 0 0 [1%nat] [9#10; 1#2; 1#2]
    = Ok ([1%nat; 2%nat; 1%nat], []).
Proof.
  repeat split; vm_compute; reflexivity.
Qed.

(** C5. The residual of a distribution against itself is a row of NaN. *)
Lemma residual_of_equal_distributions :
  distribution [1#2; 1#2] /\
  residual [1#2; 1#2] [1#2; 1#2] = Ok [NaN; NaN] /\
  ~ (fsum [NaN; NaN] =f= Fin 1) /\
  ~ (exists res, residual [1#2; 1#2] [1#2; 1#2] = Ok (map Fin res)).
Proof.
  split; [exact half_half_distribution|].
  split; [vm_compute; reflexivity|].
  split; [intros C; exact C|].
  intros (res & H).
  assert (E : residual [1#2; 1#2] [1#2; 1#2] = Ok [NaN; NaN])
    by (vm_compute; reflexivity).
  rewrite E in H. destruct res as [|a res]; cbn in H; discriminate.
Qed.

(** C8. With top_k = 1 the sampler raises when the greatest logit is that
    of token 0, and returns either token when two share the greatest
    logit. *)
Lemma top_k_one_not_always_argmax :
  sample Tape.draw Tape.exp [Fin 5; Fin 1; Fin 2] 1 1 0 [1#2] = Raise RuntimeError /\
  sample Tape.draw Tape.exp [Fin 1; Fin 3; Fin 3] 1 1 0 [1#10] = Ok (1%nat, []) /\
  sample Tape.draw Tape.exp [Fin 1; Fin 3; Fin 3] 1 1 0 [9#10] = Ok (2%nat, []).
Proof.
  repeat split; vm_compute; reflexivity.
Qed.

(** ** Concrete instances of the further properties *)

Lemma filter_only_masks_witness :
  let l := [Fin 1; Fin 3; Fin 2; Fin 0] in
  let l' := [NInf; Fin 3; Fin 2; NInf] in
  top_k_top_p_filter Tape.exp l 2 (9#10) = Ok l' /\
  length l' = length l /\
  forall i b, nth_error l' i = Some b -> b = NInf \/ nth_error l i = Some b.
Proof.
  cbv zeta.
  assert (H : top_k_top_p_filter Tape.exp [Fin 1; Fin 3; Fin 2; Fin 0] 2 (9#10)
              = Ok [NInf; Fin 3; Fin 2; NInf]) by (vm_compute; reflexivity).
  split; [exact H|].
  exact (filter_only_masks Tape.exp _ _ _ _ H).
Defined.

Lemma top_k_at_least_vocabulary_witness :
  let l := [Fin 1; Fin 3; Fin 2] in
  l <> [] /\ (length l <= 5)%nat /\
  top_k_top_p_filter Tape.exp l 5 (1#2) = top_k_top_p_filter Tape.exp l 0 (1#2).
Proof.
  cbv zeta.
  assert (Hne : [Fin 1; Fin 3; Fin 2] <> []) by discriminate.
  assert (Hlen : (length [Fin 1; Fin 3; Fin 2] <= 5)%nat) by (cbn; lia).
  split; [exact Hne|]. split; [exact Hlen|].
  exact (top_k_at_least_vocabulary Tape.exp _ 5 (1#2) Hne Hlen).
Defined.

(** Two entries tied at the greatest value both survive [top_k = 1]. *)
Lemma top_k_keeps_at_least_k_witness :
  let l := [Fin 1; Fin 3; Fin 3; Fin 0] in
  let l' := [NInf; Fin 3; Fin 3; NInf] in
  (0 < 1)%nat /\
  top_k_top_p_filter Tape.exp l 1 0 = Ok l' /\
  exists kth,
    In kth l /\
    l' = map (fun v => if fltb v kth then NInf else v) l /\
    (Nat.min 1 (length l) <= survivors kth l)%nat.
Proof.
  cbv zeta.
  assert (Hk : (0 < 1)%nat) by lia.
  assert (H : top_k_top_p_filter Tape.exp [Fin 1; Fin 3; Fin 3; Fin 0] 1 0
              = Ok [NInf; Fin 3; Fin 3; NInf]) by (vm_compute; reflexivity).
  split; [exact Hk|]. split; [exact H|].
  exact (top_k_keeps_at_least_k Tape.exp _ 1 _ Hk H).
Defined.

Lemma filter_keeps_greatest_witness :
  let l := [Fin 1; Fin 3; Fin 2; Fin 0] in
  let l' := [NInf; Fin 3; Fin 2; NInf] in
  l <> [] /\
  top_k_top_p_filter Tape.exp l 2 (9#10) = Ok l' /\
  exists m v,
    nth_error l m = Some v /\ nth_error l' m = Some v /\
    forall a, In a l -> sort_geb v a = true.
Proof.
  cbv zeta.
  assert (Hne : [Fin 1; Fin 3; Fin 2; Fin 0] <> []) by discriminate.
  assert (H : top_k_top_p_filter Tape.exp [Fin 1; Fin 3; Fin 2; Fin 0] 2 (9#10)
              = Ok [NInf; Fin 3; Fin 2; NInf]) by (vm_compute; reflexivity).
  split; [exact Hne|]. split; [exact H|].
  exact (filter_keeps_greatest Tape.exp _ _ _ _ Hne H).
Defined.

Lemma sample_respects_truncation_witness :
  let logits := [Fin 1; Fin 3; Fin 2; Fin 0] in
  (forall ws g, (forall w, In w ws -> 0 <= w) -> 0 < Qsum ws ->
                0 < nth (fst (Tape.draw ws g)) ws 0) /\
  sample Tape.draw Tape.exp logits 1 2 (9#10) [3#10] = Ok (1%nat, []) /\
  exists filtered a,
    top_k_top_p_filter Tape.exp (map (fun v => fdiv v (Fin 1)) logits) 2 (9#10)
      = Ok filtered /\
    (1 < length logits)%nat /\
    nth_error filtered 1 = Some a /\
    a <> NInf /\
    nth_error (map (fun v => fdiv v (Fin 1)) logits) 1 = Some a.
Proof.
  cbv zeta.
  assert (H : sample Tape.draw Tape.exp [Fin 1; Fin 3; Fin 2; Fin 0] 1 2 (9#10)
                [3#10] = Ok (1%nat, [])) by (vm_compute; reflexivity).
  split; [exact tape_draw_support|]. split; [exact H|].
  exact (sample_respects_truncation Tape.G Tape.draw Tape.exp tape_draw_support
           _ _ _ _ _ _ _ H).
Defined.

Lemma max_fn_distribution_witness :
  let ds := [1#4; -1#4; 1#2] in
  (exists d, In d ds /\ 0 < d) /\
  exists res,
    max_fn (map Fin ds) = map Fin res /\
    distribution res /\
    length res = length ds /\
    (forall i d, nth_error ds i = Some d -> d <= 0 ->
       exists r, nth_error res i = Some r /\ r == 0).
Proof.
  cbv zeta.
  assert (H : exists d, In d [1#4; -1#4; 1#2] /\ 0 < d).
  { exists (1#4). split; [left; reflexivity | lra]. }
  split; [exact H|].
  exact (max_fn_distribution [1#4; -1#4; 1#2] H).
Defined.

Lemma max_fn_without_positive_entry_witness :
  let ds := [0; -1#2] in
  (forall d, In d ds -> d <= 0) /\
  max_fn (map Fin ds) = map (fun _ => NaN) ds.
Proof.
  cbv zeta.
  assert (H : forall d, In d [0; -1#2] -> d <= 0).
  { intros d [<-|[<-|[]]]; lra. }
  split; [exact H|].
  exact (max_fn_without_positive_entry [0; -1#2] H).
Defined.

Lemma norm_logits_rows_are_distributions_witness :
  let row := [Fin (1#6); Fin (2#6); Fin (3#6)] in
  (forall a, 0 < Tape.exp a) /\
  In row (norm_logits Tape.exp (map (map Fin) [[0; 1; 2]])) /\
  (row = [] \/
   exists ws, row = map Fin ws /\ distribution ws /\ forall w, In w ws -> 0 < w).
Proof.
  cbv zeta.
  assert (H : In [Fin (1#6); Fin (2#6); Fin (3#6)]
                 (norm_logits Tape.exp (map (map Fin) [[0; 1; 2]]))).
  { left. vm_compute. reflexivity. }
  split; [exact tape_exp_pos|]. split; [exact H|].
  exact (norm_logits_rows_are_distributions Tape.exp tape_exp_pos [[0; 1; 2]] _ H).
Defined.

(** The rejecting round of the claims: its residual is a distribution. *)
Lemma rejecting_round_residual_witness :
  let prefix := [1%nat] in
  let out := [1%nat; 1%nat] in
  let g3 := [7#10] in
  (forall a, 0 < Tape.exp a) /\
  (forall g0, fst (Tape.rand g0) <= 1) /\
  spec_round Tape.rand Tape.draw Tape.exp Run.approx Run.target 2 1 0 0 prefix
    Run.tape5 = Ok (out, g3) /\
  exists x lq g1 n g2 t,
    draft_loop Tape.draw Tape.exp 2 Run.approx 1 0 0 prefix None Run.tape5
      = Ok ((x, Some lq), g1) /\
    accept_loop Tape.rand 2 0 2 (length prefix) x
      (norm_logits Tape.exp (logits_of Run.target x)) (norm_logits Tape.exp lq) g1
      = Ok (n, g2) /\
    out = firstn (Z.to_nat (n + 1)) x ++ [t] /\
    ((n < Z.of_nat (length prefix) + Z.of_nat 2 - 1)%Z ->
     exists pn qn d res j,
       getitem (norm_logits Tape.exp (logits_of Run.target x)) n = Some pn /\
       getitem (norm_logits Tape.exp lq) n = Some qn /\
       row_sub pn qn = Ok d /\
       max_fn d = map Fin res /\
       distribution res /\
       getitem x (n + 1) = Some j /\
       (exists r, nth_error res j = Some r /\ r == 0) /\
       sample Tape.draw Tape.exp (map Fin res) 1 0 0 g2 = Ok (t, g3)).
Proof.
  cbv zeta.
  assert (H : spec_round Tape.rand Tape.draw Tape.exp Run.approx Run.target
                2 1 0 0 [1%nat] Run.tape5 = Ok ([1%nat; 1%nat], [7#10]))
    by (vm_compute; reflexivity).
  split; [exact tape_exp_pos|]. split; [exact tape_rand_le_1|]. split; [exact H|].
  exact (rejecting_round_residual Tape.G Tape.rand Tape.draw Tape.exp tape_exp_pos
           tape_rand_le_1 Run.approx Run.target 2 1 0 0 [1%nat] Run.tape5 _ _ H).
Defined.

Lemma gamma_zero_raises_witness :
  (1 <= 3)%nat /\
  speculative_sampling Tape.rand Tape.draw Tape.exp 4 [1%nat] Run.approx Run.target
    3 0 1 0 0 Run.tape5 = Raise UnboundLocalError.
Proof.
  assert (H : (1 <= 3)%nat) by lia.
  split; [exact H|].
  exact (gamma_zero_raises Tape.G Tape.rand Tape.draw Tape.exp 3 [1%nat]
           Run.approx Run.target 3 1 0 0 Run.tape5 H).
Defined.

Lemma empty_prefix_raises_witness :
  Run.approx [] = [] /\ (1 <= 2)%nat /\
  autoregressive_sampling Tape.draw Tape.exp 3 [] Run.approx 2 1 0 0 Run.tape5
    = Raise IndexError /\
  ((1 <= 2)%nat ->
   speculative_sampling Tape.rand Tape.draw Tape.exp 3 [] Run.approx Run.target
     2 2 1 0 0 Run.tape5 = Raise IndexError).
Proof.
  assert (H : (1 <= 2)%nat) by lia.
  split; [reflexivity|]. split; [exact H|].
  exact (empty_prefix_raises Tape.G Tape.rand Tape.draw Tape.exp 2 Run.approx
           Run.target 2 2 1 0 0 Run.tape5 eq_refl H).
Defined.

Lemma rounds_lower_bound_witness :
  speculative_sampling Tape.rand Tape.draw Tape.exp 1 [1%nat] Run.approx Run.approx
    2 1 1 0 0 Run.tape3 = Ok ([1%nat; 2%nat; 1%nat], []) /\
  (2 <= 1 * (1 + 1))%nat.
Proof.
  assert (H : speculative_sampling Tape.rand Tape.draw Tape.exp 1 [1%nat]
                Run.approx Run.approx 2 1 1 0 0 Run.tape3
              = Ok ([1%nat; 2%nat; 1%nat], [])) by (vm_compute; reflexivity).
  split; [exact H|].
  exact (rounds_lower_bound Tape.G Tape.rand Tape.draw Tape.exp 1 [1%nat]
           Run.approx Run.approx 2 1 1 0 0 Run.tape3 _ _ H).
Defined.

Lemma full_acceptance_witness :
  let x := [1%nat; 1%nat] in
  let p := [[Fin (1#2); Fin (1#2)]] in
  let q := [[Fin (3#4); Fin (1#4)]] in
  (forall g0, fst (Tape.rand g0) <= 1) /\
  (forall i, (i < 1)%nat -> exists rho,
     ratio_at p q x 1 i = Ok rho /\ fleb (Fin 1) rho = true) /\
  accept_loop Tape.rand 1 0 1 1 x p q [9#10] =
  Ok ((Z.of_nat 1 + Z.of_nat 1 - 1)%Z, rand_state Tape.rand 1 [9#10]).
Proof.
  cbv zeta.
  assert (H : forall i, (i < 1)%nat -> exists rho,
            ratio_at [[Fin (1#2); Fin (1#2)]] [[Fin (3#4); Fin (1#4)]]
                     [1%nat; 1%nat] 1 i = Ok rho /\ fleb (Fin 1) rho = true).
  { intros [|i] Hi; [|lia]. eexists. split; vm_compute; reflexivity. }
  split; [exact tape_rand_le_1|]. split; [exact H|].
  exact (full_acceptance Tape.G Tape.rand tape_rand_le_1 1 1 _ _ _ [9#10] H).
Defined.

Lemma zero_target_probability_witness :
  let x := [1%nat; 1%nat] in
  let p := [[Fin 1; Fin 0]] in
  let q := [[Fin (1#2); Fin (1#2)]] in
  let g := [1#2] in
  getitem x (Z.of_nat (1 + 0)) = Some 1%nat /\
  entry p (Z.of_nat 1 + Z.of_nat 0 - 1) 1 = Ok (Fin 0) /\
  0 == 0 /\
  entry q (Z.of_nat 1 + Z.of_nat 0 - 1) 1 = Ok (Fin (1#2)) /\
  0 < 1#2 /\
  (0 < fst (Tape.rand g) ->
   accept_loop Tape.rand 1 0 1 1 x p q g =
   Ok ((Z.of_nat 1 + Z.of_nat 0 - 1)%Z, snd (Tape.rand g))) /\
  (fst (Tape.rand g) <= 0 ->
   accept_loop Tape.rand 1 0 1 1 x p q g =
   accept_loop Tape.rand 0 1 1 1 x p q (snd (Tape.rand g))).
Proof.
  cbv zeta.
  assert (H0 : 0 == 0) by reflexivity.
  assert (H1 : 0 < 1#2) by lra.
  split; [reflexivity|]. split; [reflexivity|]. split; [exact H0|].
  split; [reflexivity|]. split; [exact H1|].
  exact (zero_target_probability Tape.G Tape.rand 1 1 [1%nat; 1%nat]
           [[Fin 1; Fin 0]] [[Fin (1#2); Fin (1#2)]] 0 0 [1#2] 1 0 (1#2)
           eq_refl eq_refl H0 eq_refl H1).
Defined.

Lemma autoregressive_composes_witness :
  (1 + 1 <= 3)%nat /\
  autoregressive_sampling Tape.draw Tape.exp 3 [1%nat] Run.approx (1 + 1) 1 0 0
    Run.tape3 =
  match autoregressive_sampling Tape.draw Tape.exp 3 [1%nat] Run.approx 1 1 0 0
          Run.tape3 with
  | Ok (x', g') => autoregressive_sampling Tape.draw Tape.exp 3 x' Run.approx 1 1 0 0 g'
  | Raise e => Raise e
  | Diverge => Diverge
  end.
Proof.
  assert (H : (1 + 1 <= 3)%nat) by lia.
  split; [exact H|].
  exact (autoregressive_composes Tape.G Tape.draw Tape.exp 3 [1%nat] Run.approx
           1 1 1 0 0 Run.tape3 H).
Defined.

Lemma drafting_is_autoregressive_witness :
  let x := [1%nat; 2%nat; 2%nat] in
  let q := Some [[Fin 0; Fin 1; Fin 2]; [Fin 0; Fin 1; Fin 2]] in
  draft_loop Tape.draw Tape.exp 2 Run.approx 1 0 0 [1%nat] None Run.tape5
    = Ok ((x, q), [1#2; 1#2; 7#10]) /\
  (0 < 2)%nat /\
  q = Some (logits_of Run.approx (removelast x)) /\
  length x = (length [1%nat] + 2)%nat.
Proof.
  cbv zeta.
  assert (H : draft_loop Tape.draw Tape.exp 2 Run.approx 1 0 0 [1%nat] None
                Run.tape5
              = Ok (([1%nat; 2%nat; 2%nat],
                     Some [[Fin 0; Fin 1; Fin 2]; [Fin 0; Fin 1; Fin 2]]),
                    [1#2; 1#2; 7#10])) by (vm_compute; reflexivity).
  assert (Hg : (0 < 2)%nat) by lia.
  split; [exact H|]. split; [exact Hg|].
  exact (proj2 (drafting_is_autoregressive Tape.G Tape.draw Tape.exp Run.approx
                  2 1 0 0 [1%nat] Run.tape5) _ _ _ H Hg).
Defined.

(** A target oracle that answers one row for two tokens. *)
Lemma assertion_failure_witness :
  spec_round Tape.rand Tape.draw Tape.exp Run.approx Run.short_oracle 1 1 0 0
    [1%nat] Run.tape3 = Raise AssertionError /\
  exists x lq g1 g2,
    draft_loop Tape.draw Tape.exp 1 Run.approx 1 0 0 [1%nat] None Run.tape3
      = Ok ((x, Some lq), g1) /\
    accept_loop Tape.rand 1 0 1 (length [1%nat]) x
      (norm_logits Tape.exp (logits_of Run.short_oracle x)) (norm_logits Tape.exp lq)
      g1 = Ok ((Z.of_nat (length [1%nat]) + Z.of_nat 1 - 1)%Z, g2) /\
    length x = (length [1%nat] + 1)%nat /\
    length (Run.short_oracle x) <> length x.
Proof.
  assert (H : spec_round Tape.rand Tape.draw Tape.exp Run.approx Run.short_oracle
                1 1 0 0 [1%nat] Run.tape3 = Raise AssertionError)
    by (vm_compute; reflexivity).
  split; [exact H|].
  exact (assertion_failure Tape.G Tape.rand Tape.draw Tape.exp Run.approx
           Run.short_oracle 1 1 0 0 [1%nat] Run.tape3 H).
Defined.
